(** * Verification of the state-space search framework (searchutil.py)

    The development embeds [PriorityQueue], [UniformCostSearch],
    [DepthFirstSearch] and [dynamicProgramming] of [searchutil.py] as Rocq
    functions and proves the properties the specification states about them.
    It also embeds [rhyme] of [dict.py].

    Modelling conventions.
    - States and actions are Python values that are hashed (dict keys) and
      compared ([heapq] orders the tuples [(priority, state)], [min] orders
      the tuples [(cost, action, newState, cost)]); they are modelled as
      integers, and costs and priorities as integers too.
    - A Python dict is a [gmap]; a subscript [d[k]] on a missing key raises
      [KeyError].
    - [heapq] belongs to the Python standard library: only its contract is
      modelled.  The heap is the list of its entries kept in ascending tuple
      order, [heappush] inserts in order and [heappop] removes the head,
      which is the least entry.
    - A [while] loop that need not terminate takes a fuel argument and
      returns [OutOfFuel] when it is used up.
    - The recursive functions ([recurse] of [DepthFirstSearch.solve] and of
      [dynamicProgramming]) run on the interpreter's call stack.  They take
      an argument [limit]: the number of nested calls of [recurse] that the
      interpreter's recursion limit leaves room for, the calls of the
      problem's methods made by the deepest one included.  The call nested
      one deeper raises the interpreter's [RuntimeError] "maximum recursion
      depth exceeded" (a [RecursionError] in Python 3), modelled as
      [RecursionError]; nothing in the code catches it.
    - The [verbose] trace output does not influence any field and is left
      out.
    - [rhyme] reads the module's global table [d]; the table is a parameter
      of the model.  Words are byte strings and a table value is a
      sequence.  Python's [==] on the elements of these sequences is a
      parameter [eqb] of the model, about which nothing is assumed: on
      floats, for one, [==] is not reflexive ([nan == nan] is false). *)

From stdpp Require Import gmap list sorting strings.
From Stdlib Require Import ZArith Lia.

#[local] Set Warnings "-clear-no-such-hyp".

Local Open Scope Z_scope.

Abbreviation State := Z.
Abbreviation Action := Z.
Abbreviation Cost := Z.

(** ** Outcomes of Python code: a value, an exception, or no answer within
    the fuel. *)

Inductive exn : Set := KeyError | ValueError | IndexError | RecursionError.

Inductive result (A : Type) : Type :=
| Ret (a : A)
| Raise (e : exn)
| OutOfFuel.

Arguments Ret {A} a.
Arguments Raise {A} e.
Arguments OutOfFuel {A}.

Definition result_bind {A B : Type} (f : A → result B) (m : result A) : result B :=
  match m with
  | Ret a => f a
  | Raise e => Raise e
  | OutOfFuel => OutOfFuel
  end.

#[global] Instance result_mbind : MBind result := @result_bind.
#[global] Instance result_mret : MRet result := @Ret.

(** [for x in l: body] with a threaded state. *)
Fixpoint for_each {A S : Type} (body : A → S → result S) (l : list A) (s : S)
  : result S :=
  match l with
  | [] => Ret s
  | x :: l' => s' ← body x s; for_each body l' s'
  end.

(** ** The search problem interface *)

Abbreviation Edge := (Action * State * Cost)%type.

Record SearchProblem : Type := {
  startState : State;
  isGoal : State → bool;
  succAndCost : State → list Edge
}.

Definition edge_action (e : Edge) : Action := e.1.1.
Definition edge_dest (e : Edge) : State := e.1.2.
Definition edge_cost (e : Edge) : Cost := e.2.

(** ** PriorityQueue *)

Module PriorityQueue.

Definition DONE : Z := -100000.

Record t : Type := mk {
  heap : list (Z * State);
  priorities : gmap Z Z
}.

(** [PriorityQueue()] *)
Definition init : t := mk [] ∅.

(** Python's order on the tuples [(priority, state)]. *)
Definition entry_leb (x y : Z * State) : bool :=
  (x.1 <? y.1) || ((x.1 =? y.1) && (x.2 <=? y.2)).

Definition entry_le (x y : Z * State) : Prop :=
  x.1 < y.1 ∨ (x.1 = y.1 ∧ x.2 ≤ y.2).

Fixpoint heappush (h : list (Z * State)) (x : Z * State) : list (Z * State) :=
  match h with
  | [] => [x]
  | y :: h' => if entry_leb x y then x :: y :: h' else y :: heappush h' x
  end.

Definition update (q : t) (state : State) (newPriority : Z) : bool * t :=
  let oldPriority := priorities q !! state in
  if match oldPriority with
     | None => true
     | Some old => newPriority <? old
     end
  then (true, mk (heappush (heap q) (newPriority, state))
                 (<[state := newPriority]> (priorities q)))
  else (false, q).

(** The [while len(self.heap) > 0] loop of [removeMin]: recursion on the
    heap, which loses its head at every pop. *)
Fixpoint removeMin_loop (h : list (Z * State)) (prios : gmap Z Z)
  : result (option (State * Z) * t) :=
  match h with
  | [] => Ret (None, mk [] prios)
  | (priority, state) :: h' =>
      match prios !! state with
      | None => Raise KeyError
      | Some p =>
          if p =? DONE then removeMin_loop h' prios
          else Ret (Some (state, priority), mk h' (<[state := DONE]> prios))
      end
  end.

Definition removeMin (q : t) : result (option (State * Z) * t) :=
  removeMin_loop (heap q) (priorities q).

(** A client of the queue: a sequence of calls on one instance. *)
Inductive op : Set :=
| Update (state : State) (newPriority : Z)
| RemoveMin.

(** Runs the calls in order and collects the states that [removeMin]
    returned, oldest first. *)
Fixpoint run (ops : list op) (q : t) (returned : list State)
  : result (list State * t) :=
  match ops with
  | [] => Ret (returned, q)
  | Update s p :: ops' => run ops' (update q s p).2 returned
  | RemoveMin :: ops' =>
      '(r, q') ← removeMin q;
      match r with
      | None => run ops' q' returned
      | Some (s, _) => run ops' q' (returned ++ [s])
      end
  end.

End PriorityQueue.

(** ** Paths of a problem *)

(** The state a sequence of edges leads to from [s]. *)
Fixpoint end_state (s : State) (es : list Edge) : State :=
  match es with
  | [] => s
  | e :: es' => end_state (edge_dest e) es'
  end.

(** Every edge of [es] is listed by [succAndCost] at the state reached so
    far: each consecutive edge exists in the successor relation. *)
Fixpoint is_path (P : SearchProblem) (s : State) (es : list Edge) : Prop :=
  match es with
  | [] => True
  | e :: es' => e ∈ succAndCost P s ∧ is_path P (edge_dest e) es'
  end.

Fixpoint is_pathb (P : SearchProblem) (s : State) (es : list Edge) : bool :=
  match es with
  | [] => true
  | e :: es' => bool_decide (e ∈ succAndCost P s) && is_pathb P (edge_dest e) es'
  end.

Definition path_cost (es : list Edge) : Z :=
  foldr (λ e acc, edge_cost e + acc) 0 es.

Definition path_actions (es : list Edge) : list Action :=
  edge_action <$> es.

Definition reachable (P : SearchProblem) (s : State) : Prop :=
  ∃ es, is_path P (startState P) es ∧ end_state (startState P) es = s.

(** A path from the start to a goal state. *)
Definition solution_path (P : SearchProblem) (es : list Edge) : Prop :=
  is_path P (startState P) es ∧ isGoal P (end_state (startState P) es) = true.

(** The paths of at most [n] edges out of [s], in the order the depth-first
    search walks them. *)
Fixpoint paths_from (P : SearchProblem) (n : nat) (s : State)
  : list (list Edge) :=
  [] :: match n with
        | O => []
        | S n' =>
            succAndCost P s ≫= λ e, cons e <$> paths_from P n' (edge_dest e)
        end.

(** The problem is finite: [states] holds the start state and every
    successor of its members, hence every reachable state. *)
Definition closedb (P : SearchProblem) (states : list State) : bool :=
  bool_decide (startState P ∈ states) &&
  forallb (λ s, forallb (λ e, bool_decide (edge_dest e ∈ states))
                        (succAndCost P s)) states.

(** Every edge cost returned at a state of [states] is non-negative. *)
Definition nonnegb (P : SearchProblem) (states : list State) : bool :=
  forallb (λ s, forallb (λ e, 0 <=? edge_cost e) (succAndCost P s)) states.

(** The reachable state graph has no cycle. *)
Definition acyclic (P : SearchProblem) : Prop :=
  ∀ s es, reachable P s → es ≠ [] → is_path P s es → end_state s es ≠ s.

(** A certificate of acyclicity that can be checked by evaluation: every
    edge out of a state of [states] strictly decreases [rank]. *)
Definition rankedb (P : SearchProblem) (states : list State) (rank : State → nat)
  : bool :=
  forallb (λ s, forallb (λ e, bool_decide (rank (edge_dest e) < rank s)%nat)
                        (succAndCost P s)) states.

(** No reachable state that is not a goal is a dead end. *)
Definition no_dead_endb (P : SearchProblem) (states : list State) : bool :=
  forallb (λ s, isGoal P s || negb (bool_decide (succAndCost P s = []))) states.

(** Two problems that differ only in the order of each successor list. *)
Definition same_up_to_edge_order (P Q : SearchProblem) : Prop :=
  startState P = startState Q ∧
  (∀ s, isGoal P s = isGoal Q s) ∧
  (∀ s, succAndCost P s ≡ₚ succAndCost Q s).

(** ** UniformCostSearch *)

Module UniformCostSearch.

(** The fields [solve] sets.  [succ_calls] is not a field of the Python
    object: it logs, in order, the states [problem.succAndCost] was
    called on. *)
Record t : Type := mk {
  actions : option (list Action);
  totalCost : option Z;
  numStatesExplored : nat;
  solution : option State;
  succ_calls : list State
}.

(** [while state != startState]: follows the backpointers and appends the
    actions, goal first. *)
Fixpoint walk_back (fuel : nat) (backpointers : gmap Z (Action * State))
    (startState state : State) (actions : list Action) : result (list Action) :=
  match fuel with
  | O => OutOfFuel
  | S fuel' =>
      if bool_decide (state = startState) then Ret actions
      else match backpointers !! state with
           | None => Raise KeyError
           | Some (action, prevState) =>
               walk_back fuel' backpointers startState prevState
                         (actions ++ [action])
           end
  end.

(** One turn of [for action, newState, cost in problem.succAndCost(state)]. *)
Definition relax (state : State) (pastCost : Z)
    (fb : PriorityQueue.t * gmap Z (Action * State)) (e : Edge)
  : PriorityQueue.t * gmap Z (Action * State) :=
  let '(action, newState, cost) := e in
  let '(updated, frontier) :=
    PriorityQueue.update fb.1 newState (pastCost + cost) in
  if updated then (frontier, <[newState := (action, state)]> fb.2)
  else (frontier, fb.2).

(** The [while True] loop.  [wfuel] bounds the backpointer walk. *)
Fixpoint loop (wfuel fuel : nat) (problem : SearchProblem)
    (frontier : PriorityQueue.t) (backpointers : gmap Z (Action * State))
    (explored : nat) (calls : list State) : result t :=
  match fuel with
  | O => OutOfFuel
  | S fuel' =>
      '(r, frontier) ← PriorityQueue.removeMin frontier;
      match r with
      | None => Ret (mk None None explored None calls)
      | Some (state, pastCost) =>
          let explored := S explored in
          if isGoal problem state then
            acts ← walk_back wfuel backpointers (startState problem) state [];
            Ret (mk (Some (reverse acts)) (Some pastCost) explored
                    (Some state) calls)
          else
            let '(frontier, backpointers) :=
              fold_left (relax state pastCost) (succAndCost problem state)
                        (frontier, backpointers) in
            loop wfuel fuel' problem frontier backpointers explored
                 (calls ++ [state])
      end
  end.

Definition solve (fuel : nat) (problem : SearchProblem) : result t :=
  let frontier :=
    (PriorityQueue.update PriorityQueue.init (startState problem) 0).2 in
  loop fuel fuel problem frontier ∅ 0%nat [].

End UniformCostSearch.

(** ** DepthFirstSearch *)

Module DepthFirstSearch.

(** The fields of the object.  [succ_calls] is not a field of the Python
    object: it logs, in order, the states [problem.succAndCost] was
    called on. *)
Record t : Type := mk {
  solution : option State;
  actions : option (list Action);
  totalCost : option Z;
  numStatesExplored : nat;
  size : nat;
  succ_calls : list State
}.

(** [history.pop()] *)
Definition pop (history : list Edge) : result (list Edge) :=
  match history with
  | [] => Raise IndexError
  | _ => Ret (removelast history)
  end.

(** One turn of [for action, newState, cost in successors], with
    [recurse] standing for the recursive call: append to the history,
    recurse, pop.  [history] is the one list object all calls share, so
    it is threaded with the fields. *)
Definition for_body
    (recurse : State → Z → list Edge * t → result (list Edge * t))
    (pastCost : Z) (e : Edge) (hs : list Edge * t)
  : result (list Edge * t) :=
  let '(action, newState, cost) := e in
  '(history, self) ←
    recurse newState (pastCost + cost)
            (hs.1 ++ [(action, newState, cost)], hs.2);
  history ← pop history;
  Ret (history, self).

(** The nested function [recurse].  [limit] is the number of nested calls
    the call stack still admits; the call that exceeds it raises the
    recursion-depth error. *)
Fixpoint recurse (limit : nat) (problem : SearchProblem) (state : State)
    (pastCost : Z) (hs : list Edge * t) : result (list Edge * t) :=
  match limit with
  | O => Raise RecursionError
  | S limit' =>
      let '(history, self) := hs in
      match solution self with
      | Some _ => Ret (history, self)
      | None =>
          let explored := S (numStatesExplored self) in
          if isGoal problem state then
            Ret (history,
                 mk (Some state) (Some (edge_action <$> history))
                    (Some pastCost) explored (size self) (succ_calls self))
          else
            let successors := succAndCost problem state in
            let self :=
              mk (solution self) (actions self) (totalCost self) explored
                 (size self + length successors)%nat
                 (succ_calls self ++ [state]) in
            for_each (for_body (recurse limit' problem) pastCost)
                     successors (history, self)
      end
  end.

Definition solve (limit : nat) (problem : SearchProblem) : result t :=
  '(_, self) ←
    recurse limit problem (startState problem) 0
            ([], mk None None None 0%nat 0%nat []);
  Ret self.

End DepthFirstSearch.

(** ** dynamicProgramming *)

Module DynamicProgramming.

(** A cache entry [(futureCost, action, newState, cost)]. *)
Abbreviation entry := (Z * Action * State * Cost)%type.

(** Python's [<] on these tuples. *)
Definition entry_ltb (x y : entry) : bool :=
  let '(a1, b1, c1, d1) := x in
  let '(a2, b2, c2, d2) := y in
  (a1 <? a2) || ((a1 =? a2) &&
    ((b1 <? b2) || ((b1 =? b2) &&
      ((c1 <? c2) || ((c1 =? c2) && (d1 <? d2)))))).

Fixpoint min_from (m : entry) (l : list entry) : entry :=
  match l with
  | [] => m
  | x :: l' => min_from (if entry_ltb x m then x else m) l'
  end.

(** [min(...)]: [ValueError] on an empty sequence. *)
Definition py_min (l : list entry) : result entry :=
  match l with
  | [] => Raise ValueError
  | x :: l' => Ret (min_from x l')
  end.

(** One element of the generator handed to [min], with [recurse]
    standing for the recursive call; each [recurse(newState)] sees the
    cache the previous ones left. *)
Definition gen_body
    (recurse : State → gmap Z entry → result (Z * gmap Z entry))
    (e : Edge) (tc : list entry * gmap Z entry)
  : result (list entry * gmap Z entry) :=
  let '(action, newState, cost) := e in
  '(futureCost, cache) ← recurse newState tc.2;
  Ret (tc.1 ++ [(cost + futureCost, action, newState, cost)], cache).

(** The nested function [recurse].  [limit] is the number of nested calls
    the call stack still admits, the frames of [min] and of its generator
    counted with the call they belong to; the call that exceeds it raises
    the recursion-depth error. *)
Fixpoint recurse (limit : nat) (problem : SearchProblem) (state : State)
    (cache : gmap Z entry) : result (Z * gmap Z entry) :=
  match limit with
  | O => Raise RecursionError
  | S limit' =>
      if isGoal problem state then Ret (0, cache)
      else
        cache ←
          match cache !! state with
          | Some _ => Ret cache
          | None =>
              '(tuples, cache) ←
                for_each (gen_body (recurse limit' problem))
                         (succAndCost problem state) ([], cache);
              m ← py_min tuples;
              Ret (<[state := m]> cache)
          end;
        match cache !! state with
        | None => Raise KeyError
        | Some e => Ret (e.1.1.1, cache)
        end
  end.

(** [while not problem.isGoal(state)]: follows the cached best edges. *)
Fixpoint follow (fuel : nat) (problem : SearchProblem) (cache : gmap Z entry)
    (state : State) (history : list Edge) : result (list Edge) :=
  match fuel with
  | O => OutOfFuel
  | S fuel' =>
      if isGoal problem state then Ret history
      else match cache !! state with
           | None => Raise KeyError
           | Some (_, action, newState, cost) =>
               follow fuel' problem cache newState
                      (history ++ [(action, newState, cost)])
           end
  end.

(** [limit] bounds the recursion, [fuel] the turns of the [while] loop. *)
Definition dynamicProgramming (limit fuel : nat) (problem : SearchProblem)
  : result (Z * list Edge) :=
  '(totalCost, cache) ← recurse limit problem (startState problem) ∅;
  history ← follow fuel problem cache (startState problem) [];
  Ret (totalCost, history).

End DynamicProgramming.

(** ** Concrete problems *)

(** A problem given by its adjacency lists. *)
Definition graph_problem (start : State) (goals : list State)
    (adj : list (State * list Edge)) : SearchProblem :=
  {| startState := start;
     isGoal := λ s, bool_decide (s ∈ goals);
     succAndCost := λ s,
       match list_find (λ x, x.1 = s) adj with
       | Some (_, (_, es)) => es
       | None => []
       end |}.

(** The example scenario of the specification: states A, B, C, D are 0, 1,
    2, 3; edges A->B cost 1, A->C cost 4, B->D cost 1, C->D cost 1; an
    action is named by the number of its edge. *)
Definition diamond_edges : list (State * list Edge) :=
  [(0, [(1, 1, 1); (2, 2, 4)]); (1, [(3, 3, 1)]); (2, [(4, 3, 1)])].

Definition diamond : SearchProblem := graph_problem 0 [3] diamond_edges.

(** The same graph without a goal state. *)
Definition diamond_no_goal : SearchProblem := graph_problem 0 [] diamond_edges.

(** The start state is not a goal and has no outgoing edge. *)
Definition isolated_start : SearchProblem := graph_problem 0 [] [].

(** The start state is its own first successor, the goal its second. *)
Definition self_loop : SearchProblem :=
  graph_problem 0 [1] [(0, [(1, 0, 1); (2, 1, 1)])].

(** State 1 is a dead end next to the goal state 2. *)
Definition dead_end : SearchProblem :=
  graph_problem 0 [2] [(0, [(1, 1, 1); (2, 2, 1)])].

(** The diamond with its start state as the goal. *)
Definition goal_start : SearchProblem := graph_problem 0 [0] diamond_edges.

(** A single state with an edge to itself and no goal. *)
Definition loop_no_goal : SearchProblem := graph_problem 0 [] [(0, [(1, 0, 1)])].

(** A single state with an edge to itself of cost -100001 and no goal. *)
Definition negative_loop : SearchProblem :=
  graph_problem 0 [] [(0, [(1, 0, -100001)])].

(** The expensive edge to the goal is listed before the cheap detour. *)
Definition detour : SearchProblem :=
  graph_problem 0 [3] [(0, [(1, 3, 10); (2, 1, 1)]); (1, [(3, 3, 1)])].

(** An infinite chain 0 -> 1 -> 2 -> ... of unit costs without a goal. *)
Definition endless : SearchProblem :=
  {| startState := 0;
     isGoal := λ _, false;
     succAndCost := λ s, [(1, s + 1, 1)] |}.

(** The infinite chain 0 -> 1 -> 2 -> ..., with the goal state -1 as the
    second successor of the start state. *)
Definition endless_detour : SearchProblem :=
  {| startState := 0;
     isGoal := λ s, s =? -1;
     succAndCost := λ s,
       if s <? 0 then []
       else if s =? 0 then [(1, 1, 1); (2, -1, 1)]
       else [(1, s + 1, 1)] |}.

(** The cheap path to the goal state 2 goes through a negative edge. *)
Definition negative_edge : SearchProblem :=
  graph_problem 0 [2] [(0, [(1, 2, 2); (2, 1, 3)]); (1, [(3, 2, -5)])].

(** The chain 0 -> 1 -> ... -> n of unit costs; state n is the goal when
    [goal] is set, otherwise there is no goal. *)
Definition long_chain (n : nat) (goal : bool) : SearchProblem :=
  {| startState := 0;
     isGoal := λ s, goal && (s =? Z.of_nat n);
     succAndCost := λ s,
       if (0 <=? s) && (s <? Z.of_nat n) then [(1, s + 1, 1)] else [] |}.

(** The [k] edges of the chain that follow state [s]. *)
Fixpoint long_chain_path (s : State) (k : nat) : list Edge :=
  match k with
  | O => []
  | S k' => (1, s + 1, 1) :: long_chain_path (s + 1) k'
  end.

(** The same problem with every successor list in reverse order. *)
Definition reverse_edges (P : SearchProblem) : SearchProblem :=
  {| startState := startState P;
     isGoal := isGoal P;
     succAndCost := λ s, reverse (succAndCost P s) |}.

(** The fields of a [DepthFirstSearch] object on which [solve] has recorded
    the diamond's solution. *)
Definition dfs_solved : DepthFirstSearch.t :=
  DepthFirstSearch.mk (Some 3) (Some [1; 3]) (Some 2) 3 3 [0; 1].

(** ** Predicates used by the invariants *)

Definition closed (P : SearchProblem) (states : list State) : Prop :=
  startState P ∈ states ∧
  ∀ s e, s ∈ states → e ∈ succAndCost P s → edge_dest e ∈ states.

Definition nonneg (P : SearchProblem) (states : list State) : Prop :=
  ∀ s e, s ∈ states → e ∈ succAndCost P s → 0 ≤ edge_cost e.

(** Invariant of a queue instance under any client: heap entries have a
    stored priority, and the states already returned are finalized. *)
Definition client_inv (q : PriorityQueue.t) (returned : list State) : Prop :=
  (∀ e, e ∈ PriorityQueue.heap q → is_Some (PriorityQueue.priorities q !! e.2)) ∧
  (∀ s, s ∈ returned →
        PriorityQueue.priorities q !! s = Some PriorityQueue.DONE).

(** The call does not pass a priority below the sentinel. *)
Definition above_sentinel (o : PriorityQueue.op) : Prop :=
  match o with
  | PriorityQueue.Update _ p => PriorityQueue.DONE ≤ p
  | PriorityQueue.RemoveMin => True
  end.

(** The number of finalized states among [states]. *)
Definition ndone (states : list State) (prios : gmap Z Z) : nat :=
  length (filter (λ x, prios !! x = Some PriorityQueue.DONE) states).

(** [chain P prios bp v es]: walking the backpointers from [v] goes through
    finalized states back to the start state, along the edges [es]. *)
Inductive chain (P : SearchProblem) (prios : gmap Z Z)
    (bp : gmap Z (Action * State)) : State → list Edge → Prop :=
| chain_start : chain P prios bp (startState P) []
| chain_step v a u c es :
    v ≠ startState P →
    bp !! v = Some (a, u) →
    prios !! u = Some PriorityQueue.DONE →
    chain P prios bp u es →
    (a, v, c) ∈ succAndCost P u →
    chain P prios bp v (es ++ [(a, v, c)]).

(** The invariant of the uniform-cost loop, at the point where state [s]
    has been removed with cost [p] and the edges [processed] of [s] have
    been relaxed. *)
Record ucs_inv (P : SearchProblem) (states : list State) (s : State) (p : Z)
    (processed : list Edge) (frontier : PriorityQueue.t)
    (bp : gmap Z (Action * State)) : Prop := {
  inv_sorted :
    StronglySorted PriorityQueue.entry_le (PriorityQueue.heap frontier);
  inv_heap : ∀ q v, (q, v) ∈ PriorityQueue.heap frontier →
    ∃ pr, PriorityQueue.priorities frontier !! v = Some pr ∧
          (pr = PriorityQueue.DONE ∨ pr ≤ q);
  inv_live : ∀ v q, PriorityQueue.priorities frontier !! v = Some q →
    q ≠ PriorityQueue.DONE → (q, v) ∈ PriorityQueue.heap frontier;
  inv_nonneg : ∀ v q, PriorityQueue.priorities frontier !! v = Some q →
    q = PriorityQueue.DONE ∨ 0 ≤ q;
  inv_start :
    PriorityQueue.priorities frontier !! startState P = Some PriorityQueue.DONE;
  inv_done_not_goal : ∀ v,
    PriorityQueue.priorities frontier !! v = Some PriorityQueue.DONE →
    isGoal P v = false;
  inv_relaxed : ∀ es e,
    is_path P (startState P) es →
    PriorityQueue.priorities frontier !! end_state (startState P) es
      = Some PriorityQueue.DONE →
    e ∈ succAndCost P (end_state (startState P) es) →
    (end_state (startState P) es = s → e ∈ processed) →
    PriorityQueue.priorities frontier !! edge_dest e = Some PriorityQueue.DONE ∨
    ∃ q, PriorityQueue.priorities frontier !! edge_dest e = Some q ∧
         q ≤ path_cost es + edge_cost e;
  inv_chain : ∀ v q, PriorityQueue.priorities frontier !! v = Some q →
    q ≠ PriorityQueue.DONE →
    ∃ es, chain P (PriorityQueue.priorities frontier) bp v es ∧
          path_cost es = q ∧
          (length es ≤ ndone states (PriorityQueue.priorities frontier))%nat;
  inv_cur_done :
    PriorityQueue.priorities frontier !! s = Some PriorityQueue.DONE;
  inv_cur_least : ∀ es,
    is_path P (startState P) es → end_state (startState P) es = s →
    p ≤ path_cost es;
  inv_cur_chain :
    ∃ es, chain P (PriorityQueue.priorities frontier) bp s es ∧
          path_cost es = p ∧
          (length es < ndone states (PriorityQueue.priorities frontier))%nat;
  inv_cur_nonneg : 0 ≤ p
}.

(** What [UniformCostSearch.solve] leaves in its fields: either no path
    was found and there is none, or the actions and the total cost of a
    path from the start to a goal that no other such path undercuts. *)
Definition ucs_post (P : SearchProblem) (r : UniformCostSearch.t) : Prop :=
  (UniformCostSearch.actions r = None ∧
   UniformCostSearch.totalCost r = None ∧
   UniformCostSearch.solution r = None ∧
   ∀ es, ¬ solution_path P es) ∨
  (∃ es, solution_path P es ∧
         UniformCostSearch.actions r = Some (path_actions es) ∧
         UniformCostSearch.totalCost r = Some (path_cost es) ∧
         UniformCostSearch.solution r = Some (end_state (startState P) es) ∧
         ∀ es', solution_path P es' → path_cost es ≤ path_cost es').

(** Every path out of [s] has at most [n] edges. *)
Definition height_le (P : SearchProblem) (s : State) (n : nat) : Prop :=
  ∀ es, is_path P s es → (length es ≤ n)%nat.

(** No path out of [s] ends in a goal state. *)
Definition no_goal_from (P : SearchProblem) (s : State) : Prop :=
  ∀ es, is_path P s es → isGoal P (end_state s es) = false.

(** What a call [recurse(s, pastCost, history)] of the depth-first search
    does to the fields when no solution was recorded at its entry: it
    records a path from [s] to a goal, or there is none and the result
    fields stay as they are. *)
Definition dfs_outcome (P : SearchProblem) (s : State) (pastCost : Z)
    (history : list Edge) (self self' : DepthFirstSearch.t) : Prop :=
  (∃ es, is_path P s es ∧ isGoal P (end_state s es) = true ∧
         DepthFirstSearch.solution self' = Some (end_state s es) ∧
         DepthFirstSearch.actions self' = Some (path_actions (history ++ es)) ∧
         DepthFirstSearch.totalCost self' = Some (pastCost + path_cost es)) ∨
  (no_goal_from P s ∧
   DepthFirstSearch.solution self' = None ∧
   DepthFirstSearch.actions self' = DepthFirstSearch.actions self ∧
   DepthFirstSearch.totalCost self' = DepthFirstSearch.totalCost self).

(** [v] is the least cost of a path from [s] to a goal state. *)
Definition opt_cost (P : SearchProblem) (s : State) (v : Z) : Prop :=
  (∃ es, is_path P s es ∧ isGoal P (end_state s es) = true ∧ path_cost es = v) ∧
  (∀ es, is_path P s es → isGoal P (end_state s es) = true → v ≤ path_cost es).

(** Invariant of the memo cache: an entry of [s] holds the least cost from
    [s] and an edge of [s] whose destination is a goal or is cached too. *)
Definition cache_ok (P : SearchProblem) (cache : gmap Z DynamicProgramming.entry)
  : Prop :=
  ∀ s fc a t c, cache !! s = Some (fc, a, t, c) →
    (a, t, c) ∈ succAndCost P s ∧ opt_cost P s fc ∧
    (isGoal P t = true ∨ is_Some (cache !! t)).

(** No state of [states] that is not a goal is a dead end. *)
Definition no_dead_end (P : SearchProblem) (states : list State) : Prop :=
  ∀ s, s ∈ states → isGoal P s = false → succAndCost P s ≠ [].

(** What a call [recurse(s)] of the dynamic program returns and leaves in
    the cache. *)
Definition dp_outcome (P : SearchProblem) (s : State)
    (cache : gmap Z DynamicProgramming.entry)
    (r : result (Z * gmap Z DynamicProgramming.entry)) : Prop :=
  ∃ v cache', r = Ret (v, cache') ∧ opt_cost P s v ∧ cache_ok P cache' ∧
    (∀ k, is_Some (cache !! k) → is_Some (cache' !! k)) ∧
    (isGoal P s = true ∨ is_Some (cache' !! s)).

(** ** Predicates of the further properties *)

(** [for state, priority in ups: q.update(state, priority)] *)
Definition pq_updates (q : PriorityQueue.t) (ups : list (State * Z))
  : PriorityQueue.t :=
  fold_left (λ q sp, (PriorityQueue.update q sp.1 sp.2).2) ups q.

(** Invariant of a queue whose clients pass no priority below the
    sentinel: the heap is in order, every heap entry belongs to a finalized
    state or is not below the stored priority of its state, the stored
    priority of every state that is not finalized is on the heap, and no
    stored priority is below the sentinel. *)
Definition pq_inv (q : PriorityQueue.t) : Prop :=
  StronglySorted PriorityQueue.entry_le (PriorityQueue.heap q) ∧
  (∀ p s, (p, s) ∈ PriorityQueue.heap q →
     ∃ pr, PriorityQueue.priorities q !! s = Some pr ∧
           (pr = PriorityQueue.DONE ∨ pr ≤ p)) ∧
  (∀ s pr, PriorityQueue.priorities q !! s = Some pr →
     pr ≠ PriorityQueue.DONE → (pr, s) ∈ PriorityQueue.heap q) ∧
  (∀ s pr, PriorityQueue.priorities q !! s = Some pr → PriorityQueue.DONE ≤ pr).

(** What the frontier and the backpointers of the uniform-cost loop keep
    on every problem: heap entries have a stored priority, every state with
    a stored priority other than the start state has a backpointer, and
    backpointers lead to states with a stored priority. *)
Definition ucs_keys_inv (start : State) (frontier : PriorityQueue.t)
    (bp : gmap Z (Action * State)) : Prop :=
  (∀ e, e ∈ PriorityQueue.heap frontier →
        is_Some (PriorityQueue.priorities frontier !! e.2)) ∧
  (∀ s, is_Some (PriorityQueue.priorities frontier !! s) →
        s = start ∨ is_Some (bp !! s)) ∧
  (∀ s a u, bp !! s = Some (a, u) →
        is_Some (PriorityQueue.priorities frontier !! u)).

(** What the uniform-cost loop keeps about its count and its log: the
    states [succAndCost] was called on are counted, distinct, finalized,
    among [states] and not goals. *)
Definition ucs_calls_inv (P : SearchProblem) (states : list State)
    (prios : gmap Z Z) (explored : nat) (calls : list State) : Prop :=
  explored = length calls ∧ NoDup calls ∧
  ∀ s, s ∈ calls →
    prios !! s = Some PriorityQueue.DONE ∧ s ∈ states ∧ isGoal P s = false.

Definition ucs_count_post (P : SearchProblem) (states : list State)
    (r : UniformCostSearch.t) : Prop :=
  NoDup (UniformCostSearch.succ_calls r) ∧
  (UniformCostSearch.numStatesExplored r ≤ length states)%nat ∧
  UniformCostSearch.numStatesExplored r
  = (length (UniformCostSearch.succ_calls r)
     + match UniformCostSearch.solution r with Some _ => 1 | None => 0 end)%nat ∧
  (∀ s, s ∈ UniformCostSearch.succ_calls r → s ∈ states ∧ isGoal P s = false) ∧
  (∀ g, UniformCostSearch.solution r = Some g →
        (g ∉ UniformCostSearch.succ_calls r) ∧ isGoal P g = true).

(** [leftmost P s es]: [es] is the path from [s] to a goal that a
    depth-first walk in successor-list order meets first: it stops at the
    first goal state, and at every state it takes the first listed edge
    from whose destination a goal can be reached. *)
Fixpoint leftmost (P : SearchProblem) (s : State) (es : list Edge) : Prop :=
  match es with
  | [] => isGoal P s = true
  | e :: es' =>
      isGoal P s = false ∧
      (∃ l1 l2, succAndCost P s = l1 ++ e :: l2 ∧
                ∀ e', e' ∈ l1 → no_goal_from P (edge_dest e')) ∧
      leftmost P (edge_dest e) es'
  end.

(** What a returning call [recurse(s, pastCost, history)] that was entered
    with no solution recorded leaves in the fields. *)
Definition dfs_left (P : SearchProblem) (s : State) (pastCost : Z)
    (history : list Edge) (self self' : DepthFirstSearch.t) : Prop :=
  (∃ es, leftmost P s es ∧
         DepthFirstSearch.solution self' = Some (end_state s es) ∧
         DepthFirstSearch.actions self' = Some (path_actions (history ++ es)) ∧
         DepthFirstSearch.totalCost self' = Some (pastCost + path_cost es)) ∨
  (no_goal_from P s ∧
   DepthFirstSearch.solution self' = None ∧
   DepthFirstSearch.actions self' = DepthFirstSearch.actions self ∧
   DepthFirstSearch.totalCost self' = DepthFirstSearch.totalCost self).

(** How the counters of the depth-first search move between two points of
    a run: [succAndCost] was called on the states [new], none of them a
    goal; [size] grew by their numbers of successors and
    [numStatesExplored] by their number, plus one if a goal was met. *)
Definition dfs_account (P : SearchProblem) (self self' : DepthFirstSearch.t)
  : Prop :=
  (DepthFirstSearch.solution self ≠ None → self' = self) ∧
  ∃ new,
    DepthFirstSearch.succ_calls self' = DepthFirstSearch.succ_calls self ++ new ∧
    (∀ x, x ∈ new → isGoal P x = false) ∧
    DepthFirstSearch.size self'
    = (DepthFirstSearch.size self
       + sum_list_with (λ x, length (succAndCost P x)) new)%nat ∧
    DepthFirstSearch.numStatesExplored self'
    = (DepthFirstSearch.numStatesExplored self + length new
       + match DepthFirstSearch.solution self, DepthFirstSearch.solution self' with
         | None, Some _ => 1
         | _, _ => 0
         end)%nat.

(** What the memo cache of the dynamic program keeps on every problem:
    the destination of a cached edge is a goal or is cached too. *)
Definition cache_closed (P : SearchProblem)
    (cache : gmap Z DynamicProgramming.entry) : Prop :=
  ∀ s fc a t c, cache !! s = Some (fc, a, t, c) →
    isGoal P t = true ∨ is_Some (cache !! t).

(** A call [recurse(s)] returns with a closed cache that holds [s] unless
    [s] is a goal, or raises [ValueError] or the recursion-depth error. *)
Definition dp_closed_result (P : SearchProblem) (s : State)
    (cache : gmap Z DynamicProgramming.entry)
    (r : result (Z * gmap Z DynamicProgramming.entry)) : Prop :=
  match r with
  | Ret (_, cache') =>
      cache_closed P cache' ∧
      (∀ k, is_Some (cache !! k) → is_Some (cache' !! k)) ∧
      (isGoal P s = true ∨ is_Some (cache' !! s))
  | Raise e => e = ValueError ∨ e = RecursionError
  | OutOfFuel => False
  end.

(** The cached future cost of a state is the cost of the cached edge plus
    the least cost from its destination. *)
Definition cache_arg (P : SearchProblem)
    (cache : gmap Z DynamicProgramming.entry) : Prop :=
  ∀ s fc a t c, cache !! s = Some (fc, a, t, c) →
    ∃ v, fc = c + v ∧ opt_cost P t v.

(** [es] leads from [s] through states that are not goals to a state that
    is not a goal and has no successor. *)
Fixpoint dead_end_path (P : SearchProblem) (s : State) (es : list Edge) : Prop :=
  isGoal P s = false ∧
  match es with
  | [] => succAndCost P s = []
  | e :: es' => e ∈ succAndCost P s ∧ dead_end_path P (edge_dest e) es'
  end.

(** No cached state has a dead end ahead. *)
Definition cache_sound (P : SearchProblem)
    (cache : gmap Z DynamicProgramming.entry) : Prop :=
  ∀ s, is_Some (cache !! s) → ∀ es, ¬ dead_end_path P s es.

(** A call [recurse(s)] returns only if no dead end lies ahead of [s];
    otherwise it raises an exception among [E]. *)
Definition dp_dead_result (E : exn → Prop) (P : SearchProblem) (s : State)
    (r : result (Z * gmap Z DynamicProgramming.entry)) : Prop :=
  match r with
  | Ret (_, cache') => cache_sound P cache' ∧ ∀ es, ¬ dead_end_path P s es
  | Raise e => E e
  | OutOfFuel => False
  end.

(** ** The rhyme test of dict.py *)

Module Dict.
Section rhyme.
Context {V : Type} (eqb : V → V → bool).

(** [word[-3:]]: the last three characters of the word, the whole word when
    it has fewer. *)
Definition last3 (word : string) : string :=
  String.substring (String.length word - 3)%nat 3 word.

(** [v[i]] on a sequence. *)
Definition subscript (v : list V) (i : nat) : result V :=
  match v !! i with
  | Some x => Ret x
  | None => Raise IndexError
  end.

Definition rhyme (d : gmap string (list V)) (word1 word2 : string)
  : result bool :=
  match d !! word1, d !! word2 with
  | Some v1, Some v2 =>
      a1 ← subscript v1 0%nat;
      a2 ← subscript v2 0%nat;
      if eqb a1 a2 then Ret false
      else
        b1 ← subscript v1 1%nat;
        b2 ← subscript v2 1%nat;
        if eqb b1 b2 then Ret true else Ret false
  | _, _ =>
      Ret (bool_decide (last3 word1 = last3 word2)
           && bool_decide (word1 ≠ word2))
  end.

End rhyme.
End Dict.

(** [==] on floats, as far as it matters here: [None] stands for NaN, which
    is equal to nothing, itself included. *)
Definition float_eqb (x y : option Z) : bool :=
  match x, y with
  | Some a, Some b => a =? b
  | _, _ => false
  end.

(** * Proofs *)

(** ** The outcome monad *)

Lemma bind_Ret {A B : Type} (f : A → result B) (a : A) : (Ret a ≫= f) = f a.
Proof. reflexivity. Qed.

Lemma bind_Ret_inv {A B : Type} (f : A → result B) (m : result A) (b : B) :
  (m ≫= f) = Ret b → ∃ a, m = Ret a ∧ f a = Ret b.
Proof. destruct m as [a| |]; simpl; intros H; try discriminate. eauto. Qed.

(** ** PriorityQueue *)

Section priority_queue.
Import PriorityQueue.

Lemma elem_of_heappush h x y : y ∈ heappush h x ↔ y = x ∨ y ∈ h.
Proof.
  induction h as [|z h IH]; simpl.
  - rewrite list_elem_of_singleton. set_solver.
  - destruct (entry_leb x z); rewrite !elem_of_cons; [naive_solver|].
    rewrite IH. naive_solver.
Qed.

Lemma update_true q s p :
  (update q s p).1 = true →
  (update q s p).2 = mk (heappush (heap q) (p, s)) (<[s := p]> (priorities q)).
Proof. unfold update. by destruct (match _ with None => _ | _ => _ end). Qed.

Lemma update_false q s p : (update q s p).1 = false → (update q s p).2 = q.
Proof. unfold update. by destruct (match _ with None => _ | _ => _ end). Qed.

Lemma update_true_iff q s p :
  (update q s p).1 = true ↔
  priorities q !! s = None ∨ ∃ o, priorities q !! s = Some o ∧ p < o.
Proof.
  unfold update. destruct (priorities q !! s) as [o|] eqn:E; simpl.
  - destruct (Z.ltb_spec p o); simpl; split; try done.
    + intros _. right. eauto.
    + intros [?|(o' & Ho' & ?)]; [done|]. injection Ho' as <-. lia.
  - split; auto.
Qed.

(** What [removeMin] does on a heap all of whose states have a stored
    priority: it drops a prefix of entries of finalized states, and either
    the heap is exhausted or the next entry is returned and finalized. *)
Lemma removeMin_loop_spec h prios :
  (∀ e, e ∈ h → is_Some (prios !! e.2)) →
  ∃ stale rest,
    h = stale ++ rest ∧
    (∀ e, e ∈ stale → prios !! e.2 = Some DONE) ∧
    ((rest = [] ∧ removeMin_loop h prios = Ret (None, mk [] prios)) ∨
     (∃ p s rest' pr,
         rest = (p, s) :: rest' ∧ prios !! s = Some pr ∧ pr ≠ DONE ∧
         removeMin_loop h prios =
           Ret (Some (s, p), mk rest' (<[s := DONE]> prios)))).
Proof.
  induction h as [|[p s] h IH]; intros Hdom.
  - exists [], []. split_and!; [done | set_solver | by left].
  - destruct (Hdom (p, s)) as [pr Hpr]; [set_solver|]. simpl in Hpr.
    simpl. rewrite Hpr. destruct (Z.eqb_spec pr DONE) as [->|Hne].
    + destruct IH as (stale & rest & -> & Hstale & Hrest); [set_solver|].
      exists ((p, s) :: stale), rest. split_and!; [done | | done].
      intros e [->|?]%elem_of_cons; [done | auto].
    + exists [], ((p, s) :: h). split_and!; [done | set_solver |].
      right. by exists p, s, h, pr.
Qed.

Lemma client_inv_update q returned s p :
  DONE ≤ p → client_inv q returned → client_inv (update q s p).2 returned.
Proof.
  intros Hp [Hheap Hret].
  destruct ((update q s p).1) eqn:Hb.
  - rewrite update_true by done. split; simpl.
    + intros e [->|He]%elem_of_heappush; simpl.
      * rewrite lookup_insert_eq. eauto.
      * destruct (decide (s = e.2)) as [->|];
          [rewrite lookup_insert_eq|rewrite lookup_insert_ne]; eauto.
    + intros s' Hs'. specialize (Hret _ Hs').
      destruct (decide (s = s')) as [->|]; [|by rewrite lookup_insert_ne].
      apply update_true_iff in Hb as [Hb|(o & Ho & Hlt)]; congruence || idtac.
      rewrite Hret in Ho. injection Ho as <-. lia.
  - by rewrite update_false.
Qed.

Lemma run_no_repeat ops : ∀ q returned,
  Forall above_sentinel ops → client_inv q returned → NoDup returned →
  ∃ returned' q',
    run ops q returned = Ret (returned', q') ∧ NoDup returned' ∧
    client_inv q' returned'.
Proof.
  induction ops as [|o ops IH]; intros q returned Hops Hinv Hnd.
  - simpl. eauto.
  - apply Forall_cons in Hops as [Ho Hops]. destruct o as [s p|]; simpl.
    + apply IH; [done | by apply client_inv_update | done].
    + destruct Hinv as [Hheap Hret]. unfold removeMin.
      destruct (removeMin_loop_spec _ _ Hheap)
        as (stale & rest & Hh & Hstale & [[-> ->]|(p & s & rest' & pr & -> & Hpr & Hne & ->)]).
      * simpl. apply IH; [done | | done]. split; [set_solver | done].
      * simpl. apply IH; [done | | ].
        -- split; simpl.
           ++ intros e He.
              destruct (decide (s = e.2)) as [->|];
                [rewrite lookup_insert_eq|rewrite lookup_insert_ne]; eauto.
              apply Hheap. rewrite Hh. set_solver.
           ++ intros s' [Hs'| ->%list_elem_of_singleton]%elem_of_app.
              ** destruct (decide (s = s')) as [->|];
                   [by rewrite lookup_insert_eq|rewrite lookup_insert_ne]; auto.
              ** by rewrite lookup_insert_eq.
        -- apply NoDup_app. split_and!; [done | | apply NoDup_singleton].
           intros s' Hs' ->%list_elem_of_singleton.
           apply Hret in Hs'. congruence.
Qed.

End priority_queue.

(** ** Paths *)

Lemma end_state_app s es1 es2 :
  end_state s (es1 ++ es2) = end_state (end_state s es1) es2.
Proof. revert s. induction es1 as [|e es1 IH]; intros s; simpl; auto. Qed.

Lemma is_path_app P s es1 es2 :
  is_path P s (es1 ++ es2) ↔ is_path P s es1 ∧ is_path P (end_state s es1) es2.
Proof.
  revert s. induction es1 as [|e es1 IH]; intros s; simpl.
  - naive_solver.
  - rewrite IH. naive_solver.
Qed.

Lemma path_cost_app es1 es2 :
  path_cost (es1 ++ es2) = path_cost es1 + path_cost es2.
Proof.
  unfold path_cost. induction es1 as [|e es1 IH]; simpl; [done|].
  rewrite IH. lia.
Qed.

Lemma is_pathb_spec P s es : is_pathb P s es = true ↔ is_path P s es.
Proof.
  revert s. induction es as [|e es IH]; intros s; simpl; [done|].
  rewrite andb_true_iff, IH, bool_decide_eq_true. done.
Qed.

Lemma forallb_edges (P : SearchProblem) (f : State → Edge → bool) states :
  forallb (λ s, forallb (f s) (succAndCost P s)) states = true ↔
  ∀ s e, s ∈ states → e ∈ succAndCost P s → f s e = true.
Proof.
  rewrite forallb_forall. split.
  - intros H s e Hs He. apply list_elem_of_In in Hs, He.
    specialize (H s Hs). rewrite forallb_forall in H. auto.
  - intros H s Hs. apply forallb_forall. intros e He.
    apply H; by apply list_elem_of_In.
Qed.

Lemma closedb_spec P states : closedb P states = true ↔ closed P states.
Proof.
  unfold closedb, closed.
  rewrite andb_true_iff, bool_decide_eq_true, forallb_edges.
  setoid_rewrite bool_decide_eq_true. done.
Qed.

Lemma nonnegb_spec P states : nonnegb P states = true ↔ nonneg P states.
Proof.
  unfold nonnegb, nonneg. rewrite forallb_edges.
  setoid_rewrite Z.leb_le. done.
Qed.

Lemma closed_end_state P states s es :
  closed P states → s ∈ states → is_path P s es → end_state s es ∈ states.
Proof.
  intros [_ Hc]. revert s. induction es as [|e es IH]; intros s Hs Hp; simpl; [done|].
  destruct Hp as [He Hp]. eauto.
Qed.

Lemma closed_reachable P states s :
  closed P states → reachable P s → s ∈ states.
Proof.
  intros Hc (es & Hp & <-). eapply closed_end_state; eauto. apply Hc.
Qed.

Lemma path_cost_nonneg P states s es :
  closed P states → nonneg P states → s ∈ states → is_path P s es →
  0 ≤ path_cost es.
Proof.
  intros Hc Hn. revert s. induction es as [|e es IH]; intros s Hs Hp.
  - done.
  - destruct Hp as [He Hp]. change (0 ≤ edge_cost e + path_cost es).
    pose proof (Hn s e Hs He). destruct Hc as [? Hc].
    pose proof (IH (edge_dest e) (Hc s e Hs He) Hp). lia.
Qed.

Lemma reachable_step P s e :
  reachable P s → e ∈ succAndCost P s → reachable P (edge_dest e).
Proof.
  intros (es & Hp & <-) He. exists (es ++ [e]). split.
  - apply is_path_app. simpl. auto.
  - by rewrite end_state_app.
Qed.

Lemma reachable_path P s es :
  reachable P s → is_path P s es → reachable P (end_state s es).
Proof.
  intros (es0 & Hp & <-) He. exists (es0 ++ es). split.
  - apply is_path_app. auto.
  - by rewrite end_state_app.
Qed.

(** ** The heap order *)

Section heap_order.
Import PriorityQueue.

Lemma entry_leb_true x y : entry_leb x y = true → entry_le x y.
Proof.
  unfold entry_leb, entry_le.
  rewrite orb_true_iff, andb_true_iff, Z.ltb_lt, Z.eqb_eq, Z.leb_le. done.
Qed.

Lemma entry_leb_false x y : entry_leb x y = false → entry_le y x.
Proof.
  unfold entry_leb, entry_le.
  rewrite orb_false_iff, andb_false_iff, Z.ltb_ge, Z.eqb_neq, Z.leb_gt. lia.
Qed.

Lemma entry_le_trans x y z : entry_le x y → entry_le y z → entry_le x z.
Proof. unfold entry_le. lia. Qed.

Lemma heappush_sorted h x :
  StronglySorted entry_le h → StronglySorted entry_le (heappush h x).
Proof.
  induction h as [|y h IH]; simpl; intros Hs.
  - by repeat constructor.
  - apply StronglySorted_cons in Hs as [Hy Hs].
    destruct (entry_leb x y) eqn:E.
    + apply entry_leb_true in E. apply StronglySorted_cons. split.
      * apply Forall_cons. split; [done|].
        eapply Forall_impl; [exact Hy|]. intros z Hz.
        by eapply entry_le_trans.
      * by apply StronglySorted_cons.
    + apply entry_leb_false in E. apply StronglySorted_cons. split; [|auto].
      apply Forall_forall. intros z [->|Hz]%elem_of_heappush; [done|].
      rewrite Forall_forall in Hy. auto.
Qed.

End heap_order.

(** ** Backpointer chains *)

Lemma chain_path P prios bp v es :
  chain P prios bp v es →
  is_path P (startState P) es ∧ end_state (startState P) es = v.
Proof.
  induction 1 as [|v a u c es Hv Hbp Hu Hch [IH1 IH2] He]; [done|].
  rewrite is_path_app, end_state_app, IH2. simpl. done.
Qed.

(** A chain only reads the backpointer of its last state and those of
    finalized states. *)
Lemma chain_ext P prios bp prios' bp' v es :
  (∀ x, prios !! x = Some PriorityQueue.DONE →
        prios' !! x = Some PriorityQueue.DONE ∧ bp' !! x = bp !! x) →
  chain P prios bp v es → bp' !! v = bp !! v → chain P prios' bp' v es.
Proof.
  intros Hext. induction 1 as [|v a u c es Hv Hbp Hu Hch IH He]; intros Hv'.
  - constructor.
  - destruct (Hext u Hu) as [Hu' Hbpu].
    apply chain_step with u; auto. congruence.
Qed.

Lemma walk_back_chain P prios bp v es :
  chain P prios bp v es →
  ∀ fuel acts, (length es < fuel)%nat →
    UniformCostSearch.walk_back fuel bp (startState P) v acts
    = Ret (acts ++ reverse (path_actions es)).
Proof.
  induction 1 as [|v a u c es Hv Hbp Hu Hch IH He]; intros fuel acts Hfuel.
  - destruct fuel as [|fuel]; [simpl in Hfuel; lia|]. simpl.
    rewrite bool_decide_eq_true_2 by done. by rewrite app_nil_r.
  - rewrite length_app in Hfuel. simpl in Hfuel.
    destruct fuel as [|fuel]; [lia|]. simpl.
    rewrite bool_decide_eq_false_2 by done. rewrite Hbp.
    rewrite IH by lia. unfold path_actions.
    rewrite fmap_app, reverse_app. simpl. by rewrite <- app_assoc.
Qed.

Lemma walk_back_mono fuel fuel' bp start v acts r :
  UniformCostSearch.walk_back fuel bp start v acts = Ret r →
  (fuel ≤ fuel')%nat →
  UniformCostSearch.walk_back fuel' bp start v acts = Ret r.
Proof.
  revert fuel' v acts. induction fuel as [|fuel IH]; intros fuel' v acts H Hle;
    [done|].
  destruct fuel' as [|fuel']; [lia|]. simpl in *.
  destruct (bool_decide (v = start)); [done|].
  destruct (bp !! v) as [[a u]|]; [|done]. apply IH; [done|lia].
Qed.

(** ** Counting finalized states *)

Lemma ndone_le states prios : (ndone states prios ≤ length states)%nat.
Proof. apply length_filter. Qed.

Lemma ndone_mono states prios prios' :
  (∀ x, prios !! x = Some PriorityQueue.DONE →
        prios' !! x = Some PriorityQueue.DONE) →
  (ndone states prios ≤ ndone states prios')%nat.
Proof.
  intros H. unfold ndone. induction states as [|x l IH]; [done|].
  rewrite !filter_cons. repeat case_decide; simpl; try lia. naive_solver.
Qed.

Lemma ndone_finalize states prios s :
  s ∈ states → prios !! s ≠ Some PriorityQueue.DONE →
  (ndone states prios < ndone states (<[s := PriorityQueue.DONE]> prios))%nat.
Proof.
  intros Hs Hn. unfold ndone. induction states as [|x l IH]; [set_solver|].
  assert (Hmono : (ndone l prios ≤ ndone l (<[s := PriorityQueue.DONE]> prios))%nat).
  { apply ndone_mono. intros y Hy.
    destruct (decide (s = y)) as [->|]; [done|by rewrite lookup_insert_ne]. }
  unfold ndone in Hmono. rewrite !filter_cons.
  destruct (decide (x = s)) as [->|Hne].
  - rewrite lookup_insert_eq. repeat case_decide; simpl; try done; lia.
  - apply elem_of_cons in Hs as [->|Hs]; [done|]. specialize (IH Hs).
    rewrite lookup_insert_ne by done. repeat case_decide; simpl; lia.
Qed.

Lemma ndone_same states prios prios' :
  (∀ x, prios !! x = Some PriorityQueue.DONE ↔
        prios' !! x = Some PriorityQueue.DONE) →
  ndone states prios = ndone states prios'.
Proof.
  intros H. apply Nat.le_antisymm; apply ndone_mono; intros x; apply H.
Qed.

(** ** Uniform-cost search: the loop invariant *)

Section ucs_invariant.
Import PriorityQueue.
Context (P : SearchProblem) (states : list State).
Hypothesis Hclosed : closed P states.
Hypothesis Hnonneg : nonneg P states.

Lemma chain_in_states prios bp v es : chain P prios bp v es → v ∈ states.
Proof.
  intros [Hp <-]%chain_path. eapply closed_end_state; eauto. apply Hclosed.
Qed.

Lemma DONE_negative : DONE < 0.
Proof. reflexivity. Qed.

(** Relaxing one more edge of the removed state keeps the invariant. *)
Lemma relax_inv s p processed frontier bp e :
  ucs_inv P states s p processed frontier bp →
  e ∈ succAndCost P s →
  ucs_inv P states s p (processed ++ [e])
          (UniformCostSearch.relax s p (frontier, bp) e).1
          (UniformCostSearch.relax s p (frontier, bp) e).2 ∧
  ndone states (priorities (UniformCostSearch.relax s p (frontier, bp) e).1)
  = ndone states (priorities frontier).
Proof.
  intros I He. destruct e as [[a v] c].
  pose proof DONE_negative as Hneg.
  pose proof (inv_cur_nonneg _ _ _ _ _ _ _ I) as Hp0.
  destruct (inv_cur_chain _ _ _ _ _ _ _ I) as (ess & Hchs & Hcosts & Hlens).
  pose proof (chain_in_states _ _ _ _ Hchs) as Hs.
  pose proof (Hnonneg s _ Hs He) as Hc0. unfold edge_cost in Hc0; simpl in Hc0.
  unfold UniformCostSearch.relax. simpl.
  pose proof (update_true_iff frontier v (p + c)) as Hiff.
  pose proof (update_true frontier v (p + c)) as Htrue.
  pose proof (update_false frontier v (p + c)) as Hfalse.
  destruct (update frontier v (p + c)) as [b f'] eqn:Hupd. simpl in *.
  destruct b; simpl.
  - (* the priority of [v] is lowered to [p + c] *)
    rewrite Htrue by done. clear Htrue Hfalse.
    assert (Hvnd : priorities frontier !! v ≠ Some DONE).
    { destruct Hiff as [[Hn|(o & Ho & Hlt)] _]; [done|congruence|].
      rewrite Ho. intros [= ->]. lia. }
    assert (Hsame : ∀ x, priorities frontier !! x = Some DONE ↔
                         <[v := p + c]> (priorities frontier) !! x = Some DONE).
    { intros x. destruct (decide (v = x)) as [->|Hne].
      - rewrite lookup_insert_eq. split; [done|]. intros [= ?]. lia.
      - by rewrite lookup_insert_ne. }
    assert (Hext : ∀ x, priorities frontier !! x = Some DONE →
               <[v := p + c]> (priorities frontier) !! x = Some DONE ∧
               <[v := (a, s)]> bp !! x = bp !! x).
    { intros x Hx. split; [by apply Hsame|].
      rewrite lookup_insert_ne; [done|]. intros ->. done. }
    assert (Hvs : v ≠ s).
    { intros ->. apply Hvnd. apply I. }
    assert (Hvstart : v ≠ startState P).
    { intros ->. apply Hvnd. apply I. }
    assert (Hnd : ndone states (<[v := p + c]> (priorities frontier))
                  = ndone states (priorities frontier)).
    { symmetry. by apply ndone_same. }
    split; [constructor; simpl|exact Hnd].
    + apply heappush_sorted, I.
    + intros q w [[= -> ->]|Hin]%elem_of_heappush.
      * exists (p + c). rewrite lookup_insert_eq. split; [done|right; lia].
      * destruct (inv_heap _ _ _ _ _ _ _ I _ _ Hin) as (pr & Hpr & Hle).
        destruct (decide (v = w)) as [->|Hne].
        -- exists (p + c). rewrite lookup_insert_eq. split; [done|]. right.
           destruct Hle as [->|Hle]; [done|].
           destruct Hiff as [[Hn|(o & Ho & Hlt)] _]; [done|congruence|].
           assert (o = pr) by congruence. lia.
        -- exists pr. by rewrite lookup_insert_ne.
    + intros w q Hw Hq. apply elem_of_heappush.
      destruct (decide (v = w)) as [->|Hne].
      * rewrite lookup_insert_eq in Hw. injection Hw as <-. by left.
      * rewrite lookup_insert_ne in Hw by done. right.
        by apply (inv_live _ _ _ _ _ _ _ I).
    + intros w q Hw. destruct (decide (v = w)) as [->|Hne].
      * rewrite lookup_insert_eq in Hw. injection Hw as <-. right; lia.
      * rewrite lookup_insert_ne in Hw by done.
        by apply (inv_nonneg _ _ _ _ _ _ _ I w).
    + apply Hsame, I.
    + intros w Hw. apply Hsame in Hw. by apply (inv_done_not_goal _ _ _ _ _ _ _ I).
    + intros es e Hpath Hu He' Hproc. apply Hsame in Hu.
      assert (Hcases : (end_state (startState P) es = s → e ∈ processed) ∨
                       (end_state (startState P) es = s ∧ e = (a, v, c))).
      { destruct (decide (end_state (startState P) es = s)) as [Heq|Hne].
        - pose proof (Hproc Heq) as Hin.
          apply elem_of_app in Hin as [?| ->%list_elem_of_singleton];
            [left|right]; done.
        - left. done. }
      destruct Hcases as [Hold|[Heq ->]].
      * destruct (inv_relaxed _ _ _ _ _ _ _ I es e Hpath Hu He' Hold)
          as [Hd|(q & Hq & Hle)].
        -- left. by apply Hsame.
        -- destruct (decide (v = edge_dest e)) as [Hv|Hne].
           ++ right. exists (p + c). rewrite <- Hv, lookup_insert_eq.
              split; [done|].
              destruct Hiff as [[Hn|(o & Ho & Hlt)] _]; [done|congruence|].
              rewrite <- Hv in Hq. assert (o = q) by congruence. lia.
           ++ right. exists q. by rewrite lookup_insert_ne.
      * right. exists (p + c). unfold edge_dest, edge_cost. simpl.
        rewrite lookup_insert_eq. split; [done|].
        pose proof (inv_cur_least _ _ _ _ _ _ _ I es Hpath Heq). lia.
    + intros w q Hw Hq. destruct (decide (v = w)) as [->|Hne].
      * rewrite lookup_insert_eq in Hw. injection Hw as <-.
        exists (ess ++ [(a, w, c)]). split_and!.
        -- apply chain_step with s; auto.
           ++ by rewrite lookup_insert_eq.
           ++ apply Hsame, I.
           ++ eapply chain_ext; [exact Hext|exact Hchs|].
              by rewrite lookup_insert_ne.
        -- rewrite path_cost_app, Hcosts. unfold path_cost, edge_cost. simpl. lia.
        -- rewrite length_app, Hnd. simpl. lia.
      * rewrite lookup_insert_ne in Hw by done.
        destruct (inv_chain _ _ _ _ _ _ _ I w q Hw Hq) as (es & Hch & Hcost & Hlen).
        exists es. split_and!; [|done|by rewrite Hnd].
        eapply chain_ext; [exact Hext|exact Hch|]. by rewrite lookup_insert_ne.
    + apply Hsame, I.
    + apply I.
    + exists ess. split_and!; [|done|by rewrite Hnd].
      eapply chain_ext; [exact Hext|exact Hchs|]. by rewrite lookup_insert_ne.
    + done.
  - (* the stored priority of [v] is at most [p + c]: nothing changes *)
    rewrite Hfalse by done. clear Htrue Hfalse.
    assert (Hv : ∃ o, priorities frontier !! v = Some o ∧ o ≤ p + c).
    { destruct (priorities frontier !! v) as [o|] eqn:Ho.
      - exists o. split; [done|]. destruct (Z.le_gt_cases o (p + c)); [done|].
        assert (false = true); [|done]. apply Hiff. right. exists o. split; [done|lia].
      - assert (false = true); [|done]. apply Hiff. by left. }
    destruct Hv as (o & Ho & Hle).
    split; [|done]. constructor; try apply I.
    intros es e Hpath Hu He' Hproc.
    destruct (decide (end_state (startState P) es = s)) as [Heq|Hne].
    + pose proof (Hproc Heq) as Hin.
      apply elem_of_app in Hin as [?| ->%list_elem_of_singleton].
      * by apply (inv_relaxed _ _ _ _ _ _ _ I).
      * right. exists o. unfold edge_dest, edge_cost. simpl. split; [done|].
        pose proof (inv_cur_least _ _ _ _ _ _ _ I es Hpath Heq). lia.
    + by apply (inv_relaxed _ _ _ _ _ _ _ I).
Qed.

Lemma fold_relax_inv s p todo : ∀ processed frontier bp,
  ucs_inv P states s p processed frontier bp →
  (∀ e, e ∈ todo → e ∈ succAndCost P s) →
  ucs_inv P states s p (processed ++ todo)
    (fold_left (UniformCostSearch.relax s p) todo (frontier, bp)).1
    (fold_left (UniformCostSearch.relax s p) todo (frontier, bp)).2 ∧
  ndone states
    (priorities (fold_left (UniformCostSearch.relax s p) todo (frontier, bp)).1)
  = ndone states (priorities frontier).
Proof.
  induction todo as [|e todo IH]; intros processed frontier bp I Hin; simpl.
  - by rewrite app_nil_r.
  - destruct (relax_inv _ _ _ _ _ e I) as [I' Hnd]; [set_solver|].
    destruct (UniformCostSearch.relax s p (frontier, bp) e) as [f1 bp1].
    rewrite (assoc_L _ processed [e] todo : processed ++ e :: todo = _).
    simpl in *. rewrite <- Hnd. apply IH; [apply I'|]; set_solver.
Qed.

(** At the head of the loop, every path from the start that ends outside
    the finalized states costs at least as much as some frontier
    priority. *)
Lemma frontier_bound s p frontier bp es :
  ucs_inv P states s p (succAndCost P s) frontier bp →
  is_path P (startState P) es →
  priorities frontier !! end_state (startState P) es ≠ Some DONE →
  ∃ w q, priorities frontier !! w = Some q ∧ q ≠ DONE ∧ q ≤ path_cost es.
Proof.
  intros I. induction es as [|e es IH] using rev_ind; intros Hpath Hnd.
  - simpl in Hnd. destruct Hnd. apply I.
  - apply is_path_app in Hpath as (Hpath & He & _).
    rewrite end_state_app in Hnd. simpl in Hnd.
    rewrite path_cost_app. replace (path_cost [e]) with (edge_cost e)
      by (unfold path_cost; simpl; lia).
    destruct (decide (priorities frontier !! end_state (startState P) es
                      = Some DONE)) as [Hd|Hd].
    + destruct (inv_relaxed _ _ _ _ _ _ _ I es e Hpath Hd He)
        as [?|(q & Hq & Hle)]; [by intros <-|done|].
      exists (edge_dest e), q. split_and!; [done| |done]. congruence.
    + destruct (IH Hpath Hd) as (w & q & Hw & Hq & Hle).
      exists w, q. split_and!; [done..|].
      assert (0 ≤ edge_cost e); [|lia].
      eapply Hnonneg; [|exact He].
      eapply closed_end_state; eauto. apply Hclosed.
Qed.

Lemma sorted_head_le x l y :
  StronglySorted entry_le (x :: l) → y ∈ x :: l → x.1 ≤ y.1.
Proof.
  intros [Hx _]%StronglySorted_cons [->|Hy]%elem_of_cons; [done|].
  rewrite Forall_forall in Hx. specialize (Hx _ Hy). unfold entry_le in Hx. lia.
Qed.

(** [removeMin] at the head of the loop. *)
Lemma remove_inv s0 p0 frontier bp :
  ucs_inv P states s0 p0 (succAndCost P s0) frontier bp →
  (removeMin frontier = Ret (None, mk [] (priorities frontier)) ∧
   ∀ es, ¬ solution_path P es) ∨
  (∃ s p rest,
      removeMin frontier
        = Ret (Some (s, p), mk rest (<[s := DONE]> (priorities frontier))) ∧
      priorities frontier !! s = Some p ∧ p ≠ DONE ∧
      (∀ w q, priorities frontier !! w = Some q → q ≠ DONE → p ≤ q) ∧
      (isGoal P s = false →
       ucs_inv P states s p [] (mk rest (<[s := DONE]> (priorities frontier))) bp)).
Proof.
  intros I. unfold removeMin.
  destruct (removeMin_loop_spec (heap frontier) (priorities frontier))
    as (stale & rest & Hh & Hstale &
        [[-> ->]|(p & s & rest' & pr & -> & Hpr & Hne & ->)]).
  { intros [q v] Hin. destruct (inv_heap _ _ _ _ _ _ _ I _ _ Hin) as (pr & Hpr & _).
    simpl. eauto. }
  - left. split; [done|]. intros es [Hpath Hgoal].
    destruct (frontier_bound _ _ _ _ es I Hpath) as (w & q & Hw & Hq & _).
    { intros Hd. apply (inv_done_not_goal _ _ _ _ _ _ _ I) in Hd. congruence. }
    pose proof (inv_live _ _ _ _ _ _ _ I _ _ Hw Hq) as Hin.
    rewrite Hh, app_nil_r in Hin. apply Hstale in Hin. simpl in Hin. congruence.
  - right.
    assert (Hsorted : StronglySorted entry_le ((p, s) :: rest')).
    { pose proof (inv_sorted _ _ _ _ _ _ _ I) as Hs. rewrite Hh in Hs.
      by apply StronglySorted_app_1_r in Hs. }
    assert (Hmin : ∀ w q, priorities frontier !! w = Some q → q ≠ DONE →
                          (q, w) ∈ (p, s) :: rest' ∧ p ≤ q).
    { intros w q Hw Hq. pose proof (inv_live _ _ _ _ _ _ _ I _ _ Hw Hq) as Hin.
      rewrite Hh in Hin. apply elem_of_app in Hin as [Hin|Hin].
      - apply Hstale in Hin. simpl in Hin. congruence.
      - split; [done|]. apply (sorted_head_le _ _ _ Hsorted Hin). }
    assert (pr = p) as ->.
    { destruct (Hmin _ _ Hpr Hne) as [_ Hle].
      destruct (inv_heap _ _ _ _ _ _ _ I p s) as (pr' & Hpr' & Hle').
      { rewrite Hh. set_solver. }
      assert (pr' = pr) as -> by congruence.
      destruct Hle' as [?|?]; [done|lia]. }
    exists s, p, rest'. split_and!; [done|done|done| |].
    { intros w q Hw Hq. by destruct (Hmin _ _ Hw Hq). }
    intros Hgoal.
    assert (Hsstart : s ≠ startState P).
    { intros ->. rewrite (inv_start _ _ _ _ _ _ _ I) in Hpr. congruence. }
    assert (Hmono : ∀ x, priorities frontier !! x = Some DONE →
               <[s := DONE]> (priorities frontier) !! x = Some DONE ∧
               bp !! x = bp !! x).
    { intros x Hx. split; [|done].
      destruct (decide (s = x)) as [->|]; [by rewrite lookup_insert_eq|].
      by rewrite lookup_insert_ne. }
    destruct (inv_chain _ _ _ _ _ _ _ I s p Hpr Hne) as (ess & Hchs & Hcosts & Hlens).
    pose proof (chain_in_states _ _ _ _ Hchs) as Hs.
    assert (Hnd : (ndone states (priorities frontier)
                   < ndone states (<[s := DONE]> (priorities frontier)))%nat).
    { apply ndone_finalize; [done|]. congruence. }
    constructor; simpl.
    + by apply StronglySorted_cons in Hsorted as [_ ?].
    + intros q v Hin. destruct (decide (s = v)) as [->|Hsv].
      * exists DONE. rewrite lookup_insert_eq. auto.
      * rewrite lookup_insert_ne by done.
        apply (inv_heap _ _ _ _ _ _ _ I). rewrite Hh. set_solver.
    + intros v q Hv Hq. destruct (decide (s = v)) as [->|Hsv].
      * rewrite lookup_insert_eq in Hv. congruence.
      * rewrite lookup_insert_ne in Hv by done.
        destruct (Hmin _ _ Hv Hq) as [[Heq|Hin]%elem_of_cons _]; [|done].
        congruence.
    + intros v q Hv. destruct (decide (s = v)) as [->|Hsv].
      * rewrite lookup_insert_eq in Hv. left. congruence.
      * rewrite lookup_insert_ne in Hv by done.
        by apply (inv_nonneg _ _ _ _ _ _ _ I v).
    + apply Hmono, I.
    + intros v Hv. destruct (decide (s = v)) as [->|Hsv]; [done|].
      rewrite lookup_insert_ne in Hv by done.
      by apply (inv_done_not_goal _ _ _ _ _ _ _ I).
    + intros es e Hpath Hu He Hproc.
      destruct (decide (end_state (startState P) es = s)) as [Heq|Hneq].
      { specialize (Hproc Heq). set_solver. }
      rewrite lookup_insert_ne in Hu by done.
      destruct (inv_relaxed _ _ _ _ _ _ _ I es e Hpath Hu He)
        as [Hd|(q & Hq & Hle)]; [by intros <-| |].
      * left. by apply Hmono.
      * destruct (decide (s = edge_dest e)) as [Hse|Hse].
        -- left. by rewrite <- Hse, lookup_insert_eq.
        -- right. exists q. by rewrite lookup_insert_ne.
    + intros v q Hv Hq. destruct (decide (s = v)) as [->|Hsv].
      * rewrite lookup_insert_eq in Hv. congruence.
      * rewrite lookup_insert_ne in Hv by done.
        destruct (inv_chain _ _ _ _ _ _ _ I v q Hv Hq) as (es & Hch & Hcost & Hlen).
        exists es. split_and!; [|done|lia].
        eapply chain_ext; [exact Hmono|exact Hch|done].
    + by rewrite lookup_insert_eq.
    + intros es Hpath Hend.
      destruct (frontier_bound _ _ _ _ es I Hpath) as (w & q & Hw & Hq & Hle).
      { rewrite Hend. congruence. }
      destruct (Hmin _ _ Hw Hq) as [_ ?]. lia.
    + exists ess. split_and!; [|done|lia].
      eapply chain_ext; [exact Hmono|exact Hchs|done].
    + destruct (inv_nonneg _ _ _ _ _ _ _ I _ _ Hpr); [done|lia].
Qed.

(** The loop from any of its heads. *)
Lemma loop_correct wfuel :
  (length states < wfuel)%nat →
  ∀ fuel s0 p0 frontier bp explored calls,
    ucs_inv P states s0 p0 (succAndCost P s0) frontier bp →
    (length states - ndone states (priorities frontier) < fuel)%nat →
    ∃ r, UniformCostSearch.loop wfuel fuel P frontier bp explored calls = Ret r ∧
         ucs_post P r.
Proof.
  intros Hw. induction fuel as [|fuel IH];
    intros s0 p0 frontier bp explored calls I Hfuel; [lia|].
  simpl.
  destruct (remove_inv _ _ _ _ I)
    as [[-> Hnone]|(s & p & rest & -> & Hp & Hne & Hmin & Hnext)]; simpl.
  - eexists. split; [done|]. by left.
  - destruct (inv_chain _ _ _ _ _ _ _ I s p Hp Hne) as (ess & Hchs & Hcosts & Hlens).
    destruct (isGoal P s) eqn:Hgoal.
    + rewrite (walk_back_chain _ _ _ _ _ Hchs).
      2:{ pose proof (ndone_le states (priorities frontier)). lia. }
      simpl. eexists. split; [done|]. right.
      destruct (chain_path _ _ _ _ _ Hchs) as [Hpath Hend].
      exists ess. split_and!; simpl.
      * split; [done|]. by rewrite Hend.
      * by rewrite reverse_involutive.
      * by rewrite Hcosts.
      * by rewrite Hend.
      * intros es' [Hpath' Hgoal'].
        destruct (frontier_bound _ _ _ _ es' I Hpath') as (w & q & Hw' & Hq & Hle).
        { intros Hd. apply (inv_done_not_goal _ _ _ _ _ _ _ I) in Hd. congruence. }
        pose proof (Hmin _ _ Hw' Hq). lia.
    + specialize (Hnext eq_refl).
      destruct (fold_relax_inv s p (succAndCost P s) [] _ _ Hnext) as [I' Hnd];
        [done|].
      simpl in Hnd.
      destruct (fold_left _ _ _) as [f2 bp2]. simpl in *.
      eapply IH; [exact I'|].
      pose proof (ndone_le states (priorities f2)).
      assert ((ndone states (priorities frontier)
               < ndone states (<[s := DONE]> (priorities frontier)))%nat).
      { apply ndone_finalize; [|congruence]. by eapply chain_in_states. }
      lia.
Qed.

(** The state after the start state has been removed. *)
Lemma init_inv :
  isGoal P (startState P) = false →
  ucs_inv P states (startState P) 0 []
    (mk [] (<[startState P := DONE]> (<[startState P := 0]> ∅))) ∅.
Proof.
  intros Hgoal. rewrite insert_insert_eq.
  assert (Hlk : ∀ v q, <[startState P := DONE]> (∅ : gmap Z Z) !! v = Some q →
                       v = startState P ∧ q = DONE).
  { intros v q. destruct (decide (startState P = v)) as [<-|].
    - rewrite lookup_insert_eq. by intros [= <-].
    - by rewrite lookup_insert_ne, lookup_empty. }
  assert (Hnd : (0 < ndone states (<[startState P := DONE]> ∅))%nat).
  { pose proof (ndone_finalize states ∅ (startState P)) as H.
    rewrite lookup_empty in H. specialize (H (proj1 Hclosed)).
    assert (None ≠ Some DONE) as Hn by done. specialize (H Hn). lia. }
  constructor; simpl.
  - constructor.
  - set_solver.
  - intros v q [-> ->]%Hlk. done.
  - intros v q [-> ->]%Hlk. by left.
  - by rewrite lookup_insert_eq.
  - intros v [-> _]%Hlk. done.
  - intros es e Hpath [Hend _]%Hlk He Hproc. specialize (Hproc Hend). set_solver.
  - intros v q [-> ->]%Hlk. done.
  - by rewrite lookup_insert_eq.
  - intros es Hpath _. eapply path_cost_nonneg; eauto. apply Hclosed.
  - exists []. split_and!; [constructor|done|done].
  - done.
Qed.

(** [solve] terminates within [length states + 1] turns of its loop, and
    its fields then satisfy [ucs_post]. *)
Lemma solve_correct fuel :
  (length states < fuel)%nat →
  ∃ r, UniformCostSearch.solve fuel P = Ret r ∧ ucs_post P r.
Proof.
  intros Hfuel. unfold UniformCostSearch.solve.
  destruct fuel as [|fuel]; [lia|].
  unfold update, init. simpl. rewrite lookup_empty. simpl.
  unfold removeMin. simpl. rewrite lookup_insert_eq. simpl.
  destruct (isGoal P (startState P)) eqn:Hgoal.
  - rewrite bool_decide_eq_true_2 by done. simpl.
    eexists. split; [done|]. right. exists []. split_and!; try done.
    intros es [Hpath _]. eapply path_cost_nonneg; eauto. apply Hclosed.
  - pose proof (init_inv Hgoal) as I0.
    destruct (fold_relax_inv _ _ (succAndCost P (startState P)) [] _ _ I0)
      as [I' Hnd]; [done|].
    simpl in Hnd.
    destruct (fold_left _ _ _) as [f2 bp2]. simpl in *.
    eapply loop_correct; [lia|exact I'|].
    assert ((ndone states (<[startState P := 0%Z]> ∅)
             < ndone states (<[startState P := DONE]> (<[startState P := 0%Z]> ∅)))%nat).
    { apply ndone_finalize; [apply Hclosed|]. by rewrite lookup_insert_eq. }
    pose proof (ndone_le states (priorities f2)). lia.
Qed.

End ucs_invariant.

(** ** Uniform-cost search: independence of the fuel *)

Lemma ucs_loop_mono wfuel wfuel' fuel : ∀ fuel' P frontier bp explored calls r,
  UniformCostSearch.loop wfuel fuel P frontier bp explored calls = Ret r →
  (wfuel ≤ wfuel')%nat → (fuel ≤ fuel')%nat →
  UniformCostSearch.loop wfuel' fuel' P frontier bp explored calls = Ret r.
Proof.
  induction fuel as [|fuel IH];
    intros fuel' P frontier bp explored calls r H Hw Hle; [done|].
  destruct fuel' as [|fuel']; [lia|]. simpl in *.
  destruct (PriorityQueue.removeMin frontier) as [[[[s p]|] f1]| |];
    simpl in *; try done.
  destruct (isGoal P s).
  - destruct (UniformCostSearch.walk_back wfuel bp (startState P) s [])
      as [acts| |] eqn:E; simpl in H; try done.
    by rewrite (walk_back_mono _ _ _ _ _ _ _ E Hw).
  - destruct (fold_left _ _ _) as [f2 bp2]. apply IH; [done|done|lia].
Qed.

Lemma ucs_solve_mono fuel fuel' P r :
  UniformCostSearch.solve fuel P = Ret r → (fuel ≤ fuel')%nat →
  UniformCostSearch.solve fuel' P = Ret r.
Proof. intros H Hle. unfold UniformCostSearch.solve in *. by eapply ucs_loop_mono. Qed.

Lemma ucs_solve_deterministic fuel fuel' P r r' :
  UniformCostSearch.solve fuel P = Ret r →
  UniformCostSearch.solve fuel' P = Ret r' → r = r'.
Proof.
  intros H H'. destruct (Nat.le_ge_cases fuel fuel') as [Hle|Hle].
  - apply (ucs_solve_mono _ _ _ _ H) in Hle. congruence.
  - apply (ucs_solve_mono _ _ _ _ H') in Hle. congruence.
Qed.

(** The fields [solve] leaves do not depend on the fuel, once there is
    enough of it. *)
Lemma ucs_solve_total P states :
  closedb P states = true → nonnegb P states = true →
  ∃ r, (∀ fuel, (length states < fuel)%nat →
                UniformCostSearch.solve fuel P = Ret r) ∧
       ucs_post P r.
Proof.
  intros Hc%closedb_spec Hn%nonnegb_spec.
  destruct (solve_correct P states Hc Hn (S (length states))) as (r & Hr & Hpost);
    [lia|].
  exists r. split; [|done]. intros fuel Hfuel.
  eapply ucs_solve_mono; [exact Hr|lia].
Qed.

(** ** Problems that differ in the order of their successor lists *)

Lemma same_order_is_path P Q s es :
  same_up_to_edge_order P Q → is_path P s es → is_path Q s es.
Proof.
  intros (_ & _ & Hperm). revert s.
  induction es as [|e es IH]; intros s; simpl; [done|].
  intros [He Hp]. split; [|auto]. by rewrite <- (Hperm s).
Qed.

Lemma same_order_sym P Q : same_up_to_edge_order P Q → same_up_to_edge_order Q P.
Proof. intros (? & ? & ?). split_and!; done. Qed.

Lemma same_order_solution_path P Q es :
  same_up_to_edge_order P Q → solution_path P es → solution_path Q es.
Proof.
  intros H [Hp Hg]. pose proof H as (Hs & Hgoal & _). split.
  - rewrite <- Hs. by eapply same_order_is_path.
  - by rewrite <- Hs, <- Hgoal.
Qed.

Lemma same_order_closed P Q states :
  same_up_to_edge_order P Q → closed P states → closed Q states.
Proof.
  intros (Hs & _ & Hperm) [H1 H2]. split; [by rewrite <- Hs|].
  intros s e Hin He. apply (H2 s); [done|]. by rewrite (Hperm s).
Qed.

Lemma same_order_nonneg P Q states :
  same_up_to_edge_order P Q → nonneg P states → nonneg Q states.
Proof.
  intros (_ & _ & Hperm) H s e Hin He. apply (H s); [done|]. by rewrite (Hperm s).
Qed.

Lemma ucs_post_same_cost P Q r r' :
  same_up_to_edge_order P Q → ucs_post P r → ucs_post Q r' →
  UniformCostSearch.totalCost r = UniformCostSearch.totalCost r'.
Proof.
  intros H [(_ & Hc & _ & Hno)|(es & Hes & _ & Hc & _ & Hmin)]
           [(_ & Hc' & _ & Hno')|(es' & Hes' & _ & Hc' & _ & Hmin')].
  - congruence.
  - destruct (Hno es'). eapply same_order_solution_path; [|done].
    by apply same_order_sym.
  - destruct (Hno' es). by eapply same_order_solution_path.
  - rewrite Hc, Hc'. f_equal. apply Z.le_antisymm.
    + apply Hmin. eapply same_order_solution_path; [|done]. by apply same_order_sym.
    + apply Hmin'. by eapply same_order_solution_path.
Qed.

(** ** Acyclic finite graphs have bounded paths *)

Lemma elem_of_dests_prefix (s x : State) (es : list Edge) :
  x ∈ edge_dest <$> es →
  ∃ es1 es2, es = es1 ++ es2 ∧ es1 ≠ [] ∧ end_state s es1 = x.
Proof.
  intros (e & -> & (l1 & l2 & ->)%list_elem_of_split)%list_elem_of_fmap.
  exists (l1 ++ [e]), l2. split_and!.
  - by rewrite <- app_assoc.
  - by destruct l1.
  - by rewrite end_state_app.
Qed.

Lemma acyclic_NoDup P s es :
  acyclic P → reachable P s → is_path P s es →
  NoDup (s :: (edge_dest <$> es)).
Proof.
  intros Hacyc. revert s. induction es as [|e es IH]; intros s Hs Hpath.
  - apply NoDup_singleton.
  - destruct Hpath as [He Hpath]. apply NoDup_cons. split.
    + intros Hin.
      destruct (elem_of_dests_prefix s s (e :: es) Hin) as (es1 & es2 & Heq & Hne & Hend).
      apply (Hacyc s es1 Hs Hne); [|done].
      assert (is_path P s (es1 ++ es2)) as Hp by (rewrite <- Heq; by split).
      by apply is_path_app in Hp as [? _].
    + apply (IH (edge_dest e)); [by eapply reachable_step|done].
Qed.

Lemma acyclic_height P states s :
  closed P states → acyclic P → reachable P s → height_le P s (length states).
Proof.
  intros Hc Hacyc Hs es Hpath.
  pose proof (acyclic_NoDup P s es Hacyc Hs Hpath) as Hnd.
  assert (Hsub : s :: (edge_dest <$> es) ⊆+ states).
  { apply NoDup_submseteq; [done|].
    intros x [->|Hx]%elem_of_cons; [by eapply closed_reachable|].
    destruct (elem_of_dests_prefix s x es Hx) as (es1 & es2 & -> & _ & <-).
    apply is_path_app in Hpath as [Hp1 _].
    eapply closed_end_state; eauto. by eapply closed_reachable. }
  apply submseteq_length in Hsub. simpl in Hsub. rewrite length_fmap in Hsub. lia.
Qed.

Lemma ranked_decreases P states rank s es :
  closed P states → rankedb P states rank = true →
  s ∈ states → is_path P s es → es ≠ [] →
  (rank (end_state s es) < rank s)%nat.
Proof.
  intros Hc Hr. unfold rankedb in Hr. rewrite forallb_edges in Hr.
  revert s. induction es as [|e es IH]; intros s Hs Hpath Hne; [done|].
  destruct Hpath as [He Hpath]. simpl.
  pose proof (Hr s e Hs He) as Hlt. apply bool_decide_eq_true in Hlt.
  destruct es as [|e' es]; [done|].
  assert (edge_dest e ∈ states) by (by apply (proj2 Hc s)).
  specialize (IH (edge_dest e)). etrans; [apply IH|]; done.
Qed.

(** A rank that decreases along every edge certifies acyclicity. *)
Lemma ranked_acyclic P states rank :
  closedb P states = true → rankedb P states rank = true → acyclic P.
Proof.
  intros Hc%closedb_spec Hr s es Hs Hne Hpath Hend.
  pose proof (ranked_decreases P states rank s es Hc Hr) as Hlt.
  rewrite Hend in Hlt. apply (Nat.lt_irrefl (rank s)). apply Hlt; try done.
  by eapply closed_reachable.
Qed.

Lemma height_le_step P s n e :
  height_le P s n → e ∈ succAndCost P s →
  ∃ n', n = S n' ∧ height_le P (edge_dest e) n'.
Proof.
  intros H He. destruct n as [|n'].
  - specialize (H [e]). simpl in H. assert (1 ≤ 0)%nat; [|lia]. by apply H.
  - exists n'. split; [done|]. intros es Hes.
    specialize (H (e :: es)). simpl in H. assert (S (length es) ≤ S n')%nat; [|lia].
    by apply H.
Qed.

Lemma height_le_mono P s n m : height_le P s n → (n ≤ m)%nat → height_le P s m.
Proof. intros H Hle es Hes. specialize (H es Hes). lia. Qed.

Lemma no_goal_from_step P s e :
  no_goal_from P s → e ∈ succAndCost P s → no_goal_from P (edge_dest e).
Proof. intros H He es Hes. apply (H (e :: es)). by split. Qed.

(** ** Depth-first search *)

Section dfs.
Import DepthFirstSearch.
Context (P : SearchProblem).

Lemma pop_snoc h e : pop (h ++ [e]) = Ret h.
Proof.
  unfold pop. destruct (h ++ [e]) as [|x l] eqn:E.
  - by destruct h.
  - by rewrite <- E, removelast_last.
Qed.

(** A call entered after a solution was recorded returns at once. *)
Lemma recurse_recorded limit s pc h st g :
  solution st = Some g → recurse (S limit) P s pc (h, st) = Ret (h, st).
Proof. intros H. simpl. by rewrite H. Qed.

Lemma for_body_run rec pc a t c h st st1 :
  rec t (pc + c) (h ++ [(a, t, c)], st) = Ret (h ++ [(a, t, c)], st1) →
  for_body rec pc (a, t, c) (h, st) = Ret (h, st1).
Proof. intros H. unfold for_body. simpl. rewrite H. simpl. by rewrite pop_snoc. Qed.

(** The [for] loop over the successors [l], given what the recursive
    calls do. *)
Lemma for_each_outcome rec pc l : ∀ h st,
  (∀ e, e ∈ l → ∀ pc' h' st', ∃ st'',
      rec (edge_dest e) pc' (h', st') = Ret (h', st'') ∧
      (solution st' ≠ None → st'' = st') ∧
      (solution st' = None → dfs_outcome P (edge_dest e) pc' h' st' st'')) →
  ∃ st', for_each (for_body rec pc) l (h, st) = Ret (h, st') ∧
    (solution st ≠ None → st' = st) ∧
    (solution st = None →
     (∃ e es, e ∈ l ∧ is_path P (edge_dest e) es ∧
         isGoal P (end_state (edge_dest e) es) = true ∧
         solution st' = Some (end_state (edge_dest e) es) ∧
         actions st' = Some (path_actions (h ++ e :: es)) ∧
         totalCost st' = Some (pc + edge_cost e + path_cost es)) ∨
     ((∀ e, e ∈ l → no_goal_from P (edge_dest e)) ∧
      solution st' = None ∧ actions st' = actions st ∧
      totalCost st' = totalCost st)).
Proof.
  induction l as [|e l IH]; intros h st Hrec.
  - exists st. split_and!; [done|done|]. intros Hs. right.
    split_and!; try done. by intros e ?%elem_of_nil.
  - destruct (Hrec e (list_elem_of_here _ _) (pc + edge_cost e) (h ++ [e]) st)
      as (st1 & Hrun & Hkeep & Hout).
    destruct (IH h st1) as (st' & Hloop & Hkeep' & Hout').
    { intros e' He'. apply Hrec. by right. }
    exists st'. split_and!.
    + destruct e as [[a t] c]. cbn [for_each].
      rewrite (for_body_run _ _ _ _ _ _ _ _ Hrun). exact Hloop.
    + intros Hs. rewrite <- (Hkeep Hs). apply Hkeep'. by rewrite (Hkeep Hs).
    + intros Hs. destruct (Hout Hs) as [(es & Hp & Hg & Hsol & Hact & Hcost)|
                                       (Hno & Hsol & Hact & Hcost)].
      * left. exists e, es. rewrite Hkeep' by congruence.
        split_and!; try done; [by left|].
        rewrite Hact. by rewrite <- app_assoc.
      * destruct (Hout' Hsol) as [(e' & es & He' & Hp & Hg & Hsol' & Hact' & Hcost')|
                                  (Hno' & Hsol' & Hact' & Hcost')].
        -- left. exists e', es. split_and!; try done. by right.
        -- right. split_and!; [|done|congruence|congruence].
           intros e' [->|He']%elem_of_cons; auto.
Qed.

(** One call, given what the calls on the successors do. *)
Lemma recurse_step limit s pc h st :
  (∀ e, e ∈ succAndCost P s → ∀ pc' h' st', ∃ st'',
      recurse limit P (edge_dest e) pc' (h', st') = Ret (h', st'') ∧
      (solution st' ≠ None → st'' = st') ∧
      (solution st' = None → dfs_outcome P (edge_dest e) pc' h' st' st'')) →
  ∃ st', recurse (S limit) P s pc (h, st) = Ret (h, st') ∧
    (solution st ≠ None → st' = st) ∧
    (solution st = None → dfs_outcome P s pc h st st').
Proof.
  intros Hrec. destruct (solution st) as [g|] eqn:Hsol.
  { exists st. split_and!; [by eapply recurse_recorded|done|done]. }
  cbn [recurse]. rewrite Hsol. destruct (isGoal P s) eqn:Hg.
  - eexists. split_and!; [done|done|]. intros _. left. exists [].
    simpl. rewrite app_nil_r. split_and!; try done.
    f_equal. unfold path_cost. simpl. lia.
  - match goal with
    | |- context [for_each _ _ (h, ?st2)] =>
        destruct (for_each_outcome (recurse limit P) pc (succAndCost P s) h st2 Hrec)
          as (st' & Hrun & _ & Hout)
    end.
    exists st'. split_and!; [done|done|]. intros _.
    destruct (Hout eq_refl) as [(e & es & He & Hp & Hgoal & Hsol' & Hact & Hcost)|
                                (Hno & Hsol' & Hact & Hcost)].
    + left. exists (e :: es). simpl. split_and!; try done.
      rewrite Hcost. f_equal. unfold path_cost, edge_cost. simpl. lia.
    + right. split_and!; try done.
      intros [|e es]; simpl; [done|]. intros [He Hes]. by apply (Hno e).
Qed.

(** A call on a state out of which every path has at most [n] edges. *)
Lemma recurse_outcome n : ∀ s pc h st,
  height_le P s n →
  ∃ st', recurse (S n) P s pc (h, st) = Ret (h, st') ∧
    (solution st ≠ None → st' = st) ∧
    (solution st = None → dfs_outcome P s pc h st st').
Proof.
  induction n as [|n IH]; intros s pc h st Hh; apply recurse_step;
    intros e He pc' h' st1;
    destruct (height_le_step _ _ _ _ Hh He) as (n' & Hn & Hh'); [done|].
  injection Hn as <-. by apply IH.
Qed.

(** [solve] on a finite acyclic problem. *)
Lemma dfs_solve_outcome states limit :
  closed P states → acyclic P → (length states < limit)%nat →
  ∃ r, solve limit P = Ret r ∧
    ((∃ es, solution_path P es ∧
            solution r = Some (end_state (startState P) es) ∧
            actions r = Some (path_actions es) ∧
            totalCost r = Some (path_cost es)) ∨
     ((∀ es, ¬ solution_path P es) ∧
      solution r = None ∧ actions r = None ∧ totalCost r = None)).
Proof.
  intros Hc Hacyc Hfuel. destruct limit as [|n]; [lia|].
  assert (Hh : height_le P (startState P) n).
  { eapply height_le_mono; [eapply (acyclic_height P states); eauto|lia].
    exists []. done. }
  destruct (recurse_outcome n (startState P) 0 [] (mk None None None 0 0 []) Hh)
    as (r & Hrun & _ & Hout).
  exists r. unfold solve. rewrite Hrun. split; [done|].
  destruct (Hout eq_refl) as [(es & Hp & Hgoal & Hsol' & Hact & Hcost)|
                              (Hno & Hsol' & Hact & Hcost)].
  - left. exists es. split_and!; try done; rewrite Hcost; f_equal; lia.
  - right. split_and!; try done. intros es [Hp Hg]. specialize (Hno es Hp).
    congruence.
Qed.

End dfs.

(** ** Dynamic programming *)

Lemma opt_cost_unique P s v v' : opt_cost P s v → opt_cost P s v' → v = v'.
Proof.
  intros [(es & Hp & Hg & Hc) Hmin] [(es' & Hp' & Hg' & Hc') Hmin'].
  apply Z.le_antisymm.
  - rewrite <- Hc'. by apply Hmin.
  - rewrite <- Hc. by apply Hmin'.
Qed.

Lemma no_dead_endb_spec P states :
  no_dead_endb P states = true ↔ no_dead_end P states.
Proof.
  unfold no_dead_endb, no_dead_end. rewrite forallb_forall. split.
  - intros H s Hs Hg Hnil. apply list_elem_of_In, H in Hs.
    rewrite Hg in Hs. simpl in Hs. apply negb_true_iff, bool_decide_eq_false in Hs.
    done.
  - intros H s Hs%list_elem_of_In. destruct (isGoal P s) eqn:Hg; [done|].
    simpl. apply negb_true_iff, bool_decide_eq_false. by apply H.
Qed.

Section dp.
Import DynamicProgramming.
Context (P : SearchProblem) (states : list State).
Hypothesis Hclosed : closed P states.
Hypothesis Hnonneg : nonneg P states.
Hypothesis Hlive : no_dead_end P states.

Lemma entry_ltb_true (x m : entry) : entry_ltb x m = true → x.1.1.1 ≤ m.1.1.1.
Proof.
  destruct x as [[[a1 b1] c1] d1], m as [[[a2 b2] c2] d2]. simpl.
  rewrite orb_true_iff, andb_true_iff, Z.ltb_lt, Z.eqb_eq. lia.
Qed.

Lemma entry_ltb_false (x m : entry) : entry_ltb x m = false → m.1.1.1 ≤ x.1.1.1.
Proof.
  destruct x as [[[a1 b1] c1] d1], m as [[[a2 b2] c2] d2]. simpl.
  rewrite orb_false_iff, Z.ltb_ge. lia.
Qed.

(** [min] returns an element of the sequence with the least first
    component. *)
Lemma min_from_spec l : ∀ m,
  min_from m l ∈ m :: l ∧ ∀ x, x ∈ m :: l → (min_from m l).1.1.1 ≤ x.1.1.1.
Proof.
  induction l as [|y l IH]; intros m; simpl.
  - split; [by left|]. intros x ->%list_elem_of_singleton. lia.
  - destruct (IH (if entry_ltb y m then y else m)) as [Hin Hle]. split.
    + apply elem_of_cons in Hin as [Hin|Hin]; [|by do 2 right].
      rewrite Hin. destruct (entry_ltb y m); [right; by left|by left].
    + intros x Hx.
      assert (Hm : (min_from (if entry_ltb y m then y else m) l).1.1.1
                   ≤ (if entry_ltb y m then y else m).1.1.1)
        by (apply Hle; by left).
      apply elem_of_cons in Hx as [->|[->|Hx]%elem_of_cons];
        [| |apply Hle; by right];
        (destruct (entry_ltb y m) eqn:E;
         [apply entry_ltb_true in E|apply entry_ltb_false in E]; lia).
Qed.

Lemma gen_body_run rec a t c tuples cache v cache1 :
  rec t cache = Ret (v, cache1) →
  gen_body rec (a, t, c) (tuples, cache)
  = Ret (tuples ++ [(c + v, a, t, c)], cache1).
Proof. intros H. unfold gen_body. simpl. by rewrite H. Qed.

(** The generator over the successors [l], given what the recursive
    calls do. *)
Lemma gen_outcome rec l : ∀ tuples cache,
  (∀ e, e ∈ l → ∀ cache, cache_ok P cache →
               dp_outcome P (edge_dest e) cache (rec (edge_dest e) cache)) →
  cache_ok P cache →
  ∃ tuples' cache',
    for_each (gen_body rec) l (tuples, cache) = Ret (tuples ++ tuples', cache') ∧
    cache_ok P cache' ∧
    (∀ k, is_Some (cache !! k) → is_Some (cache' !! k)) ∧
    Forall2 (λ (e : Edge) (tup : entry),
               ∃ v, tup = (edge_cost e + v, edge_action e, edge_dest e, edge_cost e) ∧
                    opt_cost P (edge_dest e) v ∧
                    (isGoal P (edge_dest e) = true ∨
                     is_Some (cache' !! edge_dest e)))
            l tuples'.
Proof.
  induction l as [|e l IH]; intros tuples cache Hrec Hok.
  - exists [], cache. rewrite app_nil_r. split_and!; done.
  - destruct (Hrec e (list_elem_of_here _ _) cache Hok)
      as (v & cache1 & Hrun & Hopt & Hok1 & Hdom1 & Hin1).
    destruct (IH (tuples ++ [(edge_cost e + v, edge_action e, edge_dest e, edge_cost e)])
                 cache1) as (tuples' & cache' & Hloop & Hok' & Hdom' & Hall);
      [intros e' He'; apply Hrec; by right|done|].
    exists ((edge_cost e + v, edge_action e, edge_dest e, edge_cost e) :: tuples'), cache'.
    split_and!.
    + cbn [for_each]. destruct e as [[a t] c].
      unfold edge_dest, edge_cost, edge_action in *. cbn [fst snd] in *.
      rewrite (gen_body_run _ _ _ _ _ _ _ _ Hrun).
      rewrite <- app_assoc in Hloop. exact Hloop.
    + done.
    + auto.
    + constructor; [|done]. exists v. split_and!; [done|done|].
      destruct Hin1; auto.
Qed.

Lemma cache_ok_empty : cache_ok P ∅.
Proof. intros s fc a t c H. by rewrite lookup_empty in H. Qed.

(** One call, given what the calls on the successors do. *)
Lemma dp_recurse_step limit s cache :
  (∀ e, e ∈ succAndCost P s → ∀ cache, cache_ok P cache →
     dp_outcome P (edge_dest e) cache (recurse limit P (edge_dest e) cache)) →
  s ∈ states → cache_ok P cache →
  dp_outcome P s cache (recurse (S limit) P s cache).
Proof.
  intros Hrec Hs Hok. cbn [recurse].
  destruct (isGoal P s) eqn:Hg.
  { exists 0, cache. rewrite Hg. split_and!; try done; [|by left].
    split.
    - exists []. done.
    - intros es Hp _. eapply path_cost_nonneg; eauto. }
  destruct (cache !! s) as [[[[fc a] t] c]|] eqn:Hc.
  { cbn [mbind result_mbind result_bind]. rewrite Hc. exists fc, cache.
    split_and!; try done; [|by right].
    by destruct (Hok _ _ _ _ _ Hc) as (_ & ? & _). }
  destruct (gen_outcome (recurse limit P) (succAndCost P s) [] cache Hrec Hok)
    as (tuples & cache' & Hloop & Hok' & Hdom & Hall).
  rewrite Hloop. cbn [mbind result_mbind result_bind app].
  destruct tuples as [|x tuples].
  { apply Forall2_nil_inv_r in Hall. by destruct (Hlive s Hs Hg). }
  cbn [py_min mbind result_mbind result_bind]. rewrite lookup_insert_eq.
  destruct (min_from_spec tuples x) as [Hin Hle].
  set (m := min_from x tuples) in *.
  destruct (proj1 (list_elem_of_lookup _ _) Hin) as [i Hi].
  destruct (Forall2_lookup_r _ _ _ _ _ Hall Hi) as (e & He & v & Hm & Hopt & Hcl).
  apply list_elem_of_lookup_2 in He.
  assert (Hopt_s : opt_cost P s m.1.1.1).
  { rewrite Hm. simpl. destruct Hopt as [(es & Hp & Hgoal & Hcost) Hmin]. split.
    - exists (e :: es). simpl. split_and!; try done.
      unfold path_cost in *. simpl. lia.
    - intros [|e' es'] Hp' Hg'; simpl in *; [congruence|].
      destruct Hp' as [He' Hp'].
      destruct (proj1 (list_elem_of_lookup _ _) He') as [j Hj].
      destruct (Forall2_lookup_l _ _ _ _ _ Hall Hj)
        as (tup & Htup & v' & -> & [_ Hmin'] & _).
      apply list_elem_of_lookup_2, Hle in Htup. rewrite Hm in Htup. simpl in Htup.
      specialize (Hmin' es' Hp' Hg').
      change (path_cost (e' :: es')) with (edge_cost e' + path_cost es'). lia. }
  exists m.1.1.1, (<[s := m]> cache'). split_and!; [done|done| | |].
  - intros k fc a t c Hk. destruct (decide (s = k)) as [<-|Hne].
    + rewrite lookup_insert_eq in Hk. injection Hk as Hk.
      rewrite Hk in Hopt_s. simpl in Hopt_s.
      rewrite Hm in Hk. injection Hk as <- <- <- <-.
      split_and!; [by destruct e as [[??]?]|done|].
      destruct Hcl as [?|Hcl]; [by left|right].
      destruct (decide (s = edge_dest e)) as [<-|];
        [by rewrite lookup_insert_eq|by rewrite lookup_insert_ne].
    + rewrite lookup_insert_ne in Hk by done.
      destruct (Hok' _ _ _ _ _ Hk) as (? & ? & Hcl').
      split_and!; [done|done|].
      destruct Hcl' as [?|Hcl']; [by left|right].
      destruct (decide (s = t)) as [<-|];
        [by rewrite lookup_insert_eq|by rewrite lookup_insert_ne].
  - intros k Hk. destruct (decide (s = k)) as [<-|];
      [by rewrite lookup_insert_eq|rewrite lookup_insert_ne by done; auto].
  - right. by rewrite lookup_insert_eq.
Qed.

(** A call on a state out of which every path has at most [n] edges. *)
Lemma dp_recurse_outcome n : ∀ s cache,
  height_le P s n → s ∈ states → cache_ok P cache →
  dp_outcome P s cache (recurse (S n) P s cache).
Proof.
  induction n as [|n IH]; intros s cache Hh Hs Hok;
    (apply dp_recurse_step; [|done|done]);
    intros e He cache1 Hok1;
    destruct (height_le_step _ _ _ _ Hh He) as (n' & Hn & Hh'); [done|].
  injection Hn as <-. apply IH; [done| |done]. by apply (proj2 Hclosed s).
Qed.

(** The reconstruction loop. *)
Lemma follow_outcome n : ∀ s history cache,
  height_le P s n → cache_ok P cache →
  isGoal P s = true ∨ is_Some (cache !! s) →
  ∃ history', follow (S n) P cache s history = Ret history'.
Proof.
  induction n as [|n IH]; intros s history cache Hh Hok Hs; cbn [follow];
    (destruct (isGoal P s) eqn:Hg; [by eauto|]);
    (destruct Hs as [?|[[[[fc a] t] c] Hc]]; [done|]);
    rewrite Hc; destruct (Hok _ _ _ _ _ Hc) as (He & _ & Hcl);
    destruct (height_le_step _ _ _ _ Hh He) as (n' & Hn & Hh'); [done|].
  injection Hn as <-. by apply IH.
Qed.

End dp.

(** [dynamicProgramming] on a finite acyclic problem without dead ends and
    with non-negative costs returns the least cost of a solution path. *)
Lemma dp_total P states limit fuel :
  closed P states → nonneg P states → no_dead_end P states → acyclic P →
  (length states < limit)%nat → (length states < fuel)%nat →
  ∃ c history,
    DynamicProgramming.dynamicProgramming limit fuel P = Ret (c, history) ∧
    opt_cost P (startState P) c.
Proof.
  intros Hc Hn Hl Hacyc Hlimit Hfuel.
  destruct limit as [|n]; [lia|]. destruct fuel as [|m]; [lia|].
  assert (Hh : ∀ k, (length states ≤ k)%nat → height_le P (startState P) k).
  { intros k Hk. eapply height_le_mono; [eapply (acyclic_height P states); eauto|lia].
    exists []. done. }
  destruct (dp_recurse_outcome P states Hc Hn Hl n (startState P) ∅ (Hh n ltac:(lia)))
    as (v & cache' & Hrun & Hopt & Hok & _ & Hin);
    [apply Hc|apply cache_ok_empty|].
  destruct (follow_outcome P m (startState P) [] cache' (Hh m ltac:(lia)) Hok Hin)
    as [history Hf].
  exists v, history. split; [|done].
  unfold DynamicProgramming.dynamicProgramming. rewrite Hrun.
  cbn [mbind result_mbind result_bind]. by rewrite Hf.
Qed.

Lemma dp_recurse_S limit P s cache :
  DynamicProgramming.recurse (S limit) P s cache =
  if isGoal P s then Ret (0, cache)
  else
    cache ←
      match cache !! s with
      | Some _ => Ret cache
      | None =>
          '(tuples, cache) ←
            for_each (DynamicProgramming.gen_body (DynamicProgramming.recurse limit P))
                     (succAndCost P s) ([], cache);
          m ← DynamicProgramming.py_min tuples;
          Ret (<[s := m]> cache)
      end;
    match cache !! s with
    | None => Raise KeyError
    | Some e => Ret (e.1.1.1, cache)
    end.
Proof. reflexivity. Qed.

(** Where no goal can be reached, the recursion runs into a state without
    successors and [min] raises. *)
Lemma dp_recurse_no_goal P n : ∀ s,
  height_le P s n → no_goal_from P s →
  DynamicProgramming.recurse (S n) P s ∅ = Raise ValueError.
Proof.
  induction n as [|n IH]; intros s Hh Hno;
    rewrite dp_recurse_S;
    rewrite (Hno [] I : isGoal P s = false), lookup_empty;
    (destruct (succAndCost P s) as [|[[a t] c] l] eqn:Hsucc; [done|]);
    (assert (He : (a, t, c) ∈ succAndCost P s) by (rewrite Hsucc; by left));
    destruct (height_le_step _ _ _ _ Hh He) as (n' & Hn & Hh'); [done|].
  injection Hn as <-. cbn [for_each].
  assert (DynamicProgramming.gen_body (DynamicProgramming.recurse (S n) P)
            (a, t, c) ([], ∅) = Raise ValueError) as ->; [|done].
  unfold DynamicProgramming.gen_body. cbn [fst snd].
  rewrite IH; [done|done|]. by apply (no_goal_from_step P s (a, t, c)).
Qed.

Lemma dp_no_goal P states limit fuel :
  closed P states → acyclic P → (∀ es, ¬ solution_path P es) →
  (length states < limit)%nat →
  DynamicProgramming.dynamicProgramming limit fuel P = Raise ValueError.
Proof.
  intros Hc Hacyc Hno Hlimit. destruct limit as [|n]; [lia|].
  unfold DynamicProgramming.dynamicProgramming. rewrite dp_recurse_no_goal; [done| |].
  - eapply height_le_mono; [eapply (acyclic_height P states); eauto|lia].
    exists []. done.
  - intros es Hp. destruct (isGoal P (end_state (startState P) es)) eqn:Hg; [|done].
    by destruct (Hno es).
Qed.

(** ** Runs that overflow the call stack or do not terminate *)

Lemma dfs_recurse_S limit P s pc h st :
  DepthFirstSearch.recurse (S limit) P s pc (h, st) =
  match DepthFirstSearch.solution st with
  | Some _ => Ret (h, st)
  | None =>
      if isGoal P s then
        Ret (h, DepthFirstSearch.mk (Some s) (Some (edge_action <$> h)) (Some pc)
                  (S (DepthFirstSearch.numStatesExplored st))
                  (DepthFirstSearch.size st) (DepthFirstSearch.succ_calls st))
      else
        for_each
          (DepthFirstSearch.for_body (DepthFirstSearch.recurse limit P) pc)
          (succAndCost P s)
          (h, DepthFirstSearch.mk
                (DepthFirstSearch.solution st) (DepthFirstSearch.actions st)
                (DepthFirstSearch.totalCost st)
                (S (DepthFirstSearch.numStatesExplored st))
                (DepthFirstSearch.size st + length (succAndCost P s))%nat
                (DepthFirstSearch.succ_calls st ++ [s]))
  end.
Proof. reflexivity. Qed.

(** [D k s]: the walk along first successors from [s] meets no goal within
    [k] calls.  The depth-first search then uses up a call stack of [k]
    calls. *)
Lemma dfs_overflows P (D : nat → State → Prop) :
  (∀ k s, D (S k) s → isGoal P s = false ∧
                ∃ e l, succAndCost P s = e :: l ∧ D k (edge_dest e)) →
  ∀ limit s pc h st, D limit s → DepthFirstSearch.solution st = None →
    DepthFirstSearch.recurse limit P s pc (h, st) = Raise RecursionError.
Proof.
  intros HD. induction limit as [|limit IH]; intros s pc h st Hs Hsol; [done|].
  destruct (HD limit s Hs) as (Hg & [[a t] c] & l & Hsucc & Ht).
  rewrite dfs_recurse_S, Hsol, Hg, Hsucc. cbn [for_each].
  match goal with
  | |- context [DepthFirstSearch.for_body ?r ?q ?e ?hs] =>
      assert (DepthFirstSearch.for_body r q e hs = Raise RecursionError) as ->;
        [|done]
  end.
  unfold DepthFirstSearch.for_body. cbn [fst snd]. by rewrite IH.
Qed.

(** From a set of states that are not goals and whose first successor is
    in the set again, the depth-first search uses up the call stack,
    whatever the recursion limit. *)
Lemma dfs_solve_overflows P (D : State → Prop) :
  (∀ s, D s → isGoal P s = false ∧
              ∃ e l, succAndCost P s = e :: l ∧ D (edge_dest e)) →
  D (startState P) →
  ∀ limit, DepthFirstSearch.solve limit P = Raise RecursionError.
Proof.
  intros HD Hs limit. unfold DepthFirstSearch.solve.
  by rewrite (dfs_overflows P (λ _, D) (λ _, HD)).
Qed.

(** The recursion of the dynamic program, likewise, on an empty cache. *)
Lemma dp_overflows P (D : nat → State → Prop) :
  (∀ k s, D (S k) s → isGoal P s = false ∧
                ∃ e l, succAndCost P s = e :: l ∧ D k (edge_dest e)) →
  ∀ limit s, D limit s →
    DynamicProgramming.recurse limit P s ∅ = Raise RecursionError.
Proof.
  intros HD. induction limit as [|limit IH]; intros s Hs; [done|].
  destruct (HD limit s Hs) as (Hg & [[a t] c] & l & Hsucc & Ht).
  rewrite dp_recurse_S, Hg, lookup_empty, Hsucc. cbn [for_each].
  assert (DynamicProgramming.gen_body (DynamicProgramming.recurse limit P)
            (a, t, c) ([], ∅) = Raise RecursionError) as ->; [|done].
  unfold DynamicProgramming.gen_body. cbn [fst snd]. by rewrite IH.
Qed.

(** ** The long chain *)

Lemma long_chain_steps n goal : ∀ k s,
  0 ≤ s → s + Z.of_nat (S k) ≤ Z.of_nat n →
  isGoal (long_chain n goal) s = false ∧
  ∃ e l, succAndCost (long_chain n goal) s = e :: l ∧
         0 ≤ edge_dest e ∧ edge_dest e + Z.of_nat k ≤ Z.of_nat n.
Proof.
  intros k s Hs Hk. simpl. split.
  - destruct (Z.eqb_spec s (Z.of_nat n)); [lia|]. by rewrite andb_false_r.
  - destruct (Z.leb_spec 0 s); [|lia]. destruct (Z.ltb_spec s (Z.of_nat n)); [|lia].
    exists (1, s + 1, 1), []. unfold edge_dest. simpl. split_and!; [done|lia|lia].
Qed.

Lemma long_chain_path_spec n goal : ∀ k s,
  0 ≤ s → s + Z.of_nat k ≤ Z.of_nat n →
  is_path (long_chain n goal) s (long_chain_path s k) ∧
  end_state s (long_chain_path s k) = s + Z.of_nat k.
Proof.
  induction k as [|k IH]; intros s Hs Hk.
  - simpl. split; [done|lia].
  - destruct (IH (s + 1)) as [Hp He]; [lia|lia|].
    cbn [long_chain_path is_path end_state]. split_and!; [|exact Hp|].
    + simpl. destruct (Z.leb_spec 0 s); [|lia].
      destruct (Z.ltb_spec s (Z.of_nat n)); [|lia]. by left.
    + change (edge_dest (1, s + 1, 1)) with (s + 1). rewrite He. lia.
Qed.

Lemma long_chain_solution_path n : solution_path (long_chain n true) (long_chain_path 0 n).
Proof.
  destruct (long_chain_path_spec n true n 0) as [Hp He]; [lia|lia|].
  split; [exact Hp|]. simpl. rewrite He. simpl. by rewrite Z.eqb_refl.
Qed.

Lemma long_chain_ascends n goal : ∀ es s,
  is_path (long_chain n goal) s es → es ≠ [] → s < end_state s es.
Proof.
  induction es as [|e es IH]; intros s Hp Hne; [done|].
  destruct Hp as [He Hp]. simpl in He.
  destruct ((0 <=? s) && (s <? Z.of_nat n)); [|by apply elem_of_nil in He].
  apply list_elem_of_singleton in He as ->.
  change (end_state s ((1, s + 1, 1) :: es)) with (end_state (s + 1) es).
  change (edge_dest (1, s + 1, 1)) with (s + 1) in Hp.
  destruct es as [|e' es]; [simpl; lia|].
  specialize (IH (s + 1) Hp ltac:(done)). lia.
Qed.

Lemma long_chain_acyclic n goal : acyclic (long_chain n goal).
Proof.
  intros s es _ Hne Hp Hend.
  pose proof (long_chain_ascends n goal es s Hp Hne). lia.
Qed.

Lemma dfs_long_chain_overflows n goal limit :
  (limit ≤ n)%nat →
  DepthFirstSearch.solve limit (long_chain n goal) = Raise RecursionError.
Proof.
  intros Hlimit. unfold DepthFirstSearch.solve.
  rewrite (dfs_overflows (long_chain n goal)
             (λ k s, 0 ≤ s ∧ s + Z.of_nat k ≤ Z.of_nat n)); [done| | |done].
  - intros k s [Hs Hk]. by apply long_chain_steps.
  - simpl. lia.
Qed.

Lemma dp_long_chain_overflows n goal limit fuel :
  (limit ≤ n)%nat →
  DynamicProgramming.dynamicProgramming limit fuel (long_chain n goal)
  = Raise RecursionError.
Proof.
  intros Hlimit. unfold DynamicProgramming.dynamicProgramming.
  rewrite (dp_overflows (long_chain n goal)
             (λ k s, 0 ≤ s ∧ s + Z.of_nat k ≤ Z.of_nat n)); [done| |].
  - intros k s [Hs Hk]. by apply long_chain_steps.
  - simpl. lia.
Qed.

Lemma ucs_loop_S wfuel fuel P frontier bp explored calls :
  UniformCostSearch.loop wfuel (S fuel) P frontier bp explored calls =
  '(r, frontier) ← PriorityQueue.removeMin frontier;
  match r with
  | None => Ret (UniformCostSearch.mk None None explored None calls)
  | Some (state, pastCost) =>
      if isGoal P state then
        acts ← UniformCostSearch.walk_back wfuel bp (startState P) state [];
        Ret (UniformCostSearch.mk (Some (reverse acts)) (Some pastCost)
               (S explored) (Some state) calls)
      else
        let '(frontier, bp) :=
          fold_left (UniformCostSearch.relax state pastCost)
                    (succAndCost P state) (frontier, bp) in
        UniformCostSearch.loop wfuel fuel P frontier bp (S explored)
                               (calls ++ [state])
  end.
Proof. reflexivity. Qed.

(** On the endless chain the frontier always holds exactly the next state. *)
Lemma ucs_endless_loop wfuel fuel : ∀ s p prios bp explored calls,
  0 ≤ p → prios !! s = Some p → (∀ t, s < t → prios !! t = None) →
  UniformCostSearch.loop wfuel fuel endless (PriorityQueue.mk [(p, s)] prios)
                         bp explored calls = OutOfFuel.
Proof.
  induction fuel as [|fuel IH]; intros s p prios bp explored calls Hp Hs Hnone;
    [done|].
  rewrite ucs_loop_S. unfold PriorityQueue.removeMin. simpl.
  rewrite Hs. destruct (Z.eqb_spec p PriorityQueue.DONE) as [->|_]; [done|].
  simpl. unfold UniformCostSearch.relax, PriorityQueue.update. simpl.
  rewrite lookup_insert_ne by lia. rewrite Hnone by lia. simpl.
  apply IH; [lia|by rewrite lookup_insert_eq|].
  intros t Ht. rewrite !lookup_insert_ne by lia. apply Hnone. lia.
Qed.

Lemma ucs_endless_diverges fuel : UniformCostSearch.solve fuel endless = OutOfFuel.
Proof.
  unfold UniformCostSearch.solve. simpl.
  apply ucs_endless_loop; [done|by rewrite lookup_insert_eq|].
  intros t Ht. rewrite lookup_insert_ne by lia. done.
Qed.

(** On the negative loop the only state is finalized over and over, each
    time with a priority below the sentinel. *)
Lemma ucs_negative_loop wfuel fuel : ∀ p prios bp explored calls,
  p ≤ 0 → p ≠ PriorityQueue.DONE → prios !! 0 = Some p →
  UniformCostSearch.loop wfuel fuel negative_loop (PriorityQueue.mk [(p, 0)] prios)
                         bp explored calls = OutOfFuel.
Proof.
  induction fuel as [|fuel IH]; intros p prios bp explored calls Hp Hne Hs;
    [done|].
  rewrite ucs_loop_S. unfold PriorityQueue.removeMin. simpl.
  rewrite Hs. destruct (Z.eqb_spec p PriorityQueue.DONE) as [->|_]; [done|].
  simpl. unfold UniformCostSearch.relax, PriorityQueue.update. simpl.
  rewrite lookup_insert_eq.
  destruct (Z.ltb_spec (p + -100001) PriorityQueue.DONE) as [_|Hge];
    [|unfold PriorityQueue.DONE in Hge; lia].
  simpl. apply IH; [lia|unfold PriorityQueue.DONE; lia|by rewrite lookup_insert_eq].
Qed.

Lemma ucs_negative_loop_diverges fuel :
  UniformCostSearch.solve fuel negative_loop = OutOfFuel.
Proof.
  unfold UniformCostSearch.solve. simpl.
  apply ucs_negative_loop; [done|done|by rewrite lookup_insert_eq].
Qed.

(** The chain with a detour to the goal has no cycle. *)
Lemma endless_detour_acyclic : acyclic endless_detour.
Proof.
  assert (H : ∀ es s, is_path endless_detour s es → es ≠ [] →
                      0 ≤ s ∧ (s < end_state s es ∨ end_state s es = -1)).
  { induction es as [|e es IH]; intros s Hp Hne; [done|].
    destruct Hp as [He Hp]. simpl in He. simpl.
    destruct (Z.ltb_spec s 0); [by apply elem_of_nil in He|].
    destruct (Z.eqb_spec s 0) as [Hs0|Hs0].
    - subst s. apply elem_of_cons in He as [->|He].
      + destruct es as [|e' es]; [unfold edge_dest; simpl; lia|].
        destruct (IH _ Hp) as [_ ?]; [done|]. unfold edge_dest in *. simpl in *. lia.
      + apply list_elem_of_singleton in He as ->.
        destruct es as [|e' es]; [unfold edge_dest; simpl; lia|].
        destruct (IH _ Hp) as [? _]; [done|]. unfold edge_dest in *. simpl in *. lia.
    - apply list_elem_of_singleton in He as ->.
      destruct es as [|e' es]; [unfold edge_dest; simpl; lia|].
      destruct (IH _ Hp) as [_ ?]; [done|]. unfold edge_dest in *. simpl in *. lia. }
  intros s es _ Hne Hp Hend. destruct (H es s Hp Hne) as [? [?|?]]; lia.
Qed.

(** ** Depth-first search counts visits *)

Lemma elem_of_paths_from P n : ∀ s es,
  es ∈ paths_from P n s ↔ is_path P s es ∧ (length es ≤ n)%nat.
Proof.
  induction n as [|n IH]; intros s es; cbn [paths_from].
  - rewrite list_elem_of_singleton. split.
    + intros ->. simpl. split; [done|lia].
    + intros [_ Hlen]. destruct es; [done|simpl in Hlen; lia].
  - rewrite elem_of_cons, list_elem_of_bind. split.
    + intros [->|(e & Hin & He)]; [simpl; split; [done|lia]|].
      apply list_elem_of_fmap in Hin as (es' & -> & Hes').
      apply IH in Hes' as [Hp Hlen]. simpl. split; [done|lia].
    + intros [Hp Hlen]. destruct es as [|e es]; [by left|right].
      destruct Hp as [He Hp]. exists e. split; [|done].
      apply list_elem_of_fmap. exists es. split; [done|].
      apply IH. split; [done|]. simpl in Hlen. lia.
Qed.

Section dfs_count.
Import DepthFirstSearch.
Context (P : SearchProblem).

Lemma for_body_inv rec pc e hs r :
  for_body rec pc e hs = Ret r →
  ∃ h1, rec (edge_dest e) (pc + edge_cost e) (hs.1 ++ [e], hs.2) = Ret (h1, r.2).
Proof.
  destruct e as [[a t] c]. unfold for_body, edge_dest, edge_cost. simpl.
  intros H. apply bind_Ret_inv in H as ([h1 st1] & Hrec & H).
  apply bind_Ret_inv in H as (h2 & Hpop & H). injection H as <-. eauto.
Qed.

Lemma for_each_explored rec pc l :
  (∀ s pc' h st r, rec s pc' (h, st) = Ret r →
     (numStatesExplored st ≤ numStatesExplored r.2)%nat) →
  ∀ hs r, for_each (for_body rec pc) l hs = Ret r →
    (numStatesExplored hs.2 ≤ numStatesExplored r.2)%nat.
Proof.
  intros Hrec. induction l as [|e l IH]; intros hs r H.
  - injection H as <-. done.
  - cbn [for_each] in H. apply bind_Ret_inv in H as (hs1 & Hbody & Hloop).
    apply for_body_inv in Hbody as [h1 Hbody].
    apply Hrec in Hbody. apply IH in Hloop. simpl in *. lia.
Qed.

(** A call never lowers the count, and raises it when no solution was
    recorded at its entry. *)
Lemma recurse_explored limit : ∀ s pc h st r,
  recurse limit P s pc (h, st) = Ret r →
  (numStatesExplored st ≤ numStatesExplored r.2)%nat ∧
  (solution st = None → (numStatesExplored st < numStatesExplored r.2)%nat).
Proof.
  induction limit as [|limit IH]; intros s pc h st r H; [done|].
  rewrite dfs_recurse_S in H. destruct (solution st) eqn:Hsol.
  { injection H as <-. split; [done|]. done. }
  destruct (isGoal P s).
  { injection H as <-. simpl. split; [lia|]. intros _. lia. }
  apply for_each_explored in H; [simpl in H; split; [|intros _]; lia|].
  intros s' pc' h' st' r' Hr. by apply IH in Hr as [? _].
Qed.

(** The [for] loop where no goal can be reached: the counts of the calls
    add up. *)
Lemma for_each_count rec pc n s l : ∀ h st,
  (∀ e, e ∈ l → ∀ pc' h' st', solution st' = None →
     ∃ st'', rec (edge_dest e) pc' (h', st') = Ret (h', st'') ∧
       solution st'' = None ∧
       numStatesExplored st''
       = (numStatesExplored st' + length (paths_from P n (edge_dest e)))%nat ∧
       succ_calls st''
       = succ_calls st' ++ (end_state (edge_dest e) <$> paths_from P n (edge_dest e))) →
  solution st = None →
  ∃ st', for_each (for_body rec pc) l (h, st) = Ret (h, st') ∧
    solution st' = None ∧
    numStatesExplored st'
    = (numStatesExplored st
       + length (l ≫= λ e, cons e <$> paths_from P n (edge_dest e)))%nat ∧
    succ_calls st'
    = succ_calls st ++
      (end_state s <$> (l ≫= λ e, cons e <$> paths_from P n (edge_dest e))).
Proof.
  induction l as [|e l IH]; intros h st Hrec Hsol.
  - exists st. simpl. rewrite app_nil_r. split_and!; try done; lia.
  - destruct (Hrec e (list_elem_of_here _ _) (pc + edge_cost e) (h ++ [e]) st Hsol)
      as (st1 & Hrun & Hsol1 & Hn1 & Hc1).
    destruct (IH h st1) as (st' & Hloop & Hsol' & Hn' & Hc');
      [intros e' He'; apply Hrec; by right|done|].
    exists st'. split_and!; [|done| |].
    + destruct e as [[a t] c]. cbn [for_each].
      rewrite (for_body_run _ _ _ _ _ _ _ _ Hrun). exact Hloop.
    + rewrite Hn', Hn1, bind_cons, length_app, length_fmap. lia.
    + rewrite Hc', Hc1, bind_cons, fmap_app, <- app_assoc. do 2 f_equal.
      rewrite <- list_fmap_compose. done.
Qed.

(** Where no goal can be reached, a call counts one visit for every path
    out of its state and expands the end of every such path. *)
Lemma recurse_count n : ∀ s pc h st,
  no_goal_from P s → height_le P s n → solution st = None →
  ∃ st', recurse (S n) P s pc (h, st) = Ret (h, st') ∧
    solution st' = None ∧
    numStatesExplored st'
    = (numStatesExplored st + length (paths_from P n s))%nat ∧
    succ_calls st' = succ_calls st ++ (end_state s <$> paths_from P n s).
Proof.
  induction n as [|n IH]; intros s pc h st Hno Hh Hsol;
    rewrite dfs_recurse_S, Hsol, (Hno [] I : isGoal P s = false).
  - destruct (succAndCost P s) as [|e l] eqn:Hsucc.
    + eexists. split_and!; [done|done|simpl; lia|done].
    + destruct (height_le_step P s 0 e Hh) as (n' & Hn & _); [|done].
      rewrite Hsucc. by left.
  - match goal with
    | |- context [for_each _ _ (h, ?st2)] =>
        destruct (for_each_count (recurse (S n) P) pc n s (succAndCost P s) h st2)
          as (st' & Hrun & Hsol' & Hn' & Hc'); [|done|]
    end.
    + intros e He pc' h' st1 Hsol1.
      destruct (height_le_step P s (S n) e Hh He) as (n' & Hn & Hh').
      injection Hn as <-. apply IH; [|done|done].
      by apply (no_goal_from_step P s).
    + exists st'. split_and!; [done|done| |].
      * rewrite Hn'. cbn [paths_from numStatesExplored length]. lia.
      * rewrite Hc'. cbn [paths_from succ_calls fmap list_fmap end_state].
        by rewrite <- app_assoc.
Qed.

End dfs_count.

(** ** Facts about the concrete problems *)

Lemma no_goals_no_solution P :
  (∀ s, isGoal P s = false) → ∀ es, ¬ solution_path P es.
Proof. intros H es [_ Hg]. rewrite H in Hg. done. Qed.

Lemma same_order_reverse P : same_up_to_edge_order P (reverse_edges P).
Proof.
  split_and!; [done|done|]. intros s. simpl. by rewrite reverse_Permutation.
Qed.

Lemma ucs_post_opt P r c :
  ucs_post P r → opt_cost P (startState P) c →
  UniformCostSearch.totalCost r = Some c.
Proof.
  intros [(_ & _ & _ & Hno)|(es & [Hp Hg] & _ & -> & _ & Hmin)]
         [(es' & Hp' & Hg' & Hc') Hmin'].
  - by destruct (Hno es').
  - f_equal. apply Z.le_antisymm.
    + rewrite <- Hc'. by apply Hmin.
    + by apply Hmin'.
Qed.

(** On its way to the goal the depth-first search takes the first edge it
    finds: on [detour] it returns the path of cost 10, not the one of
    cost 2 that uniform-cost search returns. *)
Lemma dfs_path_need_not_be_minimal :
  ∃ r r',
    DepthFirstSearch.solve 4 detour = Ret r ∧
    DepthFirstSearch.actions r = Some [1] ∧
    DepthFirstSearch.totalCost r = Some 10 ∧
    UniformCostSearch.solve 4 detour = Ret r' ∧
    UniformCostSearch.actions r' = Some [2; 3] ∧
    UniformCostSearch.totalCost r' = Some 2.
Proof. do 2 eexists. split_and!; vm_compute; reflexivity. Qed.

(** The example scenario of the specification. *)
Lemma diamond_scenario :
  ∃ r r' history,
    UniformCostSearch.solve 5 diamond = Ret r ∧
    UniformCostSearch.actions r = Some [1; 3] ∧
    UniformCostSearch.totalCost r = Some 2 ∧
    DepthFirstSearch.solve 5 diamond = Ret r' ∧
    DepthFirstSearch.actions r' = Some [1; 3] ∧
    DepthFirstSearch.totalCost r' = Some 2 ∧
    DynamicProgramming.dynamicProgramming 5 5 diamond = Ret (2, history) ∧
    path_actions history = [1; 3].
Proof. do 3 eexists. split_and!; vm_compute; reflexivity. Qed.

Lemma for_each_recorded P limit pc l h st g :
  DepthFirstSearch.solution st = Some g →
  for_each (DepthFirstSearch.for_body (DepthFirstSearch.recurse (S limit) P) pc)
           l (h, st) = Ret (h, st).
Proof.
  intros Hsol. induction l as [|[[a t] c] l IH]; [done|]. cbn [for_each].
  rewrite (for_body_run _ _ _ _ _ _ _ st); [exact IH|].
  by eapply recurse_recorded.
Qed.

Lemma diamond_no_goal_acyclic : acyclic diamond_no_goal.
Proof.
  apply (ranked_acyclic _ [0; 1; 2; 3] (λ s, Z.to_nat (3 - s))); reflexivity.
Qed.

Lemma diamond_acyclic : acyclic diamond.
Proof.
  apply (ranked_acyclic _ [0; 1; 2; 3] (λ s, Z.to_nat (3 - s))); reflexivity.
Qed.

(** * The claims *)

(** C5. Whatever calls a queue has seen before, [update(state,
    newPriority)] returns true exactly when it changes the priority stored
    for [state], which is when [state] has no stored priority or
    [newPriority] is strictly less than the stored one; the stored priority
    is then [newPriority].  Otherwise it returns false and leaves the queue
    as it is.  The stored priority of [state] is never raised, and no other
    state's priority is touched. *)
Theorem update_returns_whether_changed (q : PriorityQueue.t) (state : State)
    (newPriority : Z) :
  let old := PriorityQueue.priorities q !! state in
  let updated := (PriorityQueue.update q state newPriority).1 in
  let q' := (PriorityQueue.update q state newPriority).2 in
  (updated = true ↔ (old = None ∨ ∃ o, old = Some o ∧ newPriority < o)) ∧
  (updated = true ↔ PriorityQueue.priorities q' !! state ≠ old) ∧
  (updated = true → PriorityQueue.priorities q' !! state = Some newPriority) ∧
  (updated = false → q' = q) ∧
  (∀ o, old = Some o →
        ∃ o', PriorityQueue.priorities q' !! state = Some o' ∧ o' ≤ o) ∧
  (∀ s, s ≠ state →
        PriorityQueue.priorities q' !! s = PriorityQueue.priorities q !! s).
Proof.
  intros old updated q'. subst old updated q'.
  pose proof (update_true_iff q state newPriority) as Hiff.
  destruct ((PriorityQueue.update q state newPriority).1) eqn:Hb.
  - pose proof (update_true q state newPriority Hb) as ->. simpl.
    rewrite lookup_insert_eq. split_and!; try done.
    + split; [intros _|done].
      destruct Hiff as [[Hn|(o & Ho & Hlt)] _]; [done|congruence|].
      rewrite Ho. intros [= ->]. lia.
    + intros o Ho. exists newPriority. split; [done|].
      destruct Hiff as [[Hn|(o' & Ho' & Hlt)] _]; [done|congruence|].
      assert (o' = o) by congruence. lia.
    + intros s Hs. by rewrite lookup_insert_ne.
  - pose proof (update_false q state newPriority Hb) as ->.
    split_and!; try done.
    intros o Ho. exists o. split; [done | lia].
Qed.

(** C6, as stated, fails: a finalized state whose priority is then updated
    to a value below the sentinel -100000 is returned a second time. *)
Lemma removeMin_repeats_below_sentinel :
  ∃ q, PriorityQueue.run
         [PriorityQueue.Update 7 0; PriorityQueue.RemoveMin;
          PriorityQueue.Update 7 (-100001); PriorityQueue.RemoveMin]
         PriorityQueue.init [] = Ret ([7; 7], q) ∧
       ¬ NoDup [7; 7].
Proof.
  eexists. split; [vm_compute; reflexivity|].
  intros [H _]%NoDup_cons. apply H. set_solver.
Qed.

(** C6, amended. For every sequence of [update] and [removeMin] calls on one
    queue instance in which no [update] is given a priority below the
    sentinel -100000, every call returns normally and [removeMin] never
    returns a state it has returned before: a returned state keeps the
    sentinel as its stored priority, and a further [update] of it with a
    priority not below the sentinel returns false and leaves the queue as
    it is. *)
Theorem removeMin_never_repeats (ops : list PriorityQueue.op) :
  Forall above_sentinel ops →
  ∃ returned q,
    PriorityQueue.run ops PriorityQueue.init [] = Ret (returned, q) ∧
    NoDup returned ∧
    ∀ s, s ∈ returned →
      PriorityQueue.priorities q !! s = Some PriorityQueue.DONE ∧
      ∀ p, PriorityQueue.DONE ≤ p → PriorityQueue.update q s p = (false, q).
Proof.
  intros Hops.
  destruct (run_no_repeat ops PriorityQueue.init []) as (returned & q & Hrun & Hnd & Hinv);
    [done|split; set_solver|apply NoDup_nil_2|].
  exists returned, q. split_and!; [done|done|].
  intros s Hs. destruct Hinv as [_ Hdone]. specialize (Hdone s Hs).
  split; [done|]. intros p Hp. unfold PriorityQueue.update. rewrite Hdone.
  destruct (Z.ltb_spec p PriorityQueue.DONE); [lia|done].
Qed.

Lemma removeMin_never_repeats_witness :
  ∃ returned q,
    PriorityQueue.run
      [PriorityQueue.Update 7 0; PriorityQueue.RemoveMin;
       PriorityQueue.Update 7 (-100000); PriorityQueue.RemoveMin;
       PriorityQueue.Update 5 (-100000); PriorityQueue.RemoveMin]
      PriorityQueue.init [] = Ret (returned, q) ∧
    NoDup returned ∧
    ∀ s, s ∈ returned →
      PriorityQueue.priorities q !! s = Some PriorityQueue.DONE ∧
      ∀ p, PriorityQueue.DONE ≤ p → PriorityQueue.update q s p = (false, q).
Proof.
  apply removeMin_never_repeats.
  repeat (apply Forall_cons; split; [simpl; unfold PriorityQueue.DONE; try lia; done|]).
  by apply Forall_nil.
Defined.

(** C1. For every finite search problem with non-negative edge costs in
    which some goal state is reachable from the start, [solve] of
    [UniformCostSearch] terminates, sets [totalCost] to the minimum, over all
    paths from the start state to a goal state, of the sum of the edge
    costs, and sets [actions] to the actions of a path of that cost. *)
Theorem ucs_total_cost_is_minimum (P : SearchProblem) (states : list State) :
  closedb P states = true → nonnegb P states = true →
  (∃ es, solution_path P es) →
  ∃ r es,
    (∀ fuel, (length states < fuel)%nat →
             UniformCostSearch.solve fuel P = Ret r) ∧
    solution_path P es ∧
    UniformCostSearch.actions r = Some (path_actions es) ∧
    UniformCostSearch.totalCost r = Some (path_cost es) ∧
    ∀ es', solution_path P es' → path_cost es ≤ path_cost es'.
Proof.
  intros Hc Hn [es0 Hes0].
  destruct (ucs_solve_total P states Hc Hn)
    as (r & Hr & [(_ & _ & _ & Hno)|(es & Hes & Ha & Ht & _ & Hmin)]).
  - by destruct (Hno es0).
  - by exists r, es.
Qed.

Lemma ucs_total_cost_is_minimum_witness :
  closedb diamond [0; 1; 2; 3] = true ∧ nonnegb diamond [0; 1; 2; 3] = true ∧
  solution_path diamond [(1, 1, 1); (3, 3, 1)] ∧
  ∃ r es,
    (∀ fuel, (length [0; 1; 2; 3] < fuel)%nat →
             UniformCostSearch.solve fuel diamond = Ret r) ∧
    solution_path diamond es ∧
    UniformCostSearch.actions r = Some (path_actions es) ∧
    UniformCostSearch.totalCost r = Some (path_cost es) ∧
    ∀ es', solution_path diamond es' → path_cost es ≤ path_cost es'.
Proof.
  assert (Hp : solution_path diamond [(1, 1, 1); (3, 3, 1)]).
  { split; [apply is_pathb_spec|]; reflexivity. }
  split_and!; [reflexivity|reflexivity|exact Hp|].
  apply (ucs_total_cost_is_minimum diamond [0; 1; 2; 3]);
    [reflexivity|reflexivity|by eexists].
Defined.

(** C2, as stated, fails. Where the start state is not a goal and has no
    outgoing edge, [dynamicProgramming] raises [ValueError]; on a state
    that is its own successor, and on a chain without a goal that has at
    least as many edges as the call stack admits calls, the depth-first
    search raises the recursion-depth error; on an infinite chain of
    states, and on a cycle whose cost is below the sentinel, the
    uniform-cost loop runs for ever.  None of the five problems has a goal
    state. *)
Lemma no_path_not_always_reported :
  ((∀ es, ¬ solution_path isolated_start es) ∧
   ∀ limit fuel,
     DynamicProgramming.dynamicProgramming (S limit) fuel isolated_start
     = Raise ValueError) ∧
  ((∀ es, ¬ solution_path loop_no_goal es) ∧
   ∀ limit, DepthFirstSearch.solve limit loop_no_goal = Raise RecursionError) ∧
  (∀ n limit, (limit ≤ n)%nat →
     acyclic (long_chain n false) ∧
     (∀ es, ¬ solution_path (long_chain n false) es) ∧
     DepthFirstSearch.solve limit (long_chain n false) = Raise RecursionError) ∧
  ((∀ es, ¬ solution_path endless es) ∧
   ∀ fuel, UniformCostSearch.solve fuel endless = OutOfFuel) ∧
  ((∀ es, ¬ solution_path negative_loop es) ∧
   ∀ fuel, UniformCostSearch.solve fuel negative_loop = OutOfFuel).
Proof.
  split_and!; try (by apply no_goals_no_solution).
  - intros limit fuel. reflexivity.
  - apply (dfs_solve_overflows loop_no_goal (λ s, s = 0)); [|done].
    intros s ->. split; [done|]. by exists (1, 0, 1), [].
  - intros n limit Hlimit. split_and!.
    + apply long_chain_acyclic.
    + by apply no_goals_no_solution.
    + by apply dfs_long_chain_overflows.
  - apply ucs_endless_diverges.
  - apply ucs_negative_loop_diverges.
Qed.

(** C2, amended. For every finite problem in which no goal state is
    reachable from the start, [solve] of [UniformCostSearch] terminates
    normally with absent actions and absent total cost when the edge costs
    are non-negative, and so does [solve] of [DepthFirstSearch] when the
    reachable state graph is acyclic and has fewer states than the call
    stack admits nested calls of [recurse]. *)
Theorem no_path_reported_on_finite_problems (P : SearchProblem)
    (states : list State) :
  closedb P states = true → (∀ es, ¬ solution_path P es) →
  (nonnegb P states = true →
   ∃ r, (∀ fuel, (length states < fuel)%nat →
                 UniformCostSearch.solve fuel P = Ret r) ∧
        UniformCostSearch.actions r = None ∧
        UniformCostSearch.totalCost r = None) ∧
  (acyclic P →
   ∀ limit, (length states < limit)%nat →
     ∃ r, DepthFirstSearch.solve limit P = Ret r ∧
          DepthFirstSearch.actions r = None ∧
          DepthFirstSearch.totalCost r = None).
Proof.
  intros Hc Hno. split.
  - intros Hn.
    destruct (ucs_solve_total P states Hc Hn)
      as (r & Hr & [(Ha & Ht & _)|(es & Hes & _)]).
    + by exists r.
    + by destruct (Hno es).
  - intros Hacyc limit Hlimit. apply closedb_spec in Hc.
    destruct (dfs_solve_outcome P states limit Hc Hacyc Hlimit)
      as (r & Hr & [(es & Hes & _)|(_ & _ & Ha & Ht)]).
    + by destruct (Hno es).
    + by exists r.
Qed.

Lemma no_path_reported_on_finite_problems_witness :
  (∃ r, (∀ fuel, (length [0; 1; 2; 3] < fuel)%nat →
                 UniformCostSearch.solve fuel diamond_no_goal = Ret r) ∧
        UniformCostSearch.actions r = None ∧
        UniformCostSearch.totalCost r = None) ∧
  (∀ limit, (length [0; 1; 2; 3] < limit)%nat →
     ∃ r, DepthFirstSearch.solve limit diamond_no_goal = Ret r ∧
          DepthFirstSearch.actions r = None ∧
          DepthFirstSearch.totalCost r = None).
Proof.
  destruct (no_path_reported_on_finite_problems diamond_no_goal [0; 1; 2; 3])
    as [Hu Hd]; [reflexivity|by apply no_goals_no_solution|].
  split; [apply Hu; reflexivity|apply Hd, diamond_no_goal_acyclic].
Defined.

(** C3, as stated, fails. A goal is one edge away from the start state of
    [self_loop] and of [endless_detour], but the first successor of the
    start state leads back to it, or into an infinite chain; and the goal
    of the finite chain lies at least as many edges away as the call stack
    admits calls.  On all three the depth-first search sets no result: it
    ends with the recursion-depth error, whatever the recursion limit. *)
Lemma dfs_overflows_despite_a_path :
  (solution_path self_loop [(2, 1, 1)] ∧
   ∀ limit, DepthFirstSearch.solve limit self_loop = Raise RecursionError) ∧
  (acyclic endless_detour ∧
   solution_path endless_detour [(2, -1, 1)] ∧
   ∀ limit, DepthFirstSearch.solve limit endless_detour = Raise RecursionError) ∧
  (∀ n limit, (limit ≤ n)%nat →
     acyclic (long_chain n true) ∧
     solution_path (long_chain n true) (long_chain_path 0 n) ∧
     DepthFirstSearch.solve limit (long_chain n true) = Raise RecursionError).
Proof.
  split_and!.
  - split; [apply is_pathb_spec|]; reflexivity.
  - apply (dfs_solve_overflows self_loop (λ s, s = 0)); [|done].
    intros s ->. split; [done|]. by exists (1, 0, 1), [(2, 1, 1)].
  - apply endless_detour_acyclic.
  - split; [apply is_pathb_spec|]; reflexivity.
  - apply (dfs_solve_overflows endless_detour (λ s, 0 ≤ s)); [|done].
    intros s Hs. simpl. split; [destruct (Z.eqb_spec s (-1)); [lia|done]|].
    destruct (Z.ltb_spec s 0); [lia|]. destruct (Z.eqb_spec s 0) as [->|].
    + by exists (1, 1, 1), [(2, -1, 1)].
    + exists (1, s + 1, 1), []. split; [done|]. unfold edge_dest. simpl. lia.
  - intros n limit Hlimit. split_and!.
    + apply long_chain_acyclic.
    + apply long_chain_solution_path.
    + by apply dfs_long_chain_overflows.
Qed.

(** C3, amended. For every finite problem whose reachable state graph is
    acyclic and has fewer states than the call stack admits nested calls of
    [recurse], and in which at least one path from the start to a goal
    exists, [solve] of [DepthFirstSearch] terminates and sets [actions] to
    the actions of a path from the start state whose every edge is listed
    by [succAndCost] and whose last state is a goal, and [totalCost] to the
    sum of the edge costs of that path.  The path need not be of least cost
    ([dfs_path_need_not_be_minimal]). *)
Theorem dfs_finds_a_valid_path (P : SearchProblem) (states : list State) :
  closedb P states = true → acyclic P → (∃ es, solution_path P es) →
  ∀ limit, (length states < limit)%nat →
    ∃ r es,
      DepthFirstSearch.solve limit P = Ret r ∧
      solution_path P es ∧
      DepthFirstSearch.actions r = Some (path_actions es) ∧
      DepthFirstSearch.totalCost r = Some (path_cost es) ∧
      DepthFirstSearch.solution r = Some (end_state (startState P) es).
Proof.
  intros Hc%closedb_spec Hacyc [es0 Hes0] limit Hlimit.
  destruct (dfs_solve_outcome P states limit Hc Hacyc Hlimit)
    as (r & Hr & [(es & Hes & Hs & Ha & Ht)|(Hno & _)]).
  - by exists r, es.
  - by destruct (Hno es0).
Qed.

Lemma dfs_finds_a_valid_path_witness :
  ∃ r es,
    DepthFirstSearch.solve 5 diamond = Ret r ∧
    solution_path diamond es ∧
    DepthFirstSearch.actions r = Some (path_actions es) ∧
    DepthFirstSearch.totalCost r = Some (path_cost es) ∧
    DepthFirstSearch.solution r = Some (end_state (startState diamond) es).
Proof.
  apply (dfs_finds_a_valid_path diamond [0; 1; 2; 3]);
    [reflexivity|apply diamond_acyclic| |simpl; lia].
  exists [(1, 1, 1); (3, 3, 1)]. split; [apply is_pathb_spec|]; reflexivity.
Defined.

(** C4, as stated, fails. The three problems are finite and acyclic. On
    [dead_end], where a state without successors lies next to the goal,
    [dynamicProgramming] raises [ValueError] while uniform-cost search
    returns the total cost 1.  On [negative_edge] both return, uniform-cost
    search the total cost 2 and [dynamicProgramming] the total cost -2.  On
    a chain with at least as many edges as the call stack admits calls,
    [dynamicProgramming] raises the recursion-depth error, while
    uniform-cost search, which does not recurse, returns (here on the chain
    of 3 edges). *)
Lemma dp_differs_from_ucs :
  (closedb dead_end [0; 1; 2] = true ∧ acyclic dead_end ∧
   (∀ limit fuel,
      DynamicProgramming.dynamicProgramming (S (S limit)) fuel dead_end
      = Raise ValueError) ∧
   ∃ r, UniformCostSearch.solve 4 dead_end = Ret r ∧
        UniformCostSearch.totalCost r = Some 1) ∧
  (closedb negative_edge [0; 1; 2] = true ∧ acyclic negative_edge ∧
   ∃ r history,
     UniformCostSearch.solve 4 negative_edge = Ret r ∧
     UniformCostSearch.totalCost r = Some 2 ∧
     DynamicProgramming.dynamicProgramming 4 4 negative_edge
     = Ret (-2, history)) ∧
  ((∀ n limit fuel, (limit ≤ n)%nat →
      acyclic (long_chain n true) ∧
      DynamicProgramming.dynamicProgramming limit fuel (long_chain n true)
      = Raise RecursionError) ∧
   ∃ r, UniformCostSearch.solve 5 (long_chain 3 true) = Ret r ∧
        UniformCostSearch.totalCost r = Some 3).
Proof.
  split_and!.
  - reflexivity.
  - apply (ranked_acyclic _ [0; 1; 2] (λ s, if s =? 0 then 1%nat else 0%nat));
      reflexivity.
  - intros limit fuel. reflexivity.
  - eexists. split; vm_compute; reflexivity.
  - reflexivity.
  - apply (ranked_acyclic _ [0; 1; 2] (λ s, Z.to_nat (2 - s)));
      reflexivity.
  - do 2 eexists. split_and!; vm_compute; reflexivity.
  - intros n limit fuel Hlimit. split; [apply long_chain_acyclic|].
    by apply dp_long_chain_overflows.
  - eexists. split; vm_compute; reflexivity.
Qed.

(** C4, amended. For every finite problem with integer edge costs that are
    not negative, whose reachable state graph is acyclic and has fewer
    states than the call stack admits nested calls of [recurse], and in
    which every state that is not a goal has an outgoing edge,
    [dynamicProgramming] returns a total cost equal to the [totalCost] that
    [solve] of [UniformCostSearch] sets on the same problem.  In particular
    its recursion returns the future cost 0 for a goal state and, for a
    reachable state that is not a goal, the minimum over its outgoing edges
    of the edge cost plus the future cost of the destination. *)
Theorem dp_agrees_with_ucs (P : SearchProblem) (states : list State) :
  closedb P states = true → nonnegb P states = true →
  no_dead_endb P states = true → acyclic P →
  ∃ c,
    (∀ limit fuel, (length states < limit)%nat → (length states < fuel)%nat →
       ∃ history r,
         DynamicProgramming.dynamicProgramming limit fuel P = Ret (c, history) ∧
         UniformCostSearch.solve fuel P = Ret r ∧
         UniformCostSearch.totalCost r = Some c) ∧
    (∀ limit s, (length states < limit)%nat → reachable P s →
       ∃ v cache,
         DynamicProgramming.recurse limit P s ∅ = Ret (v, cache) ∧
         (isGoal P s = true → v = 0) ∧
         (isGoal P s = false →
          (∃ e v' cache',
              e ∈ succAndCost P s ∧
              DynamicProgramming.recurse limit P (edge_dest e) ∅ = Ret (v', cache') ∧
              v = edge_cost e + v') ∧
          (∀ e v' cache',
              e ∈ succAndCost P s →
              DynamicProgramming.recurse limit P (edge_dest e) ∅ = Ret (v', cache') →
              v ≤ edge_cost e + v'))).
Proof.
  intros Hcb Hnb Hlb Hacyc.
  pose proof (proj1 (closedb_spec _ _) Hcb) as Hc.
  pose proof (proj1 (nonnegb_spec _ _) Hnb) as Hn.
  pose proof (proj1 (no_dead_endb_spec _ _) Hlb) as Hl.
  destruct (dp_total P states (S (length states)) (S (length states))
              Hc Hn Hl Hacyc)
    as (c & _ & _ & Hopt); [lia|lia|].
  destruct (ucs_solve_total P states Hcb Hnb) as (r & Hr & Hpost).
  assert (Hrec : ∀ n s, (length states ≤ n)%nat → reachable P s →
            ∃ v cache, DynamicProgramming.recurse (S n) P s ∅ = Ret (v, cache) ∧
                       opt_cost P s v).
  { intros n s Hlen Hs.
    destruct (dp_recurse_outcome P states Hc Hn Hl n s ∅)
      as (v & cache & Hrun & Hv & _); [| |apply cache_ok_empty|by eauto].
    - eapply height_le_mono; [by eapply (acyclic_height P states)|done].
    - by eapply closed_reachable. }
  exists c. split.
  - intros limit fuel Hlimit Hfuel.
    destruct (dp_total P states limit fuel Hc Hn Hl Hacyc Hlimit Hfuel)
      as (c' & history & Hdp & Hopt').
    rewrite (opt_cost_unique _ _ _ _ Hopt' Hopt) in Hdp.
    exists history, r. split_and!; [done|by apply Hr|by eapply ucs_post_opt].
  - intros [|n] s Hfuel Hs; [lia|].
    destruct (Hrec n s) as (v & cache & Hrun & [(es & Hp & Hg & Hcost) Hmin]);
      [lia|done|].
    exists v, cache. split_and!; [done| |].
    + intros Hgoal. rewrite dp_recurse_S, Hgoal in Hrun. by injection Hrun as <-.
    + intros Hgoal. split.
      * destruct es as [|e es]; [simpl in Hg; congruence|].
        destruct Hp as [He Hp]. simpl in Hg.
        destruct (Hrec n (edge_dest e))
          as (v' & cache' & Hrun' & [(es' & Hp' & Hg' & Hcost') Hmin']);
          [lia|by eapply reachable_step|].
        exists e, v', cache'. split_and!; [done|done|].
        specialize (Hmin' es Hp Hg). specialize (Hmin (e :: es') (conj He Hp') Hg').
        change (path_cost (e :: es)) with (edge_cost e + path_cost es) in Hcost.
        change (path_cost (e :: es')) with (edge_cost e + path_cost es') in Hmin.
        lia.
      * intros e v' cache' He Hrun'.
        destruct (Hrec n (edge_dest e))
          as (v'' & cache'' & Hrun'' & [(es' & Hp' & Hg' & Hcost') _]);
          [lia|by eapply reachable_step|].
        assert (v'' = v') as -> by congruence.
        specialize (Hmin (e :: es') (conj He Hp') Hg').
        change (path_cost (e :: es')) with (edge_cost e + path_cost es') in Hmin.
        lia.
Qed.

Lemma dp_agrees_with_ucs_witness :
  ∃ c,
    (∀ limit fuel,
       (length [0; 1; 2; 3] < limit)%nat → (length [0; 1; 2; 3] < fuel)%nat →
       ∃ history r,
         DynamicProgramming.dynamicProgramming limit fuel diamond
         = Ret (c, history) ∧
         UniformCostSearch.solve fuel diamond = Ret r ∧
         UniformCostSearch.totalCost r = Some c) ∧
    (∀ limit s, (length [0; 1; 2; 3] < limit)%nat → reachable diamond s →
       ∃ v cache,
         DynamicProgramming.recurse limit diamond s ∅ = Ret (v, cache) ∧
         (isGoal diamond s = true → v = 0) ∧
         (isGoal diamond s = false →
          (∃ e v' cache',
              e ∈ succAndCost diamond s ∧
              DynamicProgramming.recurse limit diamond (edge_dest e) ∅
              = Ret (v', cache') ∧
              v = edge_cost e + v') ∧
          (∀ e v' cache',
              e ∈ succAndCost diamond s →
              DynamicProgramming.recurse limit diamond (edge_dest e) ∅
              = Ret (v', cache') →
              v ≤ edge_cost e + v'))).
Proof.
  apply (dp_agrees_with_ucs diamond [0; 1; 2; 3]);
    [reflexivity|reflexivity|reflexivity|apply diamond_acyclic].
Defined.

(** C7. For every finite problem with non-negative edge costs, [solve] of
    [UniformCostSearch] on two problems that differ only in the order in
    which [succAndCost] lists the outgoing edges of each state sets the
    same [totalCost]; and a run is deterministic: whenever [solve] returns
    on the same problem, it has set the same [actions], [totalCost] and
    [numStatesExplored]. *)
Theorem ucs_deterministic_and_order_independent (P Q : SearchProblem)
    (states : list State) :
  closedb P states = true → nonnegb P states = true →
  same_up_to_edge_order P Q →
  (∃ r r',
      (∀ fuel, (length states < fuel)%nat →
         UniformCostSearch.solve fuel P = Ret r ∧
         UniformCostSearch.solve fuel Q = Ret r') ∧
      UniformCostSearch.totalCost r = UniformCostSearch.totalCost r') ∧
  (∀ fuel fuel' x y,
      UniformCostSearch.solve fuel P = Ret x →
      UniformCostSearch.solve fuel' P = Ret y →
      x = y ∧
      UniformCostSearch.actions x = UniformCostSearch.actions y ∧
      UniformCostSearch.totalCost x = UniformCostSearch.totalCost y ∧
      UniformCostSearch.numStatesExplored x = UniformCostSearch.numStatesExplored y).
Proof.
  intros Hc Hn Hsame. split.
  - destruct (ucs_solve_total P states Hc Hn) as (r & Hr & Hpost).
    destruct (ucs_solve_total Q states) as (r' & Hr' & Hpost').
    { apply closedb_spec. eapply same_order_closed; [done|]. by apply closedb_spec. }
    { apply nonnegb_spec. eapply same_order_nonneg; [done|]. by apply nonnegb_spec. }
    exists r, r'. split; [by auto|]. by eapply ucs_post_same_cost.
  - intros fuel fuel' x y Hx Hy.
    by rewrite (ucs_solve_deterministic _ _ _ _ _ Hx Hy).
Qed.

Lemma ucs_deterministic_and_order_independent_witness :
  (∃ r r',
      (∀ fuel, (length [0; 1; 2; 3] < fuel)%nat →
         UniformCostSearch.solve fuel diamond = Ret r ∧
         UniformCostSearch.solve fuel (reverse_edges diamond) = Ret r') ∧
      UniformCostSearch.totalCost r = UniformCostSearch.totalCost r') ∧
  (∀ fuel fuel' x y,
      UniformCostSearch.solve fuel diamond = Ret x →
      UniformCostSearch.solve fuel' diamond = Ret y →
      x = y ∧
      UniformCostSearch.actions x = UniformCostSearch.actions y ∧
      UniformCostSearch.totalCost x = UniformCostSearch.totalCost y ∧
      UniformCostSearch.numStatesExplored x = UniformCostSearch.numStatesExplored y).
Proof.
  apply (ucs_deterministic_and_order_independent diamond (reverse_edges diamond)
           [0; 1; 2; 3]); [reflexivity|reflexivity|apply same_order_reverse].
Defined.

(** C8. Within one [solve] of [DepthFirstSearch], once a solution has been
    recorded, every recursive call that is entered returns at its entry,
    and so does every further turn of a [for] loop over successors: the
    fields [actions], [totalCost], [numStatesExplored], [size] and
    [solution], and the shared history, are left as they are. *)
Theorem dfs_short_circuits (P : SearchProblem) (limit : nat) (s : State)
    (pastCost : Z) (history : list Edge) (self : DepthFirstSearch.t) (g : State) :
  DepthFirstSearch.solution self = Some g →
  DepthFirstSearch.recurse (S limit) P s pastCost (history, self)
  = Ret (history, self) ∧
  ∀ successors,
    for_each (DepthFirstSearch.for_body (DepthFirstSearch.recurse (S limit) P) pastCost)
             successors (history, self)
    = Ret (history, self).
Proof.
  intros Hsol. split; [by eapply recurse_recorded|].
  intros l. by eapply for_each_recorded.
Qed.

Lemma dfs_short_circuits_witness :
  DepthFirstSearch.recurse 1 diamond 2 4 ([(1, 1, 1)], dfs_solved)
  = Ret ([(1, 1, 1)], dfs_solved) ∧
  ∀ successors,
    for_each (DepthFirstSearch.for_body (DepthFirstSearch.recurse 1 diamond) 4)
             successors ([(1, 1, 1)], dfs_solved)
    = Ret ([(1, 1, 1)], dfs_solved).
Proof.
  apply (dfs_short_circuits diamond 0 2 4 [(1, 1, 1)] dfs_solved 3). reflexivity.
Defined.

(** C9. For every problem whose start state is a goal, [solve] of
    [UniformCostSearch] terminates with [actions] the empty list,
    [totalCost] 0 and [numStatesExplored] 1, and it has not called
    [succAndCost]. *)
Theorem ucs_start_is_goal (P : SearchProblem) (fuel : nat) :
  isGoal P (startState P) = true →
  UniformCostSearch.solve (S fuel) P
  = Ret (UniformCostSearch.mk (Some []) (Some 0) 1 (Some (startState P)) []).
Proof.
  intros Hgoal. unfold UniformCostSearch.solve. rewrite ucs_loop_S.
  unfold PriorityQueue.update, PriorityQueue.init, PriorityQueue.removeMin. simpl.
  rewrite lookup_empty. simpl. rewrite lookup_insert_eq. simpl.
  rewrite Hgoal. by rewrite bool_decide_eq_true_2.
Qed.

Lemma ucs_start_is_goal_witness :
  UniformCostSearch.solve 1 goal_start
  = Ret (UniformCostSearch.mk (Some []) (Some 0) 1 (Some 0) []).
Proof. apply (ucs_start_is_goal goal_start 0). reflexivity. Defined.

(** C10. [DepthFirstSearch] keeps no visited set. Every recursive call
    entered while no solution is recorded increments [numStatesExplored].
    Where no goal can be reached, a call on a state counts one visit for
    every path out of that state and calls [succAndCost] on the end state
    of every such path, so a state reachable along several paths is
    counted, and expanded, once per path; [paths_from] lists exactly the
    paths out of a state. *)
Theorem dfs_counts_every_visit (P : SearchProblem) :
  (∀ limit s pastCost history self r,
      DepthFirstSearch.solution self = None →
      DepthFirstSearch.recurse limit P s pastCost (history, self) = Ret r →
      (DepthFirstSearch.numStatesExplored self
       < DepthFirstSearch.numStatesExplored r.2)%nat) ∧
  (∀ n s pastCost history self,
      no_goal_from P s → height_le P s n →
      DepthFirstSearch.solution self = None →
      ∃ self',
        DepthFirstSearch.recurse (S n) P s pastCost (history, self)
        = Ret (history, self') ∧
        DepthFirstSearch.numStatesExplored self'
        = (DepthFirstSearch.numStatesExplored self + length (paths_from P n s))%nat ∧
        DepthFirstSearch.succ_calls self'
        = DepthFirstSearch.succ_calls self ++ (end_state s <$> paths_from P n s)) ∧
  (∀ n s es, height_le P s n → es ∈ paths_from P n s ↔ is_path P s es).
Proof.
  split_and!.
  - intros limit s pc h st r Hsol Hr.
    destruct (recurse_explored P limit s pc h st r Hr) as [_ Hlt]. auto.
  - intros n s pc h st Hno Hh Hsol.
    destruct (recurse_count P n s pc h st Hno Hh Hsol) as (st' & ? & _ & ? & ?).
    by exists st'.
  - intros n s es Hh. rewrite elem_of_paths_from. split; [by intros [? _]|].
    intros Hp. split; [done|]. by apply Hh.
Qed.

Lemma dfs_counts_every_visit_witness :
  ∃ self',
    DepthFirstSearch.recurse 5 diamond_no_goal 0 0
      ([], DepthFirstSearch.mk None None None 0 0 [])
    = Ret ([], self') ∧
    DepthFirstSearch.numStatesExplored self' = 5%nat ∧
    DepthFirstSearch.succ_calls self' = [0; 1; 3; 2; 3].
Proof.
  destruct (dfs_counts_every_visit diamond_no_goal) as (_ & H & _).
  apply (H 4%nat 0 0 [] (DepthFirstSearch.mk None None None 0 0 [])).
  - intros es _. reflexivity.
  - apply (acyclic_height diamond_no_goal [0; 1; 2; 3]).
    + by apply closedb_spec.
    + apply diamond_no_goal_acyclic.
    + by exists [].
  - reflexivity.
Defined.

(** * Further properties of the priority queue *)

Lemma pq_inv_init : pq_inv PriorityQueue.init.
Proof.
  split_and!; simpl.
  - constructor.
  - by intros p s ?%elem_of_nil.
  - intros s pr H. by rewrite lookup_empty in H.
  - intros s pr H. by rewrite lookup_empty in H.
Qed.

Lemma pq_inv_update q s p :
  PriorityQueue.DONE ≤ p → pq_inv q → pq_inv (PriorityQueue.update q s p).2.
Proof.
  intros Hp (Hsorted & Hheap & Hlive & Hge).
  destruct ((PriorityQueue.update q s p).1) eqn:Hb; [|by rewrite update_false].
  rewrite update_true by done. apply update_true_iff in Hb.
  split_and!; simpl.
  - by apply heappush_sorted.
  - intros p' s' [[= -> ->]|Hin]%elem_of_heappush.
    + exists p. rewrite lookup_insert_eq. split; [done|right; lia].
    + destruct (Hheap _ _ Hin) as (pr & Hpr & Hle).
      destruct (decide (s = s')) as [->|Hne]; [|exists pr; by rewrite lookup_insert_ne].
      exists p. rewrite lookup_insert_eq. split; [done|right].
      destruct Hb as [Hn|(o & Ho & Hlt)]; [congruence|].
      assert (o = pr) as -> by congruence. destruct Hle as [->|?]; lia.
  - intros s' pr Hs' Hpr. apply elem_of_heappush.
    destruct (decide (s = s')) as [->|Hne].
    + rewrite lookup_insert_eq in Hs'. injection Hs' as <-. by left.
    + rewrite lookup_insert_ne in Hs' by done. right. by apply Hlive.
  - intros s' pr Hs'. destruct (decide (s = s')) as [->|Hne].
    + rewrite lookup_insert_eq in Hs'. by injection Hs' as <-.
    + rewrite lookup_insert_ne in Hs' by done. by eapply Hge.
Qed.

Lemma pq_inv_updates ups : ∀ q,
  Forall (λ sp, PriorityQueue.DONE ≤ sp.2) ups → pq_inv q →
  pq_inv (pq_updates q ups).
Proof.
  induction ups as [|[s p] ups IH]; intros q Hups Hq; [done|].
  apply Forall_cons in Hups as [Hp Hups]. simpl.
  apply IH; [done|]. by apply pq_inv_update.
Qed.

(** [removeMin] on a queue that satisfies the invariant. *)
Lemma removeMin_least q :
  pq_inv q →
  (PriorityQueue.removeMin q
   = Ret (None, PriorityQueue.mk [] (PriorityQueue.priorities q)) ∧
   (∀ s pr, PriorityQueue.priorities q !! s = Some pr → pr = PriorityQueue.DONE) ∧
   pq_inv (PriorityQueue.mk [] (PriorityQueue.priorities q))) ∨
  (∃ s p rest,
      PriorityQueue.removeMin q
      = Ret (Some (s, p),
             PriorityQueue.mk rest
               (<[s := PriorityQueue.DONE]> (PriorityQueue.priorities q))) ∧
      PriorityQueue.priorities q !! s = Some p ∧ p ≠ PriorityQueue.DONE ∧
      (∀ s' p', PriorityQueue.priorities q !! s' = Some p' →
                p' ≠ PriorityQueue.DONE → PriorityQueue.entry_le (p, s) (p', s')) ∧
      pq_inv (PriorityQueue.mk rest
                (<[s := PriorityQueue.DONE]> (PriorityQueue.priorities q)))).
Proof.
  intros (Hsorted & Hheap & Hlive & Hge). unfold PriorityQueue.removeMin.
  destruct (removeMin_loop_spec (PriorityQueue.heap q) (PriorityQueue.priorities q))
    as (stale & rest & Hh & Hstale &
        [[-> ->]|(p & s & rest' & pr & -> & Hpr & Hne & ->)]).
  { intros [p s] Hin. destruct (Hheap _ _ Hin) as (pr & Hpr & _). simpl. eauto. }
  - left. rewrite app_nil_r in Hh.
    assert (Hall : ∀ s pr, PriorityQueue.priorities q !! s = Some pr →
                           pr = PriorityQueue.DONE).
    { intros s pr Hs. destruct (decide (pr = PriorityQueue.DONE)) as [|Hn]; [done|].
      pose proof (Hlive _ _ Hs Hn) as Hin. rewrite Hh in Hin.
      apply Hstale in Hin. simpl in Hin. congruence. }
    split_and!; [done|done|].
    split_and!; simpl; [constructor|by intros ?? ?%elem_of_nil| |done].
    intros s pr Hs Hn. by destruct (Hn (Hall _ _ Hs)).
  - right. rewrite Hh in Hsorted. apply StronglySorted_app_1_r in Hsorted.
    assert (Hmin : ∀ s' p', PriorityQueue.priorities q !! s' = Some p' →
                     p' ≠ PriorityQueue.DONE →
                     (p', s') ∈ (p, s) :: rest' ∧
                     PriorityQueue.entry_le (p, s) (p', s')).
    { intros s' p' Hs' Hp'. pose proof (Hlive _ _ Hs' Hp') as Hin.
      rewrite Hh in Hin. apply elem_of_app in Hin as [Hin|Hin].
      - apply Hstale in Hin. simpl in Hin. congruence.
      - split; [done|]. apply elem_of_cons in Hin as [<-|Hin].
        + right. simpl. lia.
        + apply StronglySorted_cons in Hsorted as [Hall _].
          rewrite Forall_forall in Hall. by apply Hall. }
    assert (pr = p) as ->.
    { destruct (Hmin _ _ Hpr Hne) as [_ Hle].
      destruct (Hheap p s) as (pr' & Hpr' & Hle'); [rewrite Hh; set_solver|].
      assert (pr' = pr) as -> by congruence.
      unfold PriorityQueue.entry_le in Hle. simpl in Hle.
      destruct Hle' as [?|?]; [done|lia]. }
    exists s, p, rest'. split_and!; [done|done|done|by intros; apply Hmin|].
    split_and!; simpl.
    + by apply StronglySorted_cons in Hsorted as [_ ?].
    + intros p' s' Hin. destruct (decide (s = s')) as [->|Hsv].
      * exists PriorityQueue.DONE. rewrite lookup_insert_eq. auto.
      * rewrite lookup_insert_ne by done. apply Hheap. rewrite Hh. set_solver.
    + intros s' p' Hs' Hp'. destruct (decide (s = s')) as [->|Hsv].
      * rewrite lookup_insert_eq in Hs'. congruence.
      * rewrite lookup_insert_ne in Hs' by done.
        destruct (Hmin _ _ Hs' Hp') as [[Heq|Hin]%elem_of_cons _]; [congruence|done].
    + intros s' p' Hs'. destruct (decide (s = s')) as [->|Hsv].
      * rewrite lookup_insert_eq in Hs'. injection Hs' as <-. done.
      * rewrite lookup_insert_ne in Hs' by done. by eapply Hge.
Qed.

Lemma run_pq_inv ops : ∀ q returned,
  Forall above_sentinel ops → pq_inv q →
  ∃ returned' q', PriorityQueue.run ops q returned = Ret (returned', q') ∧ pq_inv q'.
Proof.
  induction ops as [|o ops IH]; intros q returned Hops Hq; [simpl; eauto|].
  apply Forall_cons in Hops as [Ho Hops]. destruct o as [s p|]; simpl.
  - apply IH; [done|]. by apply pq_inv_update.
  - destruct (removeMin_least q Hq)
      as [(-> & _ & Hq')|(s & p & rest & -> & _ & _ & _ & Hq')]; simpl; by apply IH.
Qed.

Lemma pq_updates_snoc q ups s p :
  pq_updates q (ups ++ [(s, p)]) = (PriorityQueue.update (pq_updates q ups) s p).2.
Proof. unfold pq_updates. by rewrite fold_left_app. Qed.

Lemma pq_updates_lookup ups : ∀ q s p,
  PriorityQueue.priorities (pq_updates q ups) !! s = Some p →
  PriorityQueue.priorities q !! s = Some p ∨ (s, p) ∈ ups.
Proof.
  induction ups as [|[s0 p0] ups IH]; intros q s p H; [by left|].
  simpl in H. apply IH in H as [H|H]; [|right; by right].
  destruct ((PriorityQueue.update q s0 p0).1) eqn:Hb.
  - rewrite update_true in H by done. simpl in H.
    destruct (decide (s0 = s)) as [->|Hne].
    + rewrite lookup_insert_eq in H. injection H as <-. right. by left.
    + rewrite lookup_insert_ne in H by done. by left.
  - rewrite update_false in H by done. by left.
Qed.

(** X1. After any sequence of [update] and [removeMin] calls that passes
    no priority below the sentinel, [removeMin] returns the state with the
    least stored priority among the states that are not finalized (the
    least state among those of that priority), together with that
    priority; it returns [(None, None)] exactly when every stored state is
    finalized. *)
Theorem removeMin_returns_least (ops : list PriorityQueue.op) :
  Forall above_sentinel ops →
  ∃ returned q,
    PriorityQueue.run ops PriorityQueue.init [] = Ret (returned, q) ∧
    ((PriorityQueue.removeMin q
      = Ret (None, PriorityQueue.mk [] (PriorityQueue.priorities q)) ∧
      ∀ s pr, PriorityQueue.priorities q !! s = Some pr → pr = PriorityQueue.DONE) ∨
     (∃ s p rest,
         PriorityQueue.removeMin q
         = Ret (Some (s, p),
                PriorityQueue.mk rest
                  (<[s := PriorityQueue.DONE]> (PriorityQueue.priorities q))) ∧
         PriorityQueue.priorities q !! s = Some p ∧ p ≠ PriorityQueue.DONE ∧
         ∀ s' p', PriorityQueue.priorities q !! s' = Some p' →
                  p' ≠ PriorityQueue.DONE → p < p' ∨ (p = p' ∧ s ≤ s'))).
Proof.
  intros Hops.
  destruct (run_pq_inv ops PriorityQueue.init [] Hops pq_inv_init)
    as (returned & q & Hrun & Hq).
  exists returned, q. split; [done|].
  destruct (removeMin_least q Hq)
    as [(Hr & Hall & _)|(s & p & rest & Hr & Hs & Hp & Hmin & _)].
  - by left.
  - right. exists s, p, rest. split_and!; [done..|].
    intros s' p' Hs' Hp'. apply (Hmin s' p' Hs' Hp').
Qed.

Lemma removeMin_returns_least_witness :
  ∃ returned q,
    PriorityQueue.run
      [PriorityQueue.Update 7 5; PriorityQueue.Update 4 9;
       PriorityQueue.Update 4 5; PriorityQueue.RemoveMin;
       PriorityQueue.Update 2 8]
      PriorityQueue.init [] = Ret (returned, q) ∧
    ((PriorityQueue.removeMin q
      = Ret (None, PriorityQueue.mk [] (PriorityQueue.priorities q)) ∧
      ∀ s pr, PriorityQueue.priorities q !! s = Some pr → pr = PriorityQueue.DONE) ∨
     (∃ s p rest,
         PriorityQueue.removeMin q
         = Ret (Some (s, p),
                PriorityQueue.mk rest
                  (<[s := PriorityQueue.DONE]> (PriorityQueue.priorities q))) ∧
         PriorityQueue.priorities q !! s = Some p ∧ p ≠ PriorityQueue.DONE ∧
         ∀ s' p', PriorityQueue.priorities q !! s' = Some p' →
                  p' ≠ PriorityQueue.DONE → p < p' ∨ (p = p' ∧ s ≤ s'))).
Proof.
  apply removeMin_returns_least.
  repeat (apply Forall_cons; split; [simpl; unfold PriorityQueue.DONE; try lia; done|]).
  by apply Forall_nil.
Defined.

(** X2. After any sequence of [update] calls on a new queue, the priority
    stored for a state is the least priority that was passed for it, and no
    priority is stored for a state that was never updated. *)
Theorem update_keeps_least (ups : list (State * Z)) (s : State) :
  match PriorityQueue.priorities (pq_updates PriorityQueue.init ups) !! s with
  | Some m => (s, m) ∈ ups ∧ ∀ p, (s, p) ∈ ups → m ≤ p
  | None => ∀ p, (s, p) ∉ ups
  end.
Proof.
  induction ups as [|[s0 p0] ups IH] using rev_ind.
  - simpl. rewrite lookup_empty. by intros p ?%elem_of_nil.
  - rewrite pq_updates_snoc.
    set (q := pq_updates PriorityQueue.init ups) in *.
    pose proof (update_true_iff q s0 p0) as Hiff.
    destruct ((PriorityQueue.update q s0 p0).1) eqn:Hb.
    + rewrite update_true by done. simpl.
      destruct (decide (s0 = s)) as [->|Hne].
      * rewrite lookup_insert_eq. split; [set_solver|].
        intros p [Hin|[= ->]%list_elem_of_singleton]%elem_of_app; [|lia].
        destruct Hiff as [[Hn|(o & Ho & Hlt)] _]; [done| |].
        -- rewrite Hn in IH. by destruct (IH p).
        -- rewrite Ho in IH. destruct IH as [_ IH]. specialize (IH p Hin). lia.
      * rewrite lookup_insert_ne by done.
        destruct (PriorityQueue.priorities q !! s) as [m|].
        -- destruct IH as [Hin Hmin]. split; [set_solver|].
           intros p [?|[= ? ?]%list_elem_of_singleton]%elem_of_app; [auto|done].
        -- intros p [?|[= ? ?]%list_elem_of_singleton]%elem_of_app; [|done].
           by apply (IH p).
    + rewrite update_false by done.
      destruct (decide (s0 = s)) as [->|Hne].
      * destruct (PriorityQueue.priorities q !! s) as [m|] eqn:Hm.
        -- destruct IH as [Hin Hmin]. split; [set_solver|].
           intros p [?|[= ->]%list_elem_of_singleton]%elem_of_app; [auto|].
           destruct (Z.le_gt_cases m p0); [done|].
           assert (false = true); [|done]. apply Hiff. right. exists m. split; [done|lia].
        -- assert (false = true); [|done]. apply Hiff. by left.
      * destruct (PriorityQueue.priorities q !! s) as [m|].
        -- destruct IH as [Hin Hmin]. split; [set_solver|].
           intros p [?|[= ? ?]%list_elem_of_singleton]%elem_of_app; [auto|done].
        -- intros p [?|[= ? ?]%list_elem_of_singleton]%elem_of_app; [|done].
           by apply (IH p).
Qed.

(** X3. The priorities [removeMin] returns never decrease, as long as the
    updates made in between pass no priority below the one returned last:
    this is the order in which uniform-cost search, with edge costs that
    are not negative, finalizes its states. *)
Theorem removeMin_priorities_ascend (ops : list PriorityQueue.op)
    (returned : list State) (q q1 q3 : PriorityQueue.t)
    (s1 s2 : State) (p1 p2 : Z) (ups : list (State * Z)) :
  Forall above_sentinel ops →
  PriorityQueue.run ops PriorityQueue.init [] = Ret (returned, q) →
  PriorityQueue.removeMin q = Ret (Some (s1, p1), q1) →
  Forall (λ sp, p1 ≤ sp.2) ups →
  PriorityQueue.removeMin (pq_updates q1 ups) = Ret (Some (s2, p2), q3) →
  p1 ≤ p2.
Proof.
  intros Hops Hrun Hr1 Hups Hr2.
  destruct (run_pq_inv ops PriorityQueue.init [] Hops pq_inv_init)
    as (returned' & q' & Hrun' & Hq).
  rewrite Hrun in Hrun'. injection Hrun' as <- <-.
  destruct (removeMin_least q Hq)
    as [(Hr & _)|(s & p & rest & Hr & Hs & Hp & Hmin & Hq1)]; [congruence|].
  rewrite Hr1 in Hr. injection Hr as -> -> ->.
  assert (Hge : PriorityQueue.DONE ≤ p).
  { destruct Hq as (_ & _ & _ & Hge). by eapply Hge. }
  assert (Hq2 : pq_inv (pq_updates
                  (PriorityQueue.mk rest
                     (<[s := PriorityQueue.DONE]> (PriorityQueue.priorities q))) ups)).
  { apply pq_inv_updates; [|done]. eapply Forall_impl; [exact Hups|].
    intros sp Hsp. simpl in Hsp. lia. }
  destruct (removeMin_least _ Hq2)
    as [(Hr & _)|(s' & p' & rest' & Hr & Hs' & Hp' & _)]; [congruence|].
  rewrite Hr2 in Hr. injection Hr as -> -> _.
  apply pq_updates_lookup in Hs' as [Hs'|Hin].
  - simpl in Hs'. destruct (decide (s = s')) as [->|Hne].
    + rewrite lookup_insert_eq in Hs'. congruence.
    + rewrite lookup_insert_ne in Hs' by done.
      specialize (Hmin _ _ Hs' Hp'). unfold PriorityQueue.entry_le in Hmin.
      simpl in Hmin. lia.
  - rewrite Forall_forall in Hups. apply (Hups _ Hin).
Qed.

Lemma removeMin_priorities_ascend_witness :
  ∃ q q1 q3,
    PriorityQueue.run [PriorityQueue.Update 7 5; PriorityQueue.Update 4 9]
                      PriorityQueue.init [] = Ret ([], q) ∧
    PriorityQueue.removeMin q = Ret (Some (7, 5), q1) ∧
    PriorityQueue.removeMin (pq_updates q1 [(4, 6); (3, 8)]) = Ret (Some (4, 6), q3) ∧
    5 ≤ 6.
Proof.
  do 3 eexists.
  split_and!; [vm_compute; reflexivity..|].
  eapply (removeMin_priorities_ascend
            [PriorityQueue.Update 7 5; PriorityQueue.Update 4 9] []
            _ _ _ 7 4 5 6 [(4, 6); (3, 8)]).
  - repeat (apply Forall_cons; split; [simpl; unfold PriorityQueue.DONE; lia|]).
    by apply Forall_nil.
  - vm_compute. reflexivity.
  - vm_compute. reflexivity.
  - repeat (apply Forall_cons; split; [simpl; lia|]). by apply Forall_nil.
  - vm_compute. reflexivity.
Defined.

Lemma run_client_inv ops : ∀ q returned,
  Forall above_sentinel ops → client_inv q returned →
  ∃ returned' q',
    PriorityQueue.run ops q returned = Ret (returned', q') ∧
    client_inv q' returned'.
Proof.
  induction ops as [|o ops IH]; intros q returned Hops Hinv; [simpl; eauto|].
  apply Forall_cons in Hops as [Ho Hops]. destruct o as [s p|]; simpl.
  - apply IH; [done|]. by apply client_inv_update.
  - destruct Hinv as [Hheap Hret]. unfold PriorityQueue.removeMin.
    destruct (removeMin_loop_spec _ _ Hheap)
      as (stale & rest & Hh & Hstale & [[-> ->]|(p & s & rest' & pr & -> & Hpr & Hne & ->)]);
      simpl; apply IH; try done.
    + split; [by intros ? ?%elem_of_nil|done].
    + split; simpl.
      * intros e He. destruct (decide (s = e.2)) as [->|];
          [rewrite lookup_insert_eq|rewrite lookup_insert_ne]; eauto.
        apply Hheap. rewrite Hh. set_solver.
      * intros s' [Hs'| ->%list_elem_of_singleton]%elem_of_app;
          [|by rewrite lookup_insert_eq].
        destruct (decide (s = s')) as [->|];
          [by rewrite lookup_insert_eq|rewrite lookup_insert_ne]; auto.
Qed.

(** A state whose stored priority is the sentinel is never returned. *)
Lemma run_skips_finalized s ops : ∀ q returned,
  Forall above_sentinel ops →
  (∀ e, e ∈ PriorityQueue.heap q → is_Some (PriorityQueue.priorities q !! e.2)) →
  PriorityQueue.priorities q !! s = Some PriorityQueue.DONE →
  s ∉ returned →
  ∃ returned' q',
    PriorityQueue.run ops q returned = Ret (returned', q') ∧ s ∉ returned'.
Proof.
  induction ops as [|o ops IH]; intros q returned Hops Hheap Hs Hnot; [simpl; eauto|].
  apply Forall_cons in Hops as [Ho Hops]. destruct o as [s0 p0|]; simpl.
  - destruct (client_inv_update q [s] s0 p0 Ho) as [Hheap' Hs'].
    { split; [done|]. by intros ? ->%list_elem_of_singleton. }
    apply IH; [done|done| |done]. apply Hs'. by left.
  - unfold PriorityQueue.removeMin.
    destruct (removeMin_loop_spec _ _ Hheap)
      as (stale & rest & Hh & Hstale & [[-> ->]|(p & s' & rest' & pr & -> & Hpr & Hne & ->)]);
      simpl; apply IH; try done.
    + by intros ? ?%elem_of_nil.
    + simpl. intros e He. destruct (decide (s' = e.2)) as [->|];
        [rewrite lookup_insert_eq|rewrite lookup_insert_ne]; eauto.
      apply Hheap. rewrite Hh. set_solver.
    + simpl. rewrite lookup_insert_ne; [done|]. intros ->. congruence.
    + intros [?| ->%list_elem_of_singleton]%elem_of_app; [done|]. congruence.
Qed.

(** X4. The sentinel is an ordinary priority: [update] of a state that has
    no stored priority with the priority -100000 returns true, yet stores
    the state as finalized; whatever calls follow (none with a priority
    below the sentinel), [removeMin] never returns that state. *)
Theorem sentinel_priority_loses_state (ops0 ops : list PriorityQueue.op)
    (returned0 : list State) (q : PriorityQueue.t) (s : State) :
  Forall above_sentinel ops0 → Forall above_sentinel ops →
  PriorityQueue.run ops0 PriorityQueue.init [] = Ret (returned0, q) →
  PriorityQueue.priorities q !! s = None →
  (PriorityQueue.update q s PriorityQueue.DONE).1 = true ∧
  ∃ returned q',
    PriorityQueue.run ops (PriorityQueue.update q s PriorityQueue.DONE).2 returned0
    = Ret (returned, q') ∧
    s ∉ returned.
Proof.
  intros Hops0 Hops Hrun Hs.
  destruct (run_client_inv ops0 PriorityQueue.init [] Hops0)
    as (returned' & q'' & Hrun' & Hheap & Hret).
  { split; [by intros ? ?%elem_of_nil|by intros ? ?%elem_of_nil]. }
  rewrite Hrun in Hrun'. injection Hrun' as <- <-.
  assert (Hb : (PriorityQueue.update q s PriorityQueue.DONE).1 = true).
  { apply update_true_iff. by left. }
  split; [done|]. rewrite update_true by done.
  apply run_skips_finalized; simpl; [done| |by rewrite lookup_insert_eq|].
  - intros e [->|He]%elem_of_heappush; simpl.
    + rewrite lookup_insert_eq. eauto.
    + destruct (decide (s = e.2)) as [->|];
        [rewrite lookup_insert_eq|rewrite lookup_insert_ne]; eauto.
  - intros Hin. apply Hret in Hin. congruence.
Qed.

Lemma sentinel_priority_loses_state_witness :
  ∃ q,
    PriorityQueue.run [PriorityQueue.Update 7 5; PriorityQueue.RemoveMin]
                      PriorityQueue.init [] = Ret ([7], q) ∧
    (PriorityQueue.update q 4 PriorityQueue.DONE).1 = true ∧
    ∃ returned q',
      PriorityQueue.run [PriorityQueue.Update 4 3; PriorityQueue.RemoveMin]
                        (PriorityQueue.update q 4 PriorityQueue.DONE).2 [7]
      = Ret (returned, q') ∧
      4 ∉ returned.
Proof.
  eexists. split; [vm_compute; reflexivity|].
  eapply (sentinel_priority_loses_state
            [PriorityQueue.Update 7 5; PriorityQueue.RemoveMin]
            [PriorityQueue.Update 4 3; PriorityQueue.RemoveMin] [7] _ 4).
  - repeat (apply Forall_cons; split; [simpl; unfold PriorityQueue.DONE; try lia; done|]).
    by apply Forall_nil.
  - repeat (apply Forall_cons; split; [simpl; unfold PriorityQueue.DONE; try lia; done|]).
    by apply Forall_nil.
  - vm_compute. reflexivity.
  - vm_compute. reflexivity.
Defined.

(** * Further properties of uniform-cost search *)

Lemma relax_keys start state pc frontier bp e :
  ucs_keys_inv start frontier bp →
  is_Some (PriorityQueue.priorities frontier !! state) →
  ucs_keys_inv start (UniformCostSearch.relax state pc (frontier, bp) e).1
                     (UniformCostSearch.relax state pc (frontier, bp) e).2 ∧
  is_Some (PriorityQueue.priorities
             (UniformCostSearch.relax state pc (frontier, bp) e).1 !! state).
Proof.
  intros (Hheap & Hbp & Hprev) Hstate. destruct e as [[a v] c].
  unfold UniformCostSearch.relax. simpl.
  pose proof (update_true frontier v (pc + c)) as Htrue.
  pose proof (update_false frontier v (pc + c)) as Hfalse.
  destruct (PriorityQueue.update frontier v (pc + c)) as [b f'] eqn:Hupd.
  simpl in *. destruct b; simpl.
  - rewrite Htrue by done. split; [split_and!; simpl|simpl].
    + intros x [->|Hx]%elem_of_heappush; simpl.
      * rewrite lookup_insert_eq. eauto.
      * destruct (decide (v = x.2)) as [->|];
          [rewrite lookup_insert_eq|rewrite lookup_insert_ne]; eauto.
    + intros s Hs. destruct (decide (v = s)) as [->|Hne].
      * right. rewrite lookup_insert_eq. eauto.
      * rewrite lookup_insert_ne in Hs by done. rewrite lookup_insert_ne by done. auto.
    + intros s a' u Hs. destruct (decide (v = s)) as [<-|Hne].
      * rewrite lookup_insert_eq in Hs. injection Hs as <- <-.
        destruct (decide (v = state)) as [->|];
          [rewrite lookup_insert_eq|rewrite lookup_insert_ne]; eauto.
      * rewrite lookup_insert_ne in Hs by done.
        destruct (decide (v = u)) as [->|];
          [rewrite lookup_insert_eq|rewrite lookup_insert_ne]; eauto.
    + destruct (decide (v = state)) as [->|];
        [rewrite lookup_insert_eq|rewrite lookup_insert_ne]; eauto.
  - rewrite Hfalse by done. done.
Qed.

Lemma fold_relax_keys start state pc l : ∀ frontier bp,
  ucs_keys_inv start frontier bp →
  is_Some (PriorityQueue.priorities frontier !! state) →
  ucs_keys_inv start
    (fold_left (UniformCostSearch.relax state pc) l (frontier, bp)).1
    (fold_left (UniformCostSearch.relax state pc) l (frontier, bp)).2.
Proof.
  induction l as [|e l IH]; intros frontier bp Hinv Hstate; [done|]. simpl.
  destruct (relax_keys start state pc frontier bp e Hinv Hstate) as [Hinv' Hstate'].
  destruct (UniformCostSearch.relax state pc (frontier, bp) e) as [f1 bp1].
  by apply IH.
Qed.

Lemma walk_back_never_raises start frontier bp fuel : ∀ s acts e,
  ucs_keys_inv start frontier bp →
  is_Some (PriorityQueue.priorities frontier !! s) →
  UniformCostSearch.walk_back fuel bp start s acts ≠ Raise e.
Proof.
  induction fuel as [|fuel IH]; intros s acts e Hinv Hs; [done|]. simpl.
  destruct (bool_decide (s = start)) eqn:Hst; [done|].
  apply bool_decide_eq_false in Hst.
  destruct Hinv as (Hheap & Hbp & Hprev).
  destruct (Hbp s Hs) as [?|[[a u] Hau]]; [done|]. rewrite Hau.
  apply IH; [done|]. by eapply Hprev.
Qed.

Lemma ucs_loop_never_raises wfuel fuel P : ∀ frontier bp explored calls e,
  ucs_keys_inv (startState P) frontier bp →
  UniformCostSearch.loop wfuel fuel P frontier bp explored calls ≠ Raise e.
Proof.
  induction fuel as [|fuel IH]; intros frontier bp explored calls e Hinv; [done|].
  rewrite ucs_loop_S. destruct Hinv as (Hheap & Hbp & Hprev).
  unfold PriorityQueue.removeMin.
  destruct (removeMin_loop_spec _ _ Hheap)
    as (stale & rest & Hh & Hstale & [[-> ->]|(p & s & rest' & pr & -> & Hpr & Hne & ->)]);
    [done|]. simpl.
  assert (Hinv1 : ucs_keys_inv (startState P)
            (PriorityQueue.mk rest'
               (<[s := PriorityQueue.DONE]> (PriorityQueue.priorities frontier))) bp).
  { split_and!; simpl.
    - intros x Hx. destruct (decide (s = x.2)) as [->|];
        [rewrite lookup_insert_eq|rewrite lookup_insert_ne]; eauto.
      apply Hheap. rewrite Hh. set_solver.
    - intros k Hk. apply Hbp. destruct (decide (s = k)) as [->|]; [eauto|].
      by rewrite lookup_insert_ne in Hk.
    - intros k a u Hk. destruct (decide (s = u)) as [->|];
        [rewrite lookup_insert_eq|rewrite lookup_insert_ne]; eauto. }
  destruct (isGoal P s).
  - destruct (UniformCostSearch.walk_back wfuel bp (startState P) s []) as [acts|e'|] eqn:E;
      [done| |done].
    apply (walk_back_never_raises _ _ _ _ _ _ _ Hinv1) in E; [done|].
    simpl. rewrite lookup_insert_eq. eauto.
  - pose proof (fold_relax_keys (startState P) s p (succAndCost P s) _ _ Hinv1) as Hinv2.
    destruct (fold_left _ _ _) as [f2 bp2]. apply IH. apply Hinv2.
    simpl. rewrite lookup_insert_eq. eauto.
Qed.

(** X5. On every problem, whatever the edge costs, [solve] of
    [UniformCostSearch] raises no exception: every state the heap holds has
    a stored priority, and the backpointer walk only meets states that have
    a backpointer or are the start state. *)
Theorem ucs_never_raises (fuel : nat) (P : SearchProblem) (e : exn) :
  UniformCostSearch.solve fuel P ≠ Raise e.
Proof.
  unfold UniformCostSearch.solve. apply ucs_loop_never_raises.
  unfold PriorityQueue.update, PriorityQueue.init. simpl. rewrite lookup_empty. simpl.
  split_and!; simpl.
  - intros x ->%list_elem_of_singleton. simpl. rewrite lookup_insert_eq. eauto.
  - intros s Hs. destruct (decide (startState P = s)) as [<-|Hne]; [by left|].
    rewrite lookup_insert_ne, lookup_empty in Hs by done. by destruct Hs.
  - intros s a u Hs. by rewrite lookup_empty in Hs.
Qed.

Lemma relax_done state pc frontier bp e x :
  0 ≤ pc + edge_cost e →
  PriorityQueue.priorities frontier !! x = Some PriorityQueue.DONE →
  PriorityQueue.priorities (UniformCostSearch.relax state pc (frontier, bp) e).1 !! x
  = Some PriorityQueue.DONE.
Proof.
  intros Hc Hx. destruct e as [[a v] c]. unfold edge_cost in Hc. simpl in Hc.
  unfold UniformCostSearch.relax. simpl.
  pose proof (update_true frontier v (pc + c)) as Htrue.
  pose proof (update_false frontier v (pc + c)) as Hfalse.
  pose proof (update_true_iff frontier v (pc + c)) as Hiff.
  destruct (PriorityQueue.update frontier v (pc + c)) as [b f'] eqn:Hupd.
  simpl in *. destruct b; simpl; [|by rewrite Hfalse].
  rewrite Htrue by done. simpl.
  destruct (decide (v = x)) as [->|Hne]; [|by rewrite lookup_insert_ne].
  destruct Hiff as [[Hn|(o & Ho & Hlt)] _]; [done|congruence|].
  assert (o = PriorityQueue.DONE) as -> by congruence.
  unfold PriorityQueue.DONE in Hlt. lia.
Qed.

Lemma fold_relax_done state pc l x : ∀ frontier bp,
  (∀ e, e ∈ l → 0 ≤ pc + edge_cost e) →
  PriorityQueue.priorities frontier !! x = Some PriorityQueue.DONE →
  PriorityQueue.priorities
    (fold_left (UniformCostSearch.relax state pc) l (frontier, bp)).1 !! x
  = Some PriorityQueue.DONE.
Proof.
  induction l as [|e l IH]; intros frontier bp Hl Hx; [done|]. simpl.
  pose proof (relax_done state pc frontier bp e x (Hl e (list_elem_of_here _ _)) Hx) as Hx'.
  destruct (UniformCostSearch.relax state pc (frontier, bp) e) as [f1 bp1].
  apply IH; [|done]. intros e' He'. apply Hl. by right.
Qed.

Section ucs_count.
Context (P : SearchProblem) (states : list State).
Hypothesis Hclosed : closed P states.
Hypothesis Hnonneg : nonneg P states.

Lemma NoDup_length_states (l : list State) :
  NoDup l → (∀ s, s ∈ l → s ∈ states) → (length l ≤ length states)%nat.
Proof. intros Hnd Hin. apply submseteq_length. by apply NoDup_submseteq. Qed.

Lemma ucs_loop_count wfuel fuel : ∀ s0 p0 frontier bp explored calls r,
  ucs_inv P states s0 p0 (succAndCost P s0) frontier bp →
  ucs_calls_inv P states (PriorityQueue.priorities frontier) explored calls →
  UniformCostSearch.loop wfuel fuel P frontier bp explored calls = Ret r →
  ucs_count_post P states r.
Proof.
  induction fuel as [|fuel IH];
    intros s0 p0 frontier bp explored calls r I (Hexp & Hnd & Hcalls) H; [done|].
  rewrite ucs_loop_S in H.
  destruct (remove_inv P states Hclosed Hnonneg _ _ _ _ I)
    as [[Hrm Hnone]|(s & p & rest & Hrm & Hp & Hne & Hmin & Hnext)];
    rewrite Hrm in H; simpl in H.
  - injection H as <-. split_and!; simpl; [done| |lia| |done].
    + rewrite Hexp. apply NoDup_length_states; [done|]. intros x Hx. by apply Hcalls.
    + intros x Hx. by destruct (Hcalls x Hx) as (_ & ? & ?).
  - destruct (inv_chain _ _ _ _ _ _ _ I s p Hp Hne) as (ess & Hchs & _).
    pose proof (chain_in_states P states Hclosed _ _ _ _ Hchs) as Hs.
    assert (Hfresh : s ∉ calls).
    { intros Hin. destruct (Hcalls s Hin) as (Hd & _). congruence. }
    destruct (isGoal P s) eqn:Hgoal.
    + destruct (UniformCostSearch.walk_back wfuel bp (startState P) s [])
        as [acts| |]; simpl in H; [|done..].
      injection H as <-. split_and!; simpl; [done| |lia| |].
      * rewrite Hexp. apply (NoDup_length_states (s :: calls)).
        -- by apply NoDup_cons.
        -- intros x [->|Hx]%elem_of_cons; [done|]. by apply Hcalls.
      * intros x Hx. by destruct (Hcalls x Hx) as (_ & ? & ?).
      * by intros g [= <-].
    + specialize (Hnext eq_refl).
      destruct (fold_relax_inv P states Hclosed Hnonneg s p (succAndCost P s) [] _ _ Hnext)
        as [I' _]; [done|]. simpl in I'.
      destruct (fold_left _ _ _) as [f2 bp2] eqn:Hfold. simpl in *.
      eapply IH; [exact I'| |exact H].
      assert (Hpos : ∀ e, e ∈ succAndCost P s → 0 ≤ p + edge_cost e).
      { intros e He. pose proof (Hnonneg s e Hs He).
        pose proof (inv_cur_nonneg _ _ _ _ _ _ _ Hnext). lia. }
      split_and!.
      * rewrite length_app. simpl. lia.
      * apply NoDup_app. split_and!; [done| |apply NoDup_singleton].
        by intros x Hx ->%list_elem_of_singleton.
      * intros x [Hx| ->%list_elem_of_singleton]%elem_of_app.
        -- destruct (Hcalls x Hx) as (Hd & ? & ?). split_and!; [|done..].
           pose proof (fold_relax_done s p (succAndCost P s) x
                         (PriorityQueue.mk rest
                            (<[s := PriorityQueue.DONE]>
                               (PriorityQueue.priorities frontier))) bp Hpos) as Hdone.
           rewrite Hfold in Hdone. apply Hdone.
           simpl. destruct (decide (s = x)) as [->|];
             [by rewrite lookup_insert_eq|by rewrite lookup_insert_ne].
        -- split_and!; [|done..]. apply I'.
Qed.

Lemma ucs_solve_count fuel r :
  UniformCostSearch.solve fuel P = Ret r → ucs_count_post P states r.
Proof.
  unfold UniformCostSearch.solve. destruct fuel as [|fuel]; [done|].
  rewrite ucs_loop_S.
  unfold PriorityQueue.update, PriorityQueue.init, PriorityQueue.removeMin. simpl.
  rewrite lookup_empty. simpl. rewrite lookup_insert_eq. simpl.
  destruct (isGoal P (startState P)) eqn:Hgoal.
  - rewrite bool_decide_eq_true_2 by done. simpl. intros [= <-].
    split_and!; simpl; [apply NoDup_nil_2| |done|by intros ? ?%elem_of_nil|].
    + pose proof (proj1 Hclosed) as Hin. destruct states; [by apply elem_of_nil in Hin|].
      simpl. lia.
    + intros g [= <-]. split; [by intros ?%elem_of_nil|done].
  - pose proof (init_inv P states Hclosed Hnonneg Hgoal) as I0.
    destruct (fold_relax_inv P states Hclosed Hnonneg _ _
                (succAndCost P (startState P)) [] _ _ I0) as [I' _]; [done|].
    simpl in I'.
    destruct (fold_left _ _ _) as [f2 bp2]. simpl in *.
    intros H. eapply ucs_loop_count; [exact I'| |exact H].
    split_and!; [done|apply NoDup_singleton|].
    intros x ->%list_elem_of_singleton. split_and!; [apply I'|apply Hclosed|done].
Qed.

End ucs_count.

(** X6. On a finite problem with non-negative edge costs, [solve] of
    [UniformCostSearch] calls [succAndCost] at most once on any state and
    never on a goal state; [numStatesExplored] is the number of those calls,
    plus one for the goal state when a solution is found, and it is at most
    the number of states. *)
Theorem ucs_expands_each_state_once (P : SearchProblem) (states : list State) :
  closedb P states = true → nonnegb P states = true →
  ∃ r,
    (∀ fuel, (length states < fuel)%nat →
             UniformCostSearch.solve fuel P = Ret r) ∧
    NoDup (UniformCostSearch.succ_calls r) ∧
    (∀ s, s ∈ UniformCostSearch.succ_calls r → s ∈ states ∧ isGoal P s = false) ∧
    UniformCostSearch.numStatesExplored r
    = (length (UniformCostSearch.succ_calls r)
       + match UniformCostSearch.solution r with Some _ => 1 | None => 0 end)%nat ∧
    (UniformCostSearch.numStatesExplored r ≤ length states)%nat.
Proof.
  intros Hc Hn. destruct (ucs_solve_total P states Hc Hn) as (r & Hr & _).
  exists r. split; [done|].
  apply closedb_spec in Hc. apply nonnegb_spec in Hn.
  destruct (ucs_solve_count P states Hc Hn (S (length states)) r)
    as (? & ? & ? & ? & _); [apply Hr; lia|done].
Qed.

Lemma ucs_expands_each_state_once_witness :
  ∃ r,
    (∀ fuel, (length [0; 1; 2; 3] < fuel)%nat →
             UniformCostSearch.solve fuel diamond = Ret r) ∧
    NoDup (UniformCostSearch.succ_calls r) ∧
    (∀ s, s ∈ UniformCostSearch.succ_calls r →
          s ∈ [0; 1; 2; 3] ∧ isGoal diamond s = false) ∧
    UniformCostSearch.numStatesExplored r
    = (length (UniformCostSearch.succ_calls r)
       + match UniformCostSearch.solution r with Some _ => 1 | None => 0 end)%nat ∧
    (UniformCostSearch.numStatesExplored r ≤ length [0; 1; 2; 3])%nat.
Proof.
  apply (ucs_expands_each_state_once diamond [0; 1; 2; 3]); reflexivity.
Defined.

(** * Further properties of depth-first search *)

Section dfs_more.
Import DepthFirstSearch.
Context (P : SearchProblem).

Lemma for_body_overflows rec pc a t c h st :
  rec t (pc + c) (h ++ [(a, t, c)], st) = Raise RecursionError →
  for_body rec pc (a, t, c) (h, st) = Raise RecursionError.
Proof. intros H. unfold for_body. simpl. by rewrite H. Qed.

Lemma for_each_safe rec pc l : ∀ h st,
  (∀ s pc' h' st', (∃ st'', rec s pc' (h', st') = Ret (h', st'')) ∨
                    rec s pc' (h', st') = Raise RecursionError) →
  (∃ st', for_each (for_body rec pc) l (h, st) = Ret (h, st')) ∨
  for_each (for_body rec pc) l (h, st) = Raise RecursionError.
Proof.
  induction l as [|[[a t] c] l IH]; intros h st Hrec; [left; by eexists|].
  cbn [for_each].
  destruct (Hrec t (pc + c) (h ++ [(a, t, c)]) st) as [[st1 Hrun]|Hrun].
  - rewrite (for_body_run _ _ _ _ _ _ _ _ Hrun). by apply IH.
  - right. by rewrite (for_body_overflows _ _ _ _ _ _ _ Hrun).
Qed.

(** A call returns with the history it was given, or uses up the call
    stack. *)
Lemma dfs_recurse_safe limit : ∀ s pc h st,
  (∃ st', recurse limit P s pc (h, st) = Ret (h, st')) ∨
  recurse limit P s pc (h, st) = Raise RecursionError.
Proof.
  induction limit as [|limit IH]; intros s pc h st; [by right|].
  rewrite dfs_recurse_S. destruct (solution st); [left; by eexists|].
  destruct (isGoal P s); [left; by eexists|]. by apply for_each_safe.
Qed.

Lemma dfs_recurse_history limit s pc h st h' st' :
  recurse limit P s pc (h, st) = Ret (h', st') → h' = h.
Proof.
  intros H. destruct (dfs_recurse_safe limit s pc h st) as [[st'' H']|H']; congruence.
Qed.

Lemma dfs_recurse_kept limit s pc h st h' st' :
  recurse limit P s pc (h, st) = Ret (h', st') → solution st ≠ None → st' = st.
Proof.
  destruct limit as [|limit]; [done|]. rewrite dfs_recurse_S.
  destruct (solution st); [|done]. by intros [= _ <-].
Qed.

Lemma for_body_Ret_inv rec pc e h st h' st' :
  (∀ s pc' h0 st0 h1 st1, rec s pc' (h0, st0) = Ret (h1, st1) → h1 = h0) →
  for_body rec pc e (h, st) = Ret (h', st') →
  h' = h ∧ rec (edge_dest e) (pc + edge_cost e) (h ++ [e], st) = Ret (h ++ [e], st').
Proof.
  intros Hhist H. destruct e as [[a t] c]. unfold for_body, edge_dest, edge_cost in *.
  simpl in *. apply bind_Ret_inv in H as ([h1 st1] & Hrec & H).
  pose proof (Hhist _ _ _ _ _ _ Hrec) as ->. rewrite pop_snoc in H. simpl in H.
  by injection H as <- <-.
Qed.

Lemma dfs_account_refl st : dfs_account P st st.
Proof.
  split; [done|]. exists []. rewrite app_nil_r. split_and!; [done|set_solver| |].
  - simpl. lia.
  - simpl. destruct (solution st); lia.
Qed.

Lemma dfs_account_trans st st1 st2 :
  dfs_account P st st1 → dfs_account P st1 st2 → dfs_account P st st2.
Proof.
  intros [Hk1 (new1 & Hc1 & Hg1 & Hs1 & Hn1)] [Hk2 (new2 & Hc2 & Hg2 & Hs2 & Hn2)].
  destruct (solution st) as [g|] eqn:Hsol.
  { assert (st1 = st) as -> by (by apply Hk1).
    assert (st2 = st) as -> by (apply Hk2; by rewrite Hsol).
    apply dfs_account_refl. }
  split; [done|].
  destruct (solution st1) as [g1|] eqn:Hsol1.
  - assert (st2 = st1) as -> by (by apply Hk2).
    exists new1. rewrite Hsol1, Hsol. by split_and!.
  - exists (new1 ++ new2). split_and!.
    + by rewrite Hc2, Hc1, app_assoc.
    + intros x [?|?]%elem_of_app; auto.
    + rewrite Hs2, Hs1, sum_list_with_app. lia.
    + rewrite Hn2, Hn1, length_app. rewrite ?Hsol, ?Hsol1.
      destruct (solution st2); lia.
Qed.

Lemma for_each_account rec pc l : ∀ h st h' st',
  (∀ s pc' h0 st0 h1 st1, rec s pc' (h0, st0) = Ret (h1, st1) →
     h1 = h0 ∧ dfs_account P st0 st1) →
  for_each (for_body rec pc) l (h, st) = Ret (h', st') →
  dfs_account P st st'.
Proof.
  induction l as [|e l IH]; intros h st h' st' Hrec H.
  - injection H as <- <-. apply dfs_account_refl.
  - cbn [for_each] in H. apply bind_Ret_inv in H as ([h1 st1] & Hbody & Hloop).
    apply for_body_Ret_inv in Hbody as [-> Hbody]; [|intros; by eapply Hrec].
    apply Hrec in Hbody as [_ Hacc]. eapply dfs_account_trans; [exact Hacc|].
    by eapply IH.
Qed.

Lemma dfs_recurse_account limit : ∀ s pc h st h' st',
  recurse limit P s pc (h, st) = Ret (h', st') → dfs_account P st st'.
Proof.
  induction limit as [|limit IH]; intros s pc h st h' st' H; [done|].
  rewrite dfs_recurse_S in H. destruct (solution st) as [g|] eqn:Hsol.
  { injection H as <- <-. apply dfs_account_refl. }
  destruct (isGoal P s) eqn:Hgoal.
  - injection H as <- <-. split; [by rewrite Hsol|]. exists [].
    simpl. rewrite app_nil_r, Hsol. split_and!; [done|set_solver|lia|lia].
  - apply for_each_account in H.
    2:{ intros s1 pc1 h0 st0 h1 st1 Hr. split; [by eapply dfs_recurse_history|by eapply IH]. }
    destruct H as [_ (new & Hc & Hg & Hs & Hn)]. simpl in *.
    split; [by rewrite Hsol|]. exists (s :: new). rewrite Hsol. split_and!.
    + by rewrite Hc, <- app_assoc.
    + intros x [->|?]%elem_of_cons; auto.
    + rewrite Hs. simpl. lia.
    + rewrite Hn. simpl. lia.
Qed.

(** The [for] loop, for a run that returns. *)
Lemma for_each_left rec pc l : ∀ h st h' st',
  (∀ s pc' h0 st0 h1 st1, rec s pc' (h0, st0) = Ret (h1, st1) →
     h1 = h0 ∧ (solution st0 ≠ None → st1 = st0) ∧
     (solution st0 = None → dfs_left P s pc' h0 st0 st1)) →
  for_each (for_body rec pc) l (h, st) = Ret (h', st') →
  solution st = None →
  (∃ l1 e l2 es,
      l = l1 ++ e :: l2 ∧ (∀ e', e' ∈ l1 → no_goal_from P (edge_dest e')) ∧
      leftmost P (edge_dest e) es ∧
      solution st' = Some (end_state (edge_dest e) es) ∧
      actions st' = Some (path_actions (h ++ e :: es)) ∧
      totalCost st' = Some (pc + edge_cost e + path_cost es)) ∨
  ((∀ e, e ∈ l → no_goal_from P (edge_dest e)) ∧
   solution st' = None ∧ actions st' = actions st ∧ totalCost st' = totalCost st).
Proof.
  intros h st h' st' Hrec.
  assert (Hkeep : ∀ l0 h st h' st',
            for_each (for_body rec pc) l0 (h, st) = Ret (h', st') →
            solution st ≠ None → st' = st).
  { clear h st h' st'. intros l0.
    induction l0 as [|e l0 IH]; intros h st h' st' H Hsol.
    - by injection H as <- <-.
    - cbn [for_each] in H. apply bind_Ret_inv in H as ([h1 st1] & Hbody & Hloop).
      apply for_body_Ret_inv in Hbody as [-> Hbody]; [|intros; by eapply Hrec].
      apply Hrec in Hbody as (_ & Hk & _). rewrite Hk in Hloop by done.
      by eapply IH. }
  revert h st h' st'. induction l as [|e l IH]; intros h st h' st' H Hsol.
  - injection H as <- <-. right. split_and!; try done. by intros e ?%elem_of_nil.
  - cbn [for_each] in H. apply bind_Ret_inv in H as ([h1 st1] & Hbody & Hloop).
    apply for_body_Ret_inv in Hbody as [-> Hbody]; [|intros; by eapply Hrec].
    apply Hrec in Hbody as (_ & _ & Hout).
    destruct (Hout Hsol) as [(es & Hes & Hs & Ha & Ht)|(Hno & Hs & Ha & Ht)].
    + left. exists [], e, l, es.
      rewrite (Hkeep _ _ _ _ _ Hloop) by congruence.
      split_and!; try done; [by intros ? ?%elem_of_nil|].
      rewrite Ha. by rewrite <- app_assoc.
    + destruct (IH _ _ _ _ Hloop Hs)
        as [(l1 & e' & l2 & es & -> & Hl1 & Hes & Hs' & Ha' & Ht')|
            (Hno' & Hs' & Ha' & Ht')].
      * left. exists (e :: l1), e', l2, es. split_and!; try done.
        intros x [->|?]%elem_of_cons; auto.
      * right. split_and!; [|done|congruence|congruence].
        intros x [->|?]%elem_of_cons; auto.
Qed.

Lemma dfs_recurse_left limit : ∀ s pc h st h' st',
  recurse limit P s pc (h, st) = Ret (h', st') →
  solution st = None → dfs_left P s pc h st st'.
Proof.
  induction limit as [|limit IH]; intros s pc h st h' st' H Hsol; [done|].
  rewrite dfs_recurse_S, Hsol in H. destruct (isGoal P s) eqn:Hgoal.
  - injection H as <- <-. left. exists []. simpl. rewrite app_nil_r.
    split_and!; try done. f_equal. unfold path_cost. simpl. lia.
  - apply for_each_left in H; [|
      intros s1 pc1 h0 st0 h1 st1 Hr; split_and!;
      [by eapply dfs_recurse_history|by eapply dfs_recurse_kept|by eapply IH] |done].
    destruct H as [(l1 & e & l2 & es & Hl & Hl1 & Hes & Hs & Ha & Ht)|
                   (Hno & Hs & Ha & Ht)].
    + left. exists (e :: es). simpl. split_and!; try done; [by eauto|].
      rewrite Ht. f_equal. unfold path_cost, edge_cost. simpl. lia.
    + right. split_and!; try done.
      intros [|e es]; simpl; [done|]. intros [He Hes]. by apply (Hno e).
Qed.

Lemma leftmost_path s es :
  leftmost P s es → is_path P s es ∧ isGoal P (end_state s es) = true.
Proof.
  revert s. induction es as [|e es IH]; intros s; simpl; [done|].
  intros (_ & (l1 & l2 & Hl & _) & Hes). apply IH in Hes as [? ?].
  split_and!; [|done..]. rewrite Hl. set_solver.
Qed.

Lemma leftmost_unique s es es' : leftmost P s es → leftmost P s es' → es = es'.
Proof.
  revert s es'. induction es as [|e es IH]; intros s [|e' es']; simpl.
  - done.
  - intros ? [? _]. congruence.
  - intros [? _] ?. congruence.
  - intros (_ & (l1 & l2 & Hl & Hno) & Hes) (_ & (l1' & l2' & Hl' & Hno') & Hes').
    assert (e = e') as <-; [|f_equal; by eapply IH].
    pose proof (leftmost_path _ _ Hes) as [Hp Hg].
    pose proof (leftmost_path _ _ Hes') as [Hp' Hg'].
    rewrite Hl in Hl'. clear Hl.
    revert l1' Hl' Hno'. induction l1 as [|x l1 IHl]; intros [|x' l1'] Hl' Hno'.
    + by injection Hl'.
    + injection Hl' as -> _. specialize (Hno' x' (list_elem_of_here _ _) es Hp). congruence.
    + injection Hl' as -> _. specialize (Hno e' (list_elem_of_here _ _) es' Hp'). congruence.
    + injection Hl' as -> Hl'. eapply IHl; [|exact Hl'|].
      * intros y Hy. apply Hno. by right.
      * intros y Hy. apply Hno'. by right.
Qed.

(** The total cost [solve] sets is the cost of a path to a goal. *)
Lemma dfs_solve_cost limit r c :
  solve limit P = Ret r → totalCost r = Some c →
  ∃ es, solution_path P es ∧ path_cost es = c.
Proof.
  unfold solve. intros H Hc.
  apply bind_Ret_inv in H as ([h st] & Hrun & H). injection H as ->.
  apply dfs_recurse_left in Hrun; [|done].
  destruct Hrun as [(es & Hes & _ & _ & Ht)|(_ & _ & _ & Ht)]; simpl in *.
  - exists es. split; [by apply leftmost_path|]. rewrite Ht in Hc.
    injection Hc as <-. lia.
  - congruence.
Qed.

End dfs_more.

(** X7. On a finite acyclic problem with non-negative edge costs, a
    reachable goal and fewer states than the call stack admits nested calls
    of [recurse], both searches return, and the total cost of uniform-cost
    search is at most the total cost of depth-first search.  Without the
    bound on the call stack the comparison still holds whenever the
    depth-first search returns with a total cost. *)
Theorem ucs_cost_at_most_dfs_cost (P : SearchProblem) (states : list State) :
  closedb P states = true → nonnegb P states = true →
  (∃ es, solution_path P es) →
  ∃ r c,
    (∀ fuel, (length states < fuel)%nat →
             UniformCostSearch.solve fuel P = Ret r) ∧
    UniformCostSearch.totalCost r = Some c ∧
    (∀ limit r' c',
       DepthFirstSearch.solve limit P = Ret r' →
       DepthFirstSearch.totalCost r' = Some c' → c ≤ c') ∧
    (acyclic P →
     ∀ limit, (length states < limit)%nat →
       ∃ r' c', DepthFirstSearch.solve limit P = Ret r' ∧
                DepthFirstSearch.totalCost r' = Some c').
Proof.
  intros Hc Hn [es0 Hes0].
  destruct (ucs_solve_total P states Hc Hn)
    as (r & Hr & [(_ & _ & _ & Hno)|(es & Hes & _ & Ht & _ & Hmin)]);
    [by destruct (Hno es0)|].
  exists r, (path_cost es). split_and!; [done|done| |].
  - intros limit r' c' Hr' Hc'.
    destruct (dfs_solve_cost P limit r' c' Hr' Hc') as (es' & Hes' & <-).
    by apply Hmin.
  - intros Hacyc limit Hlimit. apply closedb_spec in Hc.
    destruct (dfs_solve_outcome P states limit Hc Hacyc Hlimit)
      as (r' & Hr' & [(es' & Hes' & _ & _ & Ht')|(Hno & _)]);
      [|by destruct (Hno es0)].
    by exists r', (path_cost es').
Qed.

Lemma ucs_cost_at_most_dfs_cost_witness :
  ∃ r c,
    (∀ fuel, (length [0; 1; 3] < fuel)%nat →
             UniformCostSearch.solve fuel detour = Ret r) ∧
    UniformCostSearch.totalCost r = Some c ∧
    (∀ limit r' c',
       DepthFirstSearch.solve limit detour = Ret r' →
       DepthFirstSearch.totalCost r' = Some c' → c ≤ c') ∧
    (acyclic detour →
     ∀ limit, (length [0; 1; 3] < limit)%nat →
       ∃ r' c', DepthFirstSearch.solve limit detour = Ret r' ∧
                DepthFirstSearch.totalCost r' = Some c').
Proof.
  apply (ucs_cost_at_most_dfs_cost detour [0; 1; 3]); [reflexivity|reflexivity|].
  exists [(1, 3, 10)]. split; [apply is_pathb_spec|]; reflexivity.
Defined.


(** X8. On every problem the only exception a call of [recurse] of the
    depth-first search raises is the recursion-depth error: no
    [history.pop] meets an empty list.  When the call returns, the shared
    history is the list it was entered with: every [history.append] has
    been undone by its [history.pop].  The call returns whenever every
    path out of its state has fewer edges than the call stack admits
    nested calls.  So [solve] raises nothing but the recursion-depth error
    either. *)
Theorem dfs_raises_only_recursion_error (limit : nat) (P : SearchProblem)
    (s : State) (pastCost : Z) (history : list Edge) (self : DepthFirstSearch.t) :
  (∀ e, DepthFirstSearch.recurse limit P s pastCost (history, self) = Raise e →
        e = RecursionError) ∧
  (∀ history' self',
      DepthFirstSearch.recurse limit P s pastCost (history, self)
      = Ret (history', self') →
      history' = history) ∧
  (∀ n, height_le P s n → (n < limit)%nat →
      ∃ self', DepthFirstSearch.recurse limit P s pastCost (history, self)
               = Ret (history, self')) ∧
  (∀ e, DepthFirstSearch.solve limit P = Raise e → e = RecursionError).
Proof.
  split_and!.
  - intros e. destruct (dfs_recurse_safe P limit s pastCost history self) as [[st' H]|H];
      congruence.
  - intros h' st' H. by eapply dfs_recurse_history.
  - intros n Hh Hn. destruct limit as [|m]; [lia|].
    destruct (recurse_outcome P m s pastCost history self) as (st' & H & _).
    + eapply height_le_mono; [exact Hh|lia].
    + by exists st'.
  - intros e. unfold DepthFirstSearch.solve.
    destruct (dfs_recurse_safe P limit (startState P) 0 []
                (DepthFirstSearch.mk None None None 0 0 [])) as [[st' H]|H];
      rewrite H; simpl; congruence.
Qed.

(** X9. When [solve] of [DepthFirstSearch] returns, [size] is the sum of
    the numbers of successors of the states [succAndCost] was called on
    (one summand per call), none of these states is a goal, and
    [numStatesExplored] is the number of these calls, plus one for the goal
    state when a solution was found. *)
Theorem dfs_counters (limit : nat) (P : SearchProblem) (r : DepthFirstSearch.t) :
  DepthFirstSearch.solve limit P = Ret r →
  DepthFirstSearch.size r
  = sum_list_with (λ s, length (succAndCost P s)) (DepthFirstSearch.succ_calls r) ∧
  DepthFirstSearch.numStatesExplored r
  = (length (DepthFirstSearch.succ_calls r)
     + match DepthFirstSearch.solution r with Some _ => 1 | None => 0 end)%nat ∧
  ∀ s, s ∈ DepthFirstSearch.succ_calls r → isGoal P s = false.
Proof.
  unfold DepthFirstSearch.solve. intros H.
  apply bind_Ret_inv in H as ([h st] & Hrun & H). injection H as ->.
  apply dfs_recurse_account in Hrun as [_ (new & Hc & Hg & Hs & Hn)].
  simpl in *. subst new. done.
Qed.

Lemma dfs_counters_witness :
  ∃ r,
    DepthFirstSearch.solve 5 diamond_no_goal = Ret r ∧
    DepthFirstSearch.size r
    = sum_list_with (λ s, length (succAndCost diamond_no_goal s))
                    (DepthFirstSearch.succ_calls r) ∧
    DepthFirstSearch.numStatesExplored r
    = (length (DepthFirstSearch.succ_calls r)
       + match DepthFirstSearch.solution r with Some _ => 1 | None => 0 end)%nat ∧
    ∀ s, s ∈ DepthFirstSearch.succ_calls r → isGoal diamond_no_goal s = false.
Proof.
  eexists. split; [vm_compute; reflexivity|].
  apply (dfs_counters 5 diamond_no_goal). vm_compute. reflexivity.
Defined.

(** X10. When [solve] of [DepthFirstSearch] returns with a solution, the
    path it has recorded is the leftmost one: it ends at the first goal
    state it meets, and at every state it takes the first listed edge from
    whose destination a goal can be reached; there is only one such path.
    When it returns without a solution, no goal can be reached from the
    start state. *)
Theorem dfs_returns_leftmost_path (limit : nat) (P : SearchProblem)
    (r : DepthFirstSearch.t) :
  DepthFirstSearch.solve limit P = Ret r →
  (∀ acts, DepthFirstSearch.actions r = Some acts →
     ∃ es, leftmost P (startState P) es ∧ solution_path P es ∧
           acts = path_actions es ∧
           DepthFirstSearch.totalCost r = Some (path_cost es) ∧
           DepthFirstSearch.solution r = Some (end_state (startState P) es) ∧
           ∀ es', leftmost P (startState P) es' → es' = es) ∧
  (DepthFirstSearch.actions r = None → ∀ es, ¬ solution_path P es).
Proof.
  unfold DepthFirstSearch.solve. intros H.
  apply bind_Ret_inv in H as ([h st] & Hrun & H). injection H as ->.
  apply dfs_recurse_left in Hrun; [|done].
  destruct Hrun as [(es & Hes & Hs & Ha & Ht)|(Hno & Hs & Ha & Ht)]; simpl in *.
  - split; [|congruence]. intros acts Hacts. exists es.
    split_and!;
      [done|by apply leftmost_path|congruence|rewrite Ht; f_equal; lia|done|].
    intros es' Hes'. by eapply leftmost_unique.
  - split; [congruence|]. intros _ es [Hp Hg]. specialize (Hno es Hp). congruence.
Qed.

Lemma dfs_returns_leftmost_path_witness :
  ∃ r,
    DepthFirstSearch.solve 4 detour = Ret r ∧
    (∀ acts, DepthFirstSearch.actions r = Some acts →
       ∃ es, leftmost detour (startState detour) es ∧ solution_path detour es ∧
             acts = path_actions es ∧
             DepthFirstSearch.totalCost r = Some (path_cost es) ∧
             DepthFirstSearch.solution r = Some (end_state (startState detour) es) ∧
             ∀ es', leftmost detour (startState detour) es' → es' = es) ∧
    (DepthFirstSearch.actions r = None → ∀ es, ¬ solution_path detour es).
Proof.
  eexists. split; [vm_compute; reflexivity|].
  apply (dfs_returns_leftmost_path 4 detour). vm_compute. reflexivity.
Defined.

(** * Further properties of the dynamic program *)

Section dp_closed.
Import DynamicProgramming.
Context (P : SearchProblem).

Lemma gen_body_eq rec a t c tuples (cache : gmap Z entry) :
  gen_body rec (a, t, c) (tuples, cache)
  = '(futureCost, cache') ← rec t cache;
    Ret (tuples ++ [(c + futureCost, a, t, c)], cache').
Proof. reflexivity. Qed.

Lemma gen_closed rec l : ∀ tuples cache,
  (∀ t c, cache_closed P c → dp_closed_result P t c (rec t c)) →
  cache_closed P cache →
  Forall (λ tup : entry, isGoal P tup.1.2 = true ∨ is_Some (cache !! tup.1.2)) tuples →
  match for_each (gen_body rec) l (tuples, cache) with
  | Ret (tuples', cache') =>
      cache_closed P cache' ∧
      (∀ k, is_Some (cache !! k) → is_Some (cache' !! k)) ∧
      Forall (λ tup : entry, isGoal P tup.1.2 = true ∨ is_Some (cache' !! tup.1.2))
             tuples'
  | Raise e => e = ValueError ∨ e = RecursionError
  | OutOfFuel => False
  end.
Proof.
  induction l as [|[[a t] c] l IH]; intros tuples cache Hrec Hok Hall; [done|].
  cbn [for_each]. rewrite gen_body_eq.
  pose proof (Hrec t cache Hok) as Hr.
  destruct (rec t cache) as [[v cache1]| |]; simpl in *; [|done..].
  destruct Hr as (Hok1 & Hdom1 & Hin1).
  assert (Hall1 : Forall (λ tup : entry,
                    isGoal P tup.1.2 = true ∨ is_Some (cache1 !! tup.1.2))
                  (tuples ++ [(c + v, a, t, c)])).
  { apply Forall_app. split.
    - eapply Forall_impl; [exact Hall|]. intros tup [?|?]; auto.
    - apply Forall_singleton. simpl. done. }
  specialize (IH (tuples ++ [(c + v, a, t, c)]) cache1 Hrec Hok1 Hall1).
  destruct (for_each _ l _) as [[tuples' cache']| |]; [|done..].
  destruct IH as (Hok' & Hdom' & Hall'). split_and!; auto.
Qed.

Lemma dp_recurse_closed limit : ∀ s cache,
  cache_closed P cache → dp_closed_result P s cache (recurse limit P s cache).
Proof.
  induction limit as [|limit IH]; intros s cache Hok; [by right|].
  rewrite dp_recurse_S. destruct (isGoal P s) eqn:Hgoal.
  { simpl. rewrite Hgoal. split_and!; auto. }
  destruct (cache !! s) as [e|] eqn:Hc.
  { cbn [mbind result_mbind result_bind]. rewrite Hc. simpl. split_and!; auto. }
  pose proof (gen_closed (recurse limit P) (succAndCost P s) [] cache IH Hok) as Hgen.
  destruct (for_each _ _ _) as [[tuples cache']| |]; simpl in *; [|by apply Hgen..].
  destruct Hgen as (Hok' & Hdom & Hall); [done|].
  destruct tuples as [|x tuples]; [by left|]. simpl. rewrite lookup_insert_eq. simpl.
  destruct (min_from_spec tuples x) as [Hin _].
  set (m := min_from x tuples) in *.
  rewrite Forall_forall in Hall. specialize (Hall m Hin).
  assert (Hins : ∀ k, is_Some (cache' !! k) → is_Some (<[s := m]> cache' !! k)).
  { intros k Hk. destruct (decide (s = k)) as [<-|];
      [by rewrite lookup_insert_eq|by rewrite lookup_insert_ne]. }
  split_and!.
  - intros k fc a t c Hk. destruct (decide (s = k)) as [<-|Hne].
    + rewrite lookup_insert_eq in Hk. injection Hk as Hk. rewrite Hk in Hall.
      simpl in Hall. destruct Hall; auto.
    + rewrite lookup_insert_ne in Hk by done.
      destruct (Hok' _ _ _ _ _ Hk); auto.
  - auto.
  - right. by rewrite lookup_insert_eq.
Qed.

Lemma follow_never_raises fuel : ∀ s history cache e,
  cache_closed P cache → isGoal P s = true ∨ is_Some (cache !! s) →
  follow fuel P cache s history ≠ Raise e.
Proof.
  induction fuel as [|fuel IH]; intros s history cache e Hok Hs; [done|].
  simpl. destruct (isGoal P s) eqn:Hgoal; [done|].
  destruct Hs as [?|[[[[fc a] t] c] Hc]]; [done|]. rewrite Hc.
  apply IH; [done|]. by eapply Hok.
Qed.

End dp_closed.

(** X11. On every problem, the only exceptions [dynamicProgramming]
    raises are the [ValueError] of [min] on an empty sequence and the
    recursion-depth error: the cache subscripts of the recursion and of the
    reconstruction loop never miss, since the destination of every cached
    edge is a goal or is cached. *)
Theorem dp_raises_only_value_or_recursion_error (limit fuel : nat)
    (P : SearchProblem) (e : exn) :
  DynamicProgramming.dynamicProgramming limit fuel P = Raise e →
  e = ValueError ∨ e = RecursionError.
Proof.
  unfold DynamicProgramming.dynamicProgramming.
  pose proof (dp_recurse_closed P limit (startState P) ∅) as Hr.
  destruct (DynamicProgramming.recurse limit P (startState P) ∅)
    as [[v cache]|e'|]; simpl in *.
  - destruct Hr as (Hok & _ & Hin).
    { intros s fc a t c H. by rewrite lookup_empty in H. }
    destruct (DynamicProgramming.follow fuel P cache (startState P) [])
      as [history|e'|] eqn:Hf; simpl; [done| |done].
    by apply follow_never_raises in Hf.
  - intros [= <-]. apply Hr. intros s fc a t c H. by rewrite lookup_empty in H.
  - done.
Qed.

Lemma dp_raises_only_value_or_recursion_error_witness :
  DynamicProgramming.dynamicProgramming 3 3 dead_end = Raise ValueError ∧
  DynamicProgramming.dynamicProgramming 1 3 dead_end = Raise RecursionError ∧
  (ValueError = ValueError ∨ ValueError = RecursionError) ∧
  (RecursionError = ValueError ∨ RecursionError = RecursionError).
Proof.
  split_and!; [reflexivity|reflexivity| |].
  - apply (dp_raises_only_value_or_recursion_error 3 3 dead_end ValueError).
    reflexivity.
  - apply (dp_raises_only_value_or_recursion_error 1 3 dead_end RecursionError).
    reflexivity.
Defined.

Section dp_path.
Import DynamicProgramming.
Context (P : SearchProblem) (states : list State).
Hypothesis Hclosed : closed P states.
Hypothesis Hnonneg : nonneg P states.
Hypothesis Hlive : no_dead_end P states.

Lemma gen_arg rec l : ∀ tuples cache tuples' cache',
  (∀ e, e ∈ l → ∀ c v c', cache_ok P c → cache_arg P c →
     rec (edge_dest e) c = Ret (v, c') →
     cache_ok P c' ∧ cache_arg P c' ∧ opt_cost P (edge_dest e) v) →
  cache_ok P cache → cache_arg P cache →
  Forall (λ tup : entry, ∃ v, tup.1.1.1 = tup.2 + v ∧ opt_cost P tup.1.2 v) tuples →
  for_each (gen_body rec) l (tuples, cache) = Ret (tuples', cache') →
  cache_arg P cache' ∧
  Forall (λ tup : entry, ∃ v, tup.1.1.1 = tup.2 + v ∧ opt_cost P tup.1.2 v) tuples'.
Proof.
  induction l as [|[[a t] c] l IH]; intros tuples cache tuples' cache' Hrec Hok Harg Hall H.
  - by injection H as <- <-.
  - cbn [for_each] in H. rewrite gen_body_eq in H.
    apply bind_Ret_inv in H as ([tuples1 cache1] & Hbody & Hloop).
    apply bind_Ret_inv in Hbody as ([v c1] & Hrun & Hbody). injection Hbody as <- <-.
    destruct (Hrec (a, t, c) (list_elem_of_here _ _) _ _ _ Hok Harg Hrun)
      as (Hok1 & Harg1 & Hopt).
    eapply IH; [|exact Hok1|exact Harg1| |exact Hloop].
    + intros e He. apply Hrec. by right.
    + apply Forall_app. split; [done|]. apply Forall_singleton. simpl. eauto.
Qed.

Lemma dp_recurse_arg n : ∀ s cache v cache',
  height_le P s n → s ∈ states → cache_ok P cache → cache_arg P cache →
  recurse (S n) P s cache = Ret (v, cache') →
  cache_arg P cache'.
Proof.
  induction n as [|n IH]; intros s cache v cache' Hh Hs Hok Harg H;
    rewrite dp_recurse_S in H;
    (destruct (isGoal P s) eqn:Hgoal; [by injection H as <- <-|]);
    (destruct (cache !! s) as [e0|] eqn:Hc;
     [cbn [mbind result_mbind result_bind] in H; rewrite Hc in H; by injection H as <- <-|]);
    apply bind_Ret_inv in H as (cache2 & H & Hlk);
    apply bind_Ret_inv in H as ([tuples cache1] & Hgen & H);
    apply bind_Ret_inv in H as (m & Hmin & H); injection H as <-;
    rewrite lookup_insert_eq in Hlk; injection Hlk as <- <-;
    (match type of Hgen with for_each (gen_body ?rec) _ _ = _ =>
       assert (Hrec : ∀ e, e ∈ succAndCost P s → ∀ c v c', cache_ok P c → cache_arg P c →
         rec (edge_dest e) c = Ret (v, c') →
         cache_ok P c' ∧ cache_arg P c' ∧ opt_cost P (edge_dest e) v) end;
     [intros e He c0 v0 c0' Hok0 Harg0 Hrun;
      destruct (height_le_step _ _ _ _ Hh He) as (n' & Hn & Hh'); try done|]).
  2:{ injection Hn as <-.
    assert (Hd : edge_dest e ∈ states) by (by apply (proj2 Hclosed s)).
    destruct (dp_recurse_outcome P states Hclosed Hnonneg Hlive n (edge_dest e) c0 Hh' Hd Hok0)
      as (v1 & c1 & Hrun1 & Hopt1 & Hok1 & _).
    rewrite Hrun in Hrun1. injection Hrun1 as <- <-.
    split; [exact Hok1|split; [|exact Hopt1]]. by eapply (IH (edge_dest e) c0 v0). }
  all: apply gen_arg in Hgen as [Harg1 Hall]; [|done..];
    destruct tuples as [|x tuples]; [done|]; injection Hmin as <-;
    destruct (min_from_spec tuples x) as [Hin _];
    rewrite Forall_forall in Hall; specialize (Hall _ Hin);
    intros k fc a t c Hk; (destruct (decide (s = k)) as [<-|Hne];
      [rewrite lookup_insert_eq in Hk; injection Hk as Hk; rewrite Hk in Hall; exact Hall
      |rewrite lookup_insert_ne in Hk by done; by eapply Harg1]).
Qed.

(** The reconstruction loop follows edges of least cost. *)
Lemma follow_opt fuel : ∀ s history cache r,
  s ∈ states → cache_ok P cache → cache_arg P cache →
  follow fuel P cache s history = Ret r →
  ∃ es, r = history ++ es ∧ is_path P s es ∧
        isGoal P (end_state s es) = true ∧ opt_cost P s (path_cost es).
Proof.
  induction fuel as [|fuel IH]; intros s history cache r Hs Hok Harg H; [done|].
  simpl in H. destruct (isGoal P s) eqn:Hgoal.
  - injection H as <-. exists []. rewrite app_nil_r. split_and!; try done.
    split; [by exists []|]. intros es Hp _. by eapply path_cost_nonneg.
  - destruct (cache !! s) as [[[[fc a] t] c]|] eqn:Hc; [|done].
    destruct (Hok _ _ _ _ _ Hc) as (He & Hopt & _).
    destruct (Harg _ _ _ _ _ Hc) as (v & -> & Hv).
    apply IH in H as (es & -> & Hp & Hg & Hes); [|by apply (proj2 Hclosed s _ Hs He)|done..].
    exists ((a, t, c) :: es). rewrite <- app_assoc. split_and!; try done.
    rewrite (opt_cost_unique _ _ _ _ Hv Hes) in Hopt. exact Hopt.
Qed.

End dp_path.

(** X12. On a finite acyclic problem with integer edge costs that are not
    negative, without dead ends and with fewer states than the call stack
    admits nested calls of [recurse], the history [dynamicProgramming]
    returns is a path from the start state to a goal state along edges that
    [succAndCost] lists, its cost is the returned total cost, and no path
    from the start to a goal costs less. *)
Theorem dp_history_is_optimal_path (P : SearchProblem) (states : list State) :
  closedb P states = true → nonnegb P states = true →
  no_dead_endb P states = true → acyclic P →
  ∀ limit fuel, (length states < limit)%nat → (length states < fuel)%nat →
    ∃ c history,
      DynamicProgramming.dynamicProgramming limit fuel P = Ret (c, history) ∧
      solution_path P history ∧
      path_cost history = c ∧
      ∀ es, solution_path P es → c ≤ path_cost es.
Proof.
  intros Hc%closedb_spec Hn%nonnegb_spec Hl%no_dead_endb_spec Hacyc
         limit fuel Hlimit Hfuel.
  destruct (dp_total P states limit fuel Hc Hn Hl Hacyc Hlimit Hfuel)
    as (c & history & Hdp & Hopt).
  exists c, history. split; [done|].
  unfold DynamicProgramming.dynamicProgramming in Hdp.
  apply bind_Ret_inv in Hdp as ([v cache] & Hrun & Hdp).
  apply bind_Ret_inv in Hdp as (h & Hf & Hdp). injection Hdp as -> ->.
  destruct limit as [|n]; [lia|].
  assert (Hh : height_le P (startState P) n).
  { eapply height_le_mono; [eapply (acyclic_height P states); eauto|lia].
    exists []. done. }
  destruct (dp_recurse_outcome P states Hc Hn Hl n (startState P) ∅ Hh)
    as (v1 & c1 & Hrun1 & _ & Hok & _); [apply Hc|apply cache_ok_empty|].
  rewrite Hrun in Hrun1. injection Hrun1 as <- <-.
  assert (Harg : cache_arg P cache).
  { eapply (dp_recurse_arg P states Hc Hn Hl n); [exact Hh|apply Hc|apply cache_ok_empty| |exact Hrun].
    intros s fc a t c0 H. by rewrite lookup_empty in H. }
  destruct (follow_opt P states Hc Hn fuel (startState P) [] cache history)
    as (es & -> & Hp & Hg & Hes); [apply Hc|done|done|done|].
  simpl. split_and!; [done|by eapply opt_cost_unique|].
  intros es' [Hp' Hg']. by apply Hopt.
Qed.

Lemma dp_history_is_optimal_path_witness :
  ∃ c history,
    DynamicProgramming.dynamicProgramming 5 5 diamond = Ret (c, history) ∧
    solution_path diamond history ∧
    path_cost history = c ∧
    ∀ es, solution_path diamond es → c ≤ path_cost es.
Proof.
  apply (dp_history_is_optimal_path diamond [0; 1; 2; 3]);
    [reflexivity|reflexivity|reflexivity|apply diamond_acyclic
    |simpl; lia|simpl; lia].
Defined.

(** Where no goal can be reached nothing is cached, and the recursion ends
    in an exception whatever the recursion limit. *)
Lemma dp_recurse_no_goal_raises P limit : ∀ s,
  no_goal_from P s →
  DynamicProgramming.recurse limit P s ∅ = Raise ValueError ∨
  DynamicProgramming.recurse limit P s ∅ = Raise RecursionError.
Proof.
  induction limit as [|limit IH]; intros s Hno; [by right|].
  rewrite dp_recurse_S.
  rewrite (Hno [] I : isGoal P s = false), lookup_empty.
  destruct (succAndCost P s) as [|[[a t] c] l] eqn:Hsucc; [by left|].
  assert (He : (a, t, c) ∈ succAndCost P s) by (rewrite Hsucc; by left).
  cbn [for_each]. rewrite gen_body_eq.
  destruct (IH t (no_goal_from_step P s (a, t, c) Hno He)) as [-> | ->];
    [by left|by right].
Qed.

(** X13. On a problem from whose start state no goal state can be reached,
    [dynamicProgramming] never reports the absence of a path: whatever the
    recursion limit, it raises [ValueError] or the recursion-depth error.
    On a finite acyclic problem with fewer states than the call stack
    admits nested calls of [recurse], it raises the [ValueError] of [min] on
    an empty sequence. *)
Theorem dp_raises_when_no_goal_is_reachable (P : SearchProblem) (states : list State) :
  (∀ es, ¬ solution_path P es) →
  (∀ limit fuel,
     DynamicProgramming.dynamicProgramming limit fuel P = Raise ValueError ∨
     DynamicProgramming.dynamicProgramming limit fuel P = Raise RecursionError) ∧
  (closedb P states = true → acyclic P →
   ∀ limit fuel, (length states < limit)%nat →
     DynamicProgramming.dynamicProgramming limit fuel P = Raise ValueError).
Proof.
  intros Hno. split.
  - intros limit fuel. unfold DynamicProgramming.dynamicProgramming.
    destruct (dp_recurse_no_goal_raises P limit (startState P)) as [-> | ->];
      [|by left|by right].
    intros es Hp. destruct (isGoal P (end_state (startState P) es)) eqn:Hg; [|done].
    by destruct (Hno es).
  - intros Hc%closedb_spec Hacyc limit fuel Hlimit. by apply (dp_no_goal P states).
Qed.

Lemma dp_raises_when_no_goal_is_reachable_witness :
  (∀ limit fuel,
     DynamicProgramming.dynamicProgramming limit fuel diamond_no_goal
     = Raise ValueError ∨
     DynamicProgramming.dynamicProgramming limit fuel diamond_no_goal
     = Raise RecursionError) ∧
  DynamicProgramming.dynamicProgramming 5 0 diamond_no_goal = Raise ValueError.
Proof.
  destruct (dp_raises_when_no_goal_is_reachable diamond_no_goal [0; 1; 2; 3])
    as [Hany Hdeep]; [apply no_goals_no_solution; reflexivity|].
  split; [exact Hany|].
  apply Hdeep; [reflexivity|apply diamond_no_goal_acyclic|simpl; lia].
Defined.

Section dp_dead.
Import DynamicProgramming.
Context (P : SearchProblem) (E : exn → Prop).
Hypothesis HE : E ValueError.

Lemma gen_dead rec l : ∀ tuples cache,
  (∀ e, e ∈ l → ∀ c, cache_sound P c →
     dp_dead_result E P (edge_dest e) (rec (edge_dest e) c)) →
  cache_sound P cache →
  match for_each (gen_body rec) l (tuples, cache) with
  | Ret (tuples', cache') =>
      cache_sound P cache' ∧
      length tuples' = (length tuples + length l)%nat ∧
      ∀ e, e ∈ l → ∀ es, ¬ dead_end_path P (edge_dest e) es
  | Raise e => E e
  | OutOfFuel => False
  end.
Proof.
  induction l as [|[[a t] c] l IH]; intros tuples cache Hrec Hok.
  { simpl. split_and!; [done|lia|]. intros e He. by apply elem_of_nil in He. }
  cbn [for_each]. rewrite gen_body_eq.
  pose proof (Hrec (a, t, c) (list_elem_of_here _ _) cache Hok) as Hr.
  change (edge_dest (a, t, c)) with t in Hr.
  destruct (rec t cache) as [[v cache1]| |]; simpl in *; [|done..].
  destruct Hr as [Hok1 Hno].
  assert (Hrec1 : ∀ e, e ∈ l → ∀ c, cache_sound P c →
            dp_dead_result E P (edge_dest e) (rec (edge_dest e) c)).
  { intros e He. apply Hrec. by right. }
  specialize (IH (tuples ++ [(c + v, a, t, c)]) cache1 Hrec1 Hok1).
  destruct (for_each _ l _) as [[tuples' cache']| |]; [|done..].
  destruct IH as (Hok' & Hlen & Hall). split_and!; [done| |].
  - rewrite Hlen, length_app. simpl. lia.
  - intros e [->|He]%elem_of_cons; [exact Hno|by apply Hall].
Qed.

Lemma dp_dead_step rec s cache :
  (∀ e, e ∈ succAndCost P s → ∀ c, cache_sound P c →
     dp_dead_result E P (edge_dest e) (rec (edge_dest e) c)) →
  cache_sound P cache →
  dp_dead_result E P s
    (if isGoal P s then Ret (0, cache)
     else
       cache ←
         match cache !! s with
         | Some _ => Ret cache
         | None =>
             '(tuples, cache) ←
               for_each (gen_body rec) (succAndCost P s) ([], cache);
             m ← py_min tuples;
             Ret (<[s := m]> cache)
         end;
       match cache !! s with
       | None => Raise KeyError
       | Some e => Ret (e.1.1.1, cache)
       end).
Proof.
  intros Hrec Hok. destruct (isGoal P s) eqn:Hgoal.
  { simpl. split; [done|]. intros [|e es] [Hg _]; congruence. }
  destruct (cache !! s) as [e0|] eqn:Hc.
  { cbn [mbind result_mbind result_bind]. rewrite Hc. simpl. split; [done|].
    apply Hok. by rewrite Hc. }
  pose proof (gen_dead rec (succAndCost P s) [] cache Hrec Hok) as Hgen.
  destruct (for_each _ _ _) as [[tuples cache']| |]; simpl in *; [|done..].
  destruct Hgen as (Hok' & Hlen & Hall).
  destruct tuples as [|x tuples]; [done|]. simpl. rewrite lookup_insert_eq. simpl.
  assert (Hs : ∀ es, ¬ dead_end_path P s es).
  { intros [|e es] [_ Hes].
    - rewrite Hes in Hlen. simpl in Hlen. lia.
    - destruct Hes as [He Hes]. by apply (Hall e He es). }
  split; [|done]. intros k Hk. destruct (decide (s = k)) as [<-|Hne]; [done|].
  rewrite lookup_insert_ne in Hk by done. by apply Hok'.
Qed.

(** Within the call stack only [E] is raised. *)
Lemma dp_recurse_dead n : ∀ s cache,
  height_le P s n → cache_sound P cache →
  dp_dead_result E P s (recurse (S n) P s cache).
Proof.
  induction n as [|n IH]; intros s cache Hh Hok;
    rewrite dp_recurse_S; (apply dp_dead_step; [|done]);
    intros e He c Hc;
    destruct (height_le_step _ _ _ _ Hh He) as (n' & Hn & Hh'); [done|].
  injection Hn as <-. by apply IH.
Qed.

(** Whatever the recursion limit. *)
Lemma dp_recurse_dead_any limit : ∀ s cache,
  E RecursionError → cache_sound P cache →
  dp_dead_result E P s (recurse limit P s cache).
Proof.
  induction limit as [|limit IH]; intros s cache HR Hok; [done|].
  rewrite dp_recurse_S. apply dp_dead_step; [|done].
  intros e He c Hc. by apply IH.
Qed.

End dp_dead.

(** X14. When some path from the start state runs through states that are
    not goals into a state that is not a goal and has no successors,
    [dynamicProgramming] never returns a result, even when other paths
    reach a goal: whatever the recursion limit, it raises [ValueError] or
    the recursion-depth error.  On a finite acyclic problem with fewer
    states than the call stack admits nested calls of [recurse], it raises
    [ValueError]. *)
Theorem dp_raises_on_a_dead_end (P : SearchProblem) (states : list State)
    (es : list Edge) :
  dead_end_path P (startState P) es →
  (∀ limit fuel,
     DynamicProgramming.dynamicProgramming limit fuel P = Raise ValueError ∨
     DynamicProgramming.dynamicProgramming limit fuel P = Raise RecursionError) ∧
  (closedb P states = true → acyclic P →
   ∀ limit fuel, (length states < limit)%nat →
     DynamicProgramming.dynamicProgramming limit fuel P = Raise ValueError).
Proof.
  intros Hdead.
  assert (Hempty : cache_sound P ∅).
  { intros s Hs. rewrite lookup_empty in Hs. by destruct Hs. }
  split.
  - intros limit fuel.
    pose proof (dp_recurse_dead_any P
                  (λ e, e = ValueError ∨ e = RecursionError) (or_introl eq_refl)
                  limit (startState P) ∅ (or_intror eq_refl) Hempty) as Hr.
    unfold DynamicProgramming.dynamicProgramming.
    destruct (DynamicProgramming.recurse limit P (startState P) ∅)
      as [[v cache]|e|]; simpl in Hr.
    + destruct Hr as [_ Hr]. by destruct (Hr es).
    + destruct Hr as [-> | ->]; [by left|by right].
    + done.
  - intros Hc%closedb_spec Hacyc limit fuel Hlimit. destruct limit as [|n]; [lia|].
    assert (Hh : height_le P (startState P) n).
    { eapply height_le_mono; [eapply (acyclic_height P states); eauto|lia].
      exists []. done. }
    pose proof (dp_recurse_dead P (λ e, e = ValueError) eq_refl
                  n (startState P) ∅ Hh Hempty) as Hr.
    unfold DynamicProgramming.dynamicProgramming.
    destruct (DynamicProgramming.recurse (S n) P (startState P) ∅)
      as [[v cache]|e|]; simpl in Hr.
    + destruct Hr as [_ Hr]. by destruct (Hr es).
    + by rewrite Hr.
    + done.
Qed.

Lemma dp_raises_on_a_dead_end_witness :
  solution_path dead_end [(2, 2, 1)] ∧
  (∀ limit fuel,
     DynamicProgramming.dynamicProgramming limit fuel dead_end = Raise ValueError ∨
     DynamicProgramming.dynamicProgramming limit fuel dead_end
     = Raise RecursionError) ∧
  DynamicProgramming.dynamicProgramming 4 0 dead_end = Raise ValueError.
Proof.
  split; [vm_compute; repeat constructor|].
  destruct (dp_raises_on_a_dead_end dead_end [0; 1; 2] [(1, 1, 1)])
    as [Hany Hdeep]; [vm_compute; repeat constructor|].
  split; [exact Hany|].
  apply Hdeep;
    [reflexivity
    |apply (ranked_acyclic dead_end [0; 1; 2] (λ s, if s =? 0 then 1%nat else 0%nat));
       reflexivity
    |simpl; lia].
Defined.

(** * Properties of the rhyme test *)

Section rhyme_props.
Import Dict.
Context {V : Type} (eqb : V → V → bool).

Lemma last3_short (w : string) : (String.length w ≤ 3)%nat → last3 w = w.
Proof.
  unfold last3. intros Hlen.
  replace (String.length w - 3)%nat with 0%nat by lia.
  destruct w as [|a [|b [|c [|x w]]]]; simpl in *; try done. lia.
Qed.

Lemma subscript_cases (v : list V) (i : nat) :
  (∃ x, subscript v i = Ret x) ∨ subscript v i = Raise IndexError.
Proof. unfold subscript. destruct (v !! i); eauto. Qed.

(** [rhyme(word, word)] on a word of the table, by the length of its
    value. *)
Lemma rhyme_self_known d word v :
  d !! word = Some v →
  rhyme eqb d word word =
  match v with
  | [] => Raise IndexError
  | [a] => if eqb a a then Ret false else Raise IndexError
  | a :: b :: _ =>
      if eqb a a then Ret false else if eqb b b then Ret true else Ret false
  end.
Proof.
  intros Hv. unfold rhyme. rewrite Hv.
  destruct v as [|a [|b v]]; simpl; try done; by destruct (eqb a a).
Qed.

Lemma rhyme_self_unknown d word :
  d !! word = None → rhyme eqb d word word = Ret false.
Proof.
  intros Hv. unfold rhyme. rewrite Hv.
  rewrite (bool_decide_eq_false_2 (word ≠ word)) by (intros Hne; by apply Hne).
  by rewrite andb_false_r.
Qed.

End rhyme_props.

(** A word whose first table element is NaN rhymes with itself. *)
Lemma rhyme_nan_example :
  Dict.rhyme float_eqb {["w" := [None; Some 1]]} "w" "w" = Ret true.
Proof. reflexivity. Qed.

(** X15. [rhyme(word, word)] returns [True] exactly when the word is in the
    table, the first element of its value is not [==] to itself (as a float
    NaN is not) and the second one is.  So where [==] is reflexive on the
    table elements no word rhymes with itself: [rhyme(word, word)] returns
    [False], or raises [IndexError] when the value of the word is empty. *)
Theorem rhyme_with_itself {V : Type} (eqb : V → V → bool)
    (d : gmap string (list V)) (word : string) :
  (Dict.rhyme eqb d word word = Ret true ↔
   ∃ v a b, d !! word = Some v ∧ v !! 0%nat = Some a ∧ v !! 1%nat = Some b ∧
            eqb a a = false ∧ eqb b b = true) ∧
  ((∀ x, eqb x x = true) →
   Dict.rhyme eqb d word word = Ret false ∨
   Dict.rhyme eqb d word word = Raise IndexError).
Proof.
  destruct (d !! word) as [v|] eqn:Hv.
  - rewrite (rhyme_self_known eqb d word v Hv). split.
    + split.
      * intros H. exists v. destruct v as [|a [|b v]]; [done| |].
        -- by destruct (eqb a a).
        -- exists a, b. destruct (eqb a a); [done|]. destruct (eqb b b); by split_and!.
      * intros (v' & a & b & [= <-] & Ha & Hb & Haa & Hbb).
        destruct v as [|a' [|b' v]]; simpl in *; try done.
        injection Ha as ->. injection Hb as ->. by rewrite Haa, Hbb.
    + intros Hrefl. destruct v as [|a [|b v]]; [by right|..]; rewrite Hrefl; by left.
  - rewrite (rhyme_self_unknown eqb d word Hv). split; [|by left].
    split; [done|]. intros (v & a & b & [=] & _).
Qed.

(** X16. The rhyme test is symmetric wherever [==] on the table elements
    is, as it is on Python's built-in values, NaN included:
    [rhyme(word1, word2)] and [rhyme(word2, word1)] return the same truth
    value or raise the same exception. *)
Theorem rhyme_symmetric {V : Type} (eqb : V → V → bool)
    (d : gmap string (list V)) (word1 word2 : string) :
  (∀ x y, eqb x y = eqb y x) →
  Dict.rhyme eqb d word1 word2 = Dict.rhyme eqb d word2 word1.
Proof.
  intros Hsym. unfold Dict.rhyme.
  destruct (d !! word1) as [v1|], (d !! word2) as [v2|];
    try (f_equal; f_equal; apply bool_decide_ext; split; congruence).
  destruct (subscript_cases v1 0) as [[a1 ->]| ->],
           (subscript_cases v2 0) as [[a2 ->]| ->]; simpl; try done.
  rewrite (Hsym a2 a1). destruct (eqb a1 a2); [done|].
  destruct (subscript_cases v1 1) as [[b1 ->]| ->],
           (subscript_cases v2 1) as [[b2 ->]| ->]; simpl; try done.
  by rewrite (Hsym b2 b1).
Qed.

Lemma rhyme_symmetric_witness :
  Dict.rhyme float_eqb {["w" := [None; Some 1]; "x" := [Some 2; Some 1]]} "w" "x"
  = Dict.rhyme float_eqb {["w" := [None; Some 1]; "x" := [Some 2; Some 1]]} "x" "w".
Proof.
  apply (rhyme_symmetric float_eqb
           {["w" := [None; Some 1]; "x" := [Some 2; Some 1]]} "w" "x").
  intros [x|] [y|]; simpl; try reflexivity. apply Z.eqb_sym.
Defined.

(** X17. Two words of at most three characters that are not both in the
    table never rhyme: the slices are then the words themselves, which are
    required to be equal and different at once. *)
Theorem rhyme_short_unknown_words {V : Type} (eqb : V → V → bool)
    (d : gmap string (list V)) (word1 word2 : string) :
  d !! word1 = None ∨ d !! word2 = None →
  (String.length word1 ≤ 3)%nat → (String.length word2 ≤ 3)%nat →
  Dict.rhyme eqb d word1 word2 = Ret false.
Proof.
  intros Hd H1 H2. unfold Dict.rhyme.
  assert (Hb : bool_decide (Dict.last3 word1 = Dict.last3 word2)
               && bool_decide (word1 ≠ word2) = false).
  { rewrite !last3_short by done.
    destruct (decide (word1 = word2)) as [->|Hne].
    - rewrite (bool_decide_eq_false_2 (word2 ≠ word2)) by (intros Hne; by apply Hne).
      by rewrite andb_false_r.
    - by rewrite (bool_decide_eq_false_2 (word1 = word2)). }
  destruct Hd as [-> | ->]; [by rewrite Hb|].
  destruct (d !! word1); by rewrite Hb.
Qed.

Lemma rhyme_short_unknown_words_witness :
  Dict.rhyme Z.eqb ∅ "cat" "hat" = Ret false.
Proof.
  apply (rhyme_short_unknown_words Z.eqb ∅ "cat" "hat");
    [left; apply lookup_empty|simpl; lia|simpl; lia].
Defined.
